(** * Huffman coding engine of the Day 5 compressor (script.js)

    A shallow embedding of the classes [HuffmanNode], [MinHeap] and
    [HuffmanCoding] of [day05-image-compressor/script.js] and of the
    computing parts of the controller [HuffmanUI], followed by the
    properties of the compression engine.

    Modelling conventions.
    - A JavaScript string is a [string]; [for (const c of s)] walks its
      characters, one [ascii] each (text outside Latin-1 is not covered).
    - A JavaScript number that counts something is a [nat] (the counts stay
      far below 2^53, where doubles are exact).
    - [null] and [undefined] are [None].
    - A [Map] is the list of its entries in insertion order; the [Map] objects
      themselves live in a store and are named by a location, because
      [HuffmanCoding] mutates its two maps in place across calls.
    - A [HuffmanNode] is written only by its constructor and by the two
      assignments that follow [new HuffmanNode] in [buildHuffmanTree], before
      anything else can reach it; it is modelled as a value.
    - A thrown [TypeError] (reading a property of [null] or [undefined]) is the
      second constructor of [completion].
    - A [while] loop is a structural recursion on a bound on its number of
      rounds; the lemmas [bubbleUp_unfold], [bubbleDown_unfold] and
      [merge_loop_unfold] show that the bound is never what stops the loop. *)

From Stdlib Require Import Lia ZArith ZifyNat Permutation Sorted Ascii.
From Stdlib Require String DecimalString.
From stdpp Require Import base option list strings gmap.

(** [lia] also decides goals with division by a constant. *)
Ltac Zify.zify_post_hook ::= Z.to_euclidean_division_equations.

#[local] Set Warnings "-clear-no-such-hyp".

(** ** Completions: a normal value or a thrown TypeError *)

Inductive completion (A : Type) : Type :=
| Normal (a : A)
| TypeError.
Arguments Normal {A} a.
Arguments TypeError {A}.

#[global] Instance completion_ret : MRet completion := λ A, Normal.
#[global] Instance completion_bind : MBind completion :=
  λ A B f m, match m with Normal a => f a | TypeError => TypeError end.

(** Property access on a reference that may be [null]/[undefined]. *)
Definition deref {A} (o : option A) : completion A :=
  match o with Some a => Normal a | None => TypeError end.

(** A [for ... of] loop whose body may throw. *)
Fixpoint for_of {A S} (body : S → A → completion S) (s : S) (l : list A)
  : completion S :=
  match l with
  | [] => Normal s
  | a :: l' => s' ← body s a; for_of body s' l'
  end.

(** The characters of a string, in order. *)
Definition chars (s : string) : list ascii := String.list_ascii_of_string s.

(** String conversion applied by [+=] to a value that may be [null]
    ([HuffmanNode.char]) or [undefined] ([Map.get] on a missing key). *)
Definition char_to_string (c : option ascii) : string :=
  match c with Some a => String a EmptyString | None => "null" end.
Definition code_to_string (c : option string) : string :=
  match c with Some s => s | None => "undefined" end.

(** ** Map: entries in insertion order *)

Module JsMap.
Section JsMap.
Context {K V : Type} `{EqDecision K}.

Fixpoint get (k : K) (m : list (K * V)) : option V :=
  match m with
  | [] => None
  | (k', v) :: m' => if decide (k' = k) then Some v else get k m'
  end.

(** [set] keeps the position of a key that is already present and appends
    a new key at the end. *)
Fixpoint set (k : K) (v : V) (m : list (K * V)) : list (K * V) :=
  match m with
  | [] => [(k, v)]
  | (k', v') :: m' =>
      if decide (k' = k) then (k, v) :: m' else (k', v') :: set k v m'
  end.

Definition clear (m : list (K * V)) : list (K * V) := [].
End JsMap.
End JsMap.

(** ** class HuffmanNode *)

Module HuffmanNode.
#[warnings="-register-all"]
Inductive t : Type :=
  Build { char : option ascii; frequency : nat;
          left : option t; right : option t }.

(** [constructor(char, frequency)] *)
Definition new (char : option ascii) (frequency : nat) : t :=
  Build char frequency None None.

Definition isLeaf (n : t) : bool :=
  match left n, right n with
  | None, None => true
  | _, _ => false
  end.
End HuffmanNode.
Abbreviation node := HuffmanNode.t.

(** ** class MinHeap

    The field [heap] is the array itself; every method takes the array and
    returns the array it leaves behind. *)

Module MinHeap.
Import HuffmanNode.

Definition new : list node := [].

(** [[a[i], a[j]] = [a[j], a[i]]]; both elements have been read by the
    comparison that precedes every swap. *)
Definition swap (heap : list node) (i j : nat) : list node :=
  match heap !! i, heap !! j with
  | Some x, Some y => <[j := x]> (<[i := y]> heap)
  | _, _ => heap
  end.

(** [Array.prototype.pop] *)
Definition pop (heap : list node) : option node * list node :=
  (last heap, removelast heap).

Fixpoint bubbleUp_loop (fuel : nat) (heap : list node) (index : nat)
  : completion (list node) :=
  match fuel with
  | 0 => Normal heap
  | S fuel' =>
      if decide (0 < index) then
        let parentIndex := (index - 1) / 2 in
        x ← deref (heap !! index);
        p ← deref (heap !! parentIndex);
        if decide (frequency p ≤ frequency x) then Normal heap
        else bubbleUp_loop fuel' (swap heap index parentIndex) parentIndex
      else Normal heap
  end.

(** The index strictly decreases, so [index] iterations are enough. *)
Definition bubbleUp (heap : list node) (index : nat)
  : completion (list node) :=
  bubbleUp_loop index heap index.

Fixpoint bubbleDown_loop (fuel : nat) (heap : list node) (index : nat)
  : completion (list node) :=
  match fuel with
  | 0 => Normal heap
  | S fuel' =>
      let smallest := index in
      let leftChild := 2 * index + 1 in
      let rightChild := 2 * index + 2 in
      smallest ←
        (if decide (leftChild < length heap) then
           l ← deref (heap !! leftChild);
           s ← deref (heap !! smallest);
           Normal (if decide (frequency l < frequency s)
                   then leftChild else smallest)
         else Normal smallest);
      smallest ←
        (if decide (rightChild < length heap) then
           r ← deref (heap !! rightChild);
           s ← deref (heap !! smallest);
           Normal (if decide (frequency r < frequency s)
                   then rightChild else smallest)
         else Normal smallest);
      if decide (smallest = index) then Normal heap
      else bubbleDown_loop fuel' (swap heap index smallest) smallest
  end.

(** The index strictly increases and the loop stops once the index has no
    child inside the array, so [length heap - index] iterations are
    enough. *)
Definition bubbleDown (heap : list node) (index : nat)
  : completion (list node) :=
  bubbleDown_loop (length heap - index) heap index.

Definition insert (heap : list node) (n : node) : completion (list node) :=
  let heap := heap ++ [n] in
  bubbleUp heap (length heap - 1).

(** Returns the extracted node ([None] is [null]) and the array left. *)
Definition extractMin (heap : list node)
  : completion (option node * list node) :=
  match heap with
  | [] => Normal (None, heap)
  | [_] => Normal (pop heap)
  | min :: _ =>
      let '(lst, heap) := pop heap in
      match lst with
      | Some x =>
          heap ← bubbleDown (<[0 := x]> heap) 0;
          Normal (Some min, heap)
      | None => Normal (Some min, heap) (* pop of a non-empty array *)
      end
  end.

Definition size (heap : list node) : nat := length heap.
End MinHeap.

(** ** The store of Map objects *)

Definition loc := nat.

Record Store : Type := {
  freqMaps : gmap loc (list (ascii * nat));
  codeMaps : gmap loc (list (option ascii * string))
}.

Definition freq_read (l : loc) (σ : Store) : list (ascii * nat) :=
  default [] (freqMaps σ !! l).
Definition code_read (l : loc) (σ : Store) : list (option ascii * string) :=
  default [] (codeMaps σ !! l).
Definition freq_write (l : loc) (m : list (ascii * nat)) (σ : Store) : Store :=
  {| freqMaps := <[l := m]> (freqMaps σ); codeMaps := codeMaps σ |}.
Definition code_write (l : loc) (m : list (option ascii * string)) (σ : Store)
  : Store :=
  {| freqMaps := freqMaps σ; codeMaps := <[l := m]> (codeMaps σ) |}.

(** [new Map(m)]: a fresh object holding a copy of the entries. *)
Definition freq_copy (l : loc) (σ : Store) : loc * Store :=
  let l' := fresh (dom (freqMaps σ)) in (l', freq_write l' (freq_read l σ) σ).
Definition code_copy (l : loc) (σ : Store) : loc * Store :=
  let l' := fresh (dom (codeMaps σ)) in (l', code_write l' (code_read l σ) σ).

(** ** class HuffmanCoding *)

Module Result.
Record t : Type := {
  original : string;
  encoded : string;
  originalBits : nat;
  compressedBits : nat;
  frequencies : loc;
  codes : loc;
  tree : option node
}.
End Result.

Inductive outcome : Type :=
| Failure (error : string)   (* { success: false, error } *)
| Success (r : Result.t).    (* { success: true, ... } *)

Module HuffmanCoding.
Import HuffmanNode.

Record t : Type := {
  root : option node;
  codes : loc;
  frequencies : loc
}.

(** [constructor()] *)
Definition new (σ : Store) : t * Store :=
  let lc := fresh (dom (codeMaps σ)) in
  let lf := fresh (dom (freqMaps σ)) in
  ({| root := None; codes := lc; frequencies := lf |},
   freq_write lf [] (code_write lc [] σ)).

Definition set_root (r : option node) (this : t) : t :=
  {| root := r; codes := codes this; frequencies := frequencies this |}.

(** [(this.frequencies.get(char) || 0) + 1]: a count that is present is
    never 0, so [||] only replaces [undefined]. *)
Definition buildFrequencyMap (data : string) (this : t) (σ : Store) : Store :=
  let lf := frequencies this in
  let σ := freq_write lf (JsMap.clear (freq_read lf σ)) σ in
  foldl (λ σ char,
           let m := freq_read lf σ in
           freq_write lf
             (JsMap.set char (default 0 (JsMap.get char m) + 1) m) σ)
        σ (chars data).

(** [while (heap.size() > 1)]: each round removes two nodes and adds one,
    so [length heap] rounds are enough. *)
Fixpoint merge_loop (fuel : nat) (heap : list node)
  : completion (list node) :=
  match fuel with
  | 0 => Normal heap
  | S fuel' =>
      if decide (1 < MinHeap.size heap) then
        '(l, heap) ← MinHeap.extractMin heap;
        '(r, heap) ← MinHeap.extractMin heap;
        ln ← deref l;
        rn ← deref r;
        let parent := Build None (frequency ln + frequency rn)
                            (Some ln) (Some rn) in
        heap ← MinHeap.insert heap parent;
        merge_loop fuel' heap
      else Normal heap
  end.

Definition buildHuffmanTree (this : t) (σ : Store) : completion t :=
  heap ← for_of (λ heap '(char, freq),
                   MinHeap.insert heap (HuffmanNode.new (Some char) freq))
                MinHeap.new (freq_read (frequencies this) σ);
  heap ← merge_loop (length heap) heap;
  '(r, _) ← MinHeap.extractMin heap;
  Normal (set_root r this).

(** [code || '0'] *)
Definition code_or_0 (code : string) : string :=
  if decide (code = "") then "0" else code.

Fixpoint generateCodes_node (n : node) (code : string) (lc : loc)
  (σ : Store) : Store :=
  match n with
  | Build c _ None None =>
      code_write lc (JsMap.set c (code_or_0 code) (code_read lc σ)) σ
  | Build _ _ l r =>
      let σ := match l with
               | Some ln => generateCodes_node ln (code +:+ "0") lc σ
               | None => σ
               end in
      match r with
      | Some rn => generateCodes_node rn (code +:+ "1") lc σ
      | None => σ
      end
  end.

(** [generateCodes(node = this.root, code = '')]; [if (!node) return]. *)
Definition generateCodes (n : option node) (code : string) (this : t)
  (σ : Store) : Store :=
  match n with
  | None => σ
  | Some n => generateCodes_node n code (codes this) σ
  end.

Definition encode (data : string) (this : t) (σ : Store) : string :=
  foldl (λ encoded char,
           encoded +:+
           code_to_string (JsMap.get (Some char) (code_read (codes this) σ)))
        "" (chars data).

Definition decode_step (this : t) (st : string * option node) (bit : ascii)
  : completion (string * option node) :=
  let '(decoded, current) := st in
  cur ← deref current;
  let current := if decide (bit = "0"%char) then left cur else right cur in
  c ← deref current;
  if isLeaf c then Normal (decoded +:+ char_to_string (char c), root this)
  else Normal (decoded, current).

Definition decode (encoded : string) (this : t) : completion string :=
  '(decoded, _) ← for_of (decode_step this) ("", root this) (chars encoded);
  Normal decoded.

(** The two statistics [compressionRatio] and [spaceSaved] are
    floating-point text and are left out of the result. *)
Definition compress (data : string) (this : t) (σ : Store)
  : completion (outcome * t * Store) :=
  if decide (data = "") then
    Normal (Failure "No data to compress", this, σ)
  else
    let σ := buildFrequencyMap data this σ in
    this ← buildHuffmanTree this σ;
    let σ := code_write (codes this)
               (JsMap.clear (code_read (codes this) σ)) σ in
    let σ := generateCodes (root this) "" this σ in
    let encoded := encode data this σ in
    let originalBits := String.length data * 8 in
    let compressedBits := String.length encoded in
    let '(lf, σ) := freq_copy (frequencies this) σ in
    let '(lc, σ) := code_copy (codes this) σ in
    Normal (Success {| Result.original := data;
                       Result.encoded := encoded;
                       Result.originalBits := originalBits;
                       Result.compressedBits := compressedBits;
                       Result.frequencies := lf;
                       Result.codes := lc;
                       Result.tree := root this |},
            this, σ).
End HuffmanCoding.

(** ** The controller HuffmanUI

    Of the controller, the parts that compute are embedded: the colour
    quantisation, the search for a target size and the [compress] handler.
    What they exchange with the page is a parameter or an event: the text
    of the input field, the size of the PNG that the canvas produces, the
    alerts, and the rendering of a result. *)

(** [String.prototype.trim] on Latin-1 text: the white space and line
    terminators below U+0100 are TAB, LF, VT, FF, CR, SPACE and NBSP. *)
Definition is_white_space (c : ascii) : bool :=
  bool_decide (nat_of_ascii c ∈ [9; 10; 11; 12; 13; 32; 160]).

Fixpoint trim_start (s : string) : string :=
  match s with
  | String c s' => if is_white_space c then trim_start s' else s
  | EmptyString => EmptyString
  end.

Fixpoint trim_end (s : string) : string :=
  match s with
  | EmptyString => EmptyString
  | String c s' =>
      match trim_end s' with
      | EmptyString =>
          if is_white_space c then EmptyString else String c EmptyString
      | t => String c t
      end
  end.

Definition trim (s : string) : string := trim_end (trim_start s).

(** [String(n)] for a whole number that is not negative. *)
Definition number_to_string (n : nat) : string :=
  DecimalString.NilZero.string_of_uint (Nat.to_uint n).

Module HuffmanUI.

(** [Math.floor(v / step) * step] with [levels = Math.pow(2, bits)] and
    [step = 256 / levels], for a byte [v] of a [Uint8ClampedArray].
    Up to 8 bits [step] is a whole number. Above, [step] is the fraction
    [1 / 2^(bits - 8)], [v / step] is whole and the byte is written back;
    from 1024 bits on, [levels] is [Infinity], [step] is 0, and the [NaN]
    that results is stored as 0. *)
Definition quantize (bits : nat) (v : nat) : nat :=
  if decide (bits ≤ 8) then
    let levels := 2 ^ bits in
    let step := 256 / levels in
    v / step * step
  else if decide (bits < 1024) then v
  else 0.

(** The loop [for (i = 0; i < data.length; i += 4)]: three channels are
    written, the fourth (alpha) is kept; a write past the end of the typed
    array does nothing. *)
Fixpoint reduce_loop (bits : nat) (data : list nat) : list nat :=
  match data with
  | r :: g :: b :: a :: rest =>
      quantize bits r :: quantize bits g :: quantize bits b :: a
      :: reduce_loop bits rest
  | _ => quantize bits <$> data
  end.

(** [imageData.data] after the call. *)
Definition reduceColorDepth (imageData : list nat) (bits : nat) : list nat :=
  reduce_loop bits imageData.

(** [Array.from(reducedData.data).join(',')]: the text that [processImage]
    stores in [imageDataString]. *)
Definition join_data (data : list nat) : string :=
  String.concat "," (number_to_string <$> data).

(** The part of the state of a [HuffmanUI] object that [compress] reads or
    writes: [textInput] is [textInput.value], [imageDataString] is [None]
    while it is [undefined] or [null], [downloadDisabled] is
    [downloadBtn.disabled]. *)
Record t : Type := {
  huffman : HuffmanCoding.t;
  currentMode : string;
  currentResult : option Result.t;
  textInput : string;
  imageDataString : option string;
  downloadDisabled : bool
}.

(** What the user sees of a call of [compress]: one of the three alerts, or
    the statistics and visualisations of a result ([updateStats] and
    [visualizeResult]). *)
Inductive event : Type :=
| AlertEnterText
| AlertUploadImage
| AlertError (message : string)
| Shown (result : Result.t).

Definition compress (ui : t) (σ : Store) : completion (event * t * Store) :=
  let data :=
    if decide (currentMode ui = "text") then
      let data := trim (textInput ui) in
      if decide (data = "") then inl AlertEnterText else inr data
    else
      match imageDataString ui with
      | None => inl AlertUploadImage
      | Some s =>
          if decide (s = "") then inl AlertUploadImage
          else inr (String.substring 0 1000 s)
      end in
  match data with
  | inl alert => Normal (alert, ui, σ)
  | inr data =>
      '(result, huffman, σ) ← HuffmanCoding.compress data (huffman ui) σ;
      let ui := {| huffman := huffman;
                   currentMode := currentMode ui;
                   currentResult := currentResult ui;
                   textInput := textInput ui;
                   imageDataString := imageDataString ui;
                   downloadDisabled := downloadDisabled ui |} in
      match result with
      | Success r =>
          Normal (Shown r,
                  {| huffman := huffman;
                     currentMode := currentMode ui;
                     currentResult := Some r;
                     textInput := textInput ui;
                     imageDataString := imageDataString ui;
                     downloadDisabled := false |},
                  σ)
      | Failure error => Normal (AlertError ("Error: " +:+ error), ui, σ)
      end
  end.








End HuffmanUI.

(** * Specification vocabulary *)

(** ** Heap order *)

Section HeapSpec.
Import HuffmanNode.

(** The frequency stored at an index (0 outside the array). *)
Definition fr (h : list node) (i : nat) : nat :=
  from_option frequency 0 (h !! i).

(** Every node's frequency is at most the frequency of each of its
    children, which sit at indices [2i+1] and [2i+2]. *)
Definition heap_ordered (h : list node) : Prop :=
  ∀ i x c, h !! i = Some x →
           h !! (2 * i + 1) = Some c ∨ h !! (2 * i + 2) = Some c →
           frequency x ≤ frequency c.

(** The same order, read from the child: a non-root index is not below its
    parent. *)
Definition ordered_at (h : list node) (i : nat) : Prop :=
  0 < i < length h → fr h ((i - 1) / 2) ≤ fr h i.

(** What [bubbleUp] may assume at index [k]: only the link from [k] to its
    parent can be broken, and the children of [k] are not below the parent
    of [k]. *)
Definition up_inv (h : list node) (k : nat) : Prop :=
  (∀ i, i ≠ k → ordered_at h i) ∧
  (∀ c, 0 < k → c < length h → 0 < c → (c - 1) / 2 = k →
        fr h ((k - 1) / 2) ≤ fr h c).

(** What [bubbleDown] may assume at index [k]: only the links from [k] to
    its children can be broken, and the children of [k] are not below the
    parent of [k]. *)
Definition down_inv (h : list node) (k : nat) : Prop :=
  (∀ i, (i - 1) / 2 ≠ k → ordered_at h i) ∧
  (∀ c, 0 < k → c < length h → 0 < c → (c - 1) / 2 = k →
        fr h ((k - 1) / 2) ≤ fr h c).
End HeapSpec.

(** The index that [bubbleDown] keeps after comparing the child [c] with the
    current candidate [s]. *)
Definition pick_child (h : list node) (c s : nat) : nat :=
  if decide (c < length h)
  then if decide (fr h c < fr h s) then c else s else s.

(** ** Sequences of heap operations *)

Inductive op : Type :=
| Insert (n : node)
| ExtractMin.

Definition run_op (st : list node * list node) (o : op)
  : completion (list node * list node) :=
  let '(outs, h) := st in
  match o with
  | Insert n => h' ← MinHeap.insert h n; Normal (outs, h')
  | ExtractMin =>
      '(r, h') ← MinHeap.extractMin h;
      Normal (match r with Some m => outs ++ [m] | None => outs end, h')
  end.

Definition run (ops : list op) : completion (list node * list node) :=
  for_of run_op ([], MinHeap.new) ops.

Definition inserted (ops : list op) : list node :=
  omap (λ o, match o with Insert n => Some n | ExtractMin => None end) ops.

(** ** Frequency tables and trees *)

Section TreeSpec.
Import HuffmanNode.

(** One round of the counting loop, on the entries of the map. *)
Definition count_step (m : list (ascii * nat)) (c : ascii)
  : list (ascii * nat) :=
  JsMap.set c (default 0 (JsMap.get c m) + 1) m.

(** The number of distinct symbols of an input. *)
Definition distinct (data : string) : nat :=
  length (remove_dups (chars data)).

(** The leaves of a tree from left to right, each with its symbol and
    weight. *)
Fixpoint leaves (n : node) : list (option ascii * nat) :=
  match n with
  | Build c f None None => [(c, f)]
  | Build _ _ l r =>
      match l with Some ln => leaves ln | None => [] end ++
      match r with Some rn => leaves rn | None => [] end
  end.

(** The number of nodes that are not leaves. *)
Fixpoint internal_count (n : node) : nat :=
  match n with
  | Build _ _ None None => 0
  | Build _ _ l r =>
      S (match l with Some ln => internal_count ln | None => 0 end +
         match r with Some rn => internal_count rn | None => 0 end)
  end.

(** Every node that is not a leaf has both children, and its weight is the
    sum of theirs. *)
Fixpoint full (n : node) : bool :=
  match n with
  | Build _ _ None None => true
  | Build _ f (Some ln) (Some rn) =>
      bool_decide (f = frequency ln + frequency rn) && full ln && full rn
  | _ => false
  end.

(** The leaf node made for an entry of the frequency table. *)
Definition leaf_of (e : ascii * nat) : node :=
  HuffmanNode.new (Some e.1) e.2.
End TreeSpec.

(** ** Code tables *)

Section CodeSpec.
Import HuffmanNode.

(** The path from a node to each of its leaves, left to right: ["0"] for a
    step to the left child and ["1"] for a step to the right child. *)
Fixpoint paths (n : node) : list (option ascii * string) :=
  match n with
  | Build c _ None None => [(c, "")]
  | Build _ _ l r =>
      match l with
      | Some ln => (λ e, (e.1, String "0" e.2)) <$> paths ln
      | None => []
      end ++
      match r with
      | Some rn => (λ e, (e.1, String "1" e.2)) <$> paths rn
      | None => []
      end
  end.

(** The entries that [generateCodes(n, code)] writes, in order. *)
Definition code_entries (code : string) (n : node)
  : list (option ascii * string) :=
  (λ e, (e.1, HuffmanCoding.code_or_0 (code +:+ e.2))) <$> paths n.

(** A sequence of [Map.set] calls. *)
Definition set_all (m es : list (option ascii * string))
  : list (option ascii * string) :=
  foldl (λ m e, JsMap.set e.1 e.2 m) m es.

(** The code table of a tree: what [generateCodes()] leaves in a cleared
    map. *)
Definition code_table (n : node) : list (option ascii * string) :=
  set_all [] (code_entries "" n).

(** [encode] as a function of the entries of [this.codes]. *)
Definition encode_with (table : list (option ascii * string))
  (data : string) : string :=
  foldl (λ encoded char,
           encoded +:+ code_to_string (JsMap.get (Some char) table))
        "" (chars data).

(** [buildHuffmanTree] as a function of the entries of
    [this.frequencies]. *)
Definition tree_of (entries : list (ascii * nat))
  : completion (option node) :=
  heap ← for_of (λ heap '(char, freq),
                   MinHeap.insert heap (HuffmanNode.new (Some char) freq))
                MinHeap.new entries;
  heap ← HuffmanCoding.merge_loop (length heap) heap;
  '(r, _) ← MinHeap.extractMin heap;
  Normal r.

(** The frequency table of an input. *)
Definition freq_of (data : string) : list (ascii * nat) :=
  foldl count_step [] (chars data).
End CodeSpec.

(** ** Decoding and the state after a call *)

(** The decoding loop: the text decoded so far and the cursor after all of
    [encoded] has been read. *)
Definition decode_run (encoded : string) (this : HuffmanCoding.t)
  : completion (string * option node) :=
  for_of (HuffmanCoding.decode_step this) ("", HuffmanCoding.root this)
         (chars encoded).

(** The child that a bit selects from the cursor. *)
Definition child (bit : ascii) (current : option node) : option node :=
  cur ← current;
  if decide (bit = "0"%char) then HuffmanNode.left cur
  else HuffmanNode.right cur.

(** The store that a successful [compress] leaves, and the two locations it
    allocates for the maps of its result. *)
Definition store_after (data : string) (t : node) (this : HuffmanCoding.t)
  (σ : Store) : loc * loc * Store :=
  let σ := freq_write (HuffmanCoding.frequencies this) (freq_of data) σ in
  let σ := code_write (HuffmanCoding.codes this) (code_table t) σ in
  let lf := fresh (dom (freqMaps σ)) in
  let σ := freq_write lf (freq_of data) σ in
  let lc := fresh (dom (codeMaps σ)) in
  (lf, lc, code_write lc (code_table t) σ).

(** ** Sample objects *)

(** A freshly constructed [HuffmanCoding] object in an empty store. *)
Definition new_instance : HuffmanCoding.t * Store :=
  HuffmanCoding.new {| freqMaps := ∅; codeMaps := ∅ |}.

(** An object whose tree is the single leaf that [compress] builds for a
    one-symbol input. *)
Definition leaf_instance : HuffmanCoding.t :=
  {| HuffmanCoding.root := Some (HuffmanNode.new (Some "A"%char) 4);
     HuffmanCoding.codes := 0;
     HuffmanCoding.frequencies := 0 |}.

(** A store whose code map 0 knows the symbol A only. *)
Definition a_only_store : Store :=
  code_write 0 [(Some "A"%char, "0")] {| freqMaps := ∅; codeMaps := ∅ |}.

(** An object with a foreign tree: the root has the leaf A on the left and
    no child on the right. *)
Definition lopsided_instance : HuffmanCoding.t :=
  {| HuffmanCoding.root :=
       Some (HuffmanNode.Build None 1
               (Some (HuffmanNode.new (Some "A"%char) 1)) None);
     HuffmanCoding.codes := 0;
     HuffmanCoding.frequencies := 0 |}.

(** An object whose tree has the two leaves A and B. *)
Definition two_leaf_instance : HuffmanCoding.t :=
  {| HuffmanCoding.root :=
       Some (HuffmanNode.Build None 2
               (Some (HuffmanNode.new (Some "A"%char) 1))
               (Some (HuffmanNode.new (Some "B"%char) 1)));
     HuffmanCoding.codes := 0;
     HuffmanCoding.frequencies := 0 |}.

(** ** Counts and code lengths *)

(** The number of times a symbol occurs. *)
Definition occurrences (c : ascii) (l : list ascii) : nat :=
  length (filter (λ x, x = c) l).

(** The entry of a frequency table for a count: none for 0. *)
Definition count_entry (n : nat) : option nat :=
  if decide (n = 0) then None else Some n.

(** A text of binary digits. *)
Definition is_bit (b : ascii) : Prop := b = "0"%char ∨ b = "1"%char.
Definition binary (s : string) : Prop := Forall is_bit (chars s).

(** The number of bits that a table spends on a symbol. *)
Definition code_length (table : list (option ascii * string)) (c : ascii)
  : nat :=
  String.length (code_to_string (JsMap.get (Some c) table)).

(** ** Sequences of calls *)

(** A sequence of [compress] calls on one object; the results are dropped. *)
Definition compress_all (inputs : list string)
  (st : HuffmanCoding.t * Store) : completion (HuffmanCoding.t * Store) :=
  for_of (λ '(this, σ) data,
            '(_, this, σ) ← HuffmanCoding.compress data this σ;
            Normal (this, σ))
         st inputs.

(** The operations that insert the nodes [ns] and then extract as many. *)
Definition sort_ops (ns : list node) : list op :=
  (Insert <$> ns) ++ replicate (length ns) ExtractMin.

(** ** Code trees and prefix-free codes *)

(** The depths of the leaves of a binary tree in which every node has two
    children or none, in any order: a single root, or such a tree with one
    leaf replaced by a node with two leaves. *)
Inductive leaf_depths : list nat → Prop :=
| leaf_depths_root : leaf_depths [0]
| leaf_depths_split d ds :
    leaf_depths (d :: ds) → leaf_depths (S d :: S d :: ds)
| leaf_depths_perm ds ds' :
    ds ≡ₚ ds' → leaf_depths ds → leaf_depths ds'.

(** The weighted length of an assignment of depths to weights. *)
Definition cost (ps : list (nat * nat)) : nat :=
  sum_list_with (λ e, e.1 * e.2) ps.

Section PathLength.
Import HuffmanNode.

(** The weighted path length of a tree: the sum, over its leaves, of the
    weight of the leaf times its depth. *)
Fixpoint weighted_depth (n : node) : nat :=
  match n with
  | Build _ _ None None => 0
  | Build _ _ l r =>
      match l with
      | Some ln => weighted_depth ln + sum_list (leaves ln).*2
      | None => 0
      end +
      match r with
      | Some rn => weighted_depth rn + sum_list (leaves rn).*2
      | None => 0
      end
  end.
End PathLength.

(** No text of the list is a prefix of a text at another position. *)
Fixpoint prefix_free (ss : list string) : Prop :=
  match ss with
  | [] => True
  | s :: ss =>
      Forall (λ s', String.prefix s s' = false ∧ String.prefix s' s = false)
             ss ∧
      prefix_free ss
  end.

(** The codes that start with the bit [b], without that bit. *)
Definition strip (b : ascii) (qs : list (nat * string))
  : list (nat * string) :=
  omap (λ e, match e.2 with
             | String b' s' => if decide (b' = b) then Some (e.1, s') else None
             | EmptyString => None
             end) qs.

(** The weighted length of a list of weights with their codes. *)
Definition code_cost (qs : list (nat * string)) : nat :=
  sum_list_with (λ e, e.1 * String.length e.2) qs.

(** The fixed-length code that the statistics compare with: the eight bits
    of the character, the highest first. *)
Definition bit_char (b : bool) : ascii := if b then "1"%char else "0"%char.
Definition fixed_code (c : ascii) : string :=
  let '(Ascii b0 b1 b2 b3 b4 b5 b6 b7) := c in
  String (bit_char b7) (String (bit_char b6) (String (bit_char b5)
  (String (bit_char b4) (String (bit_char b3) (String (bit_char b2)
  (String (bit_char b1) (String (bit_char b0) EmptyString))))))).

(** A code with the texts of two symbols exchanged. *)
Definition swap_code (code : ascii → string) (a b : ascii) (c : ascii)
  : string :=
  if decide (c = a) then code b
  else if decide (c = b) then code a
  else code c.

(** ** The text of an image *)

(** The characters of the text of an image. *)
Definition image_alphabet : list ascii := chars "0123456789,".

(** A controller in image mode that holds the text of one pixel. *)
Definition image_ui : HuffmanUI.t :=
  {| HuffmanUI.huffman := new_instance.1;
     HuffmanUI.currentMode := "image";
     HuffmanUI.currentResult := None;
     HuffmanUI.textInput := "";
     HuffmanUI.imageDataString := Some (HuffmanUI.join_data [200; 12; 255; 77]);
     HuffmanUI.downloadDisabled := true |}.

(** ** The search for a target size *)


(** * Properties of MinHeap *)

(** One step of a computation in [completion]. *)
Ltac step_bind := cbn [deref mbind completion_bind].

Section HeapFacts.
Import HuffmanNode MinHeap.

Lemma fr_lookup h i x : h !! i = Some x → fr h i = frequency x.
Proof. unfold fr. by intros ->. Qed.

Lemma heap_ordered_iff h : heap_ordered h ↔ ∀ i, ordered_at h i.
Proof.
  split.
  - intros Ho i [Hi Hlen]. unfold fr.
    destruct (lookup_lt_is_Some_2 h i Hlen) as [c Hc].
    destruct (lookup_lt_is_Some_2 h ((i - 1) / 2)) as [x Hx]; [lia|].
    rewrite Hc, Hx. simpl. apply (Ho _ _ _ Hx).
    destruct (Nat.Even_or_Odd i) as [[m ->]|[m ->]].
    + right. rewrite <- Hc. f_equal. lia.
    + left. rewrite <- Hc. f_equal. lia.
  - intros Ho i x c Hx [Hc|Hc].
    + pose proof (lookup_lt_Some _ _ _ Hc).
      specialize (Ho (2 * i + 1)). unfold ordered_at, fr in Ho.
      replace ((2 * i + 1 - 1) / 2) with i in Ho by lia.
      rewrite Hx, Hc in Ho. simpl in Ho. lia.
    + pose proof (lookup_lt_Some _ _ _ Hc).
      specialize (Ho (2 * i + 2)). unfold ordered_at, fr in Ho.
      replace ((2 * i + 2 - 1) / 2) with i in Ho by lia.
      rewrite Hx, Hc in Ho. simpl in Ho. lia.
Qed.

Lemma length_swap h i j : length (swap h i j) = length h.
Proof.
  unfold swap. destruct (h !! i), (h !! j); try done.
  by rewrite !length_insert.
Qed.

Lemma fr_swap h i j k :
  i < length h → j < length h →
  fr (swap h i j) k =
    if decide (k = j) then fr h i else if decide (k = i) then fr h j
    else fr h k.
Proof.
  intros Hi Hj. unfold swap, fr.
  destruct (lookup_lt_is_Some_2 h i Hi) as [x Hx].
  destruct (lookup_lt_is_Some_2 h j Hj) as [y Hy].
  rewrite Hx, Hy.
  destruct (decide (k = j)) as [->|Hkj].
  - rewrite list_lookup_insert_eq; [done|by rewrite length_insert].
  - rewrite list_lookup_insert_ne by done.
    destruct (decide (k = i)) as [->|Hki].
    + by rewrite list_lookup_insert_eq.
    + by rewrite list_lookup_insert_ne.
Qed.

Lemma swap_perm h i j : swap h i j ≡ₚ h.
Proof.
  unfold swap.
  destruct (h !! i) as [x|] eqn:Hx; [|done].
  destruct (h !! j) as [y|] eqn:Hy; [|done].
  destruct (decide (i = j)) as [->|Hij].
  - simplify_eq. rewrite list_insert_insert_eq.
    by rewrite list_insert_id.
  - symmetry. apply Permutation_inj.
    split; [by rewrite !length_insert|].
    exists (λ k, if decide (k = i) then j
                 else if decide (k = j) then i else k).
    split.
    + intros a b. repeat case_decide; lia.
    + intros k. destruct (decide (k = i)) as [->|];
        [|destruct (decide (k = j)) as [->|]].
      * rewrite list_lookup_insert_eq; [done|].
        rewrite length_insert. by eapply lookup_lt_Some.
      * rewrite list_lookup_insert_ne by done.
        rewrite list_lookup_insert_eq; [done|]. by eapply lookup_lt_Some.
      * by rewrite !list_lookup_insert_ne.
Qed.

(** Name the parent of [t] and keep only its defining equations, so that
    [lia] sees equal indices as equal terms. *)
Ltac name_parent t :=
  let p := fresh "p" in
  set (p := (t - 1) / 2) in *;
  assert (t = 0 ∧ p = 0 ∨ t = 2 * p + 1 ∨ t = 2 * p + 2) by lia;
  clearbody p.
Ltac name_parents :=
  repeat match goal with
         | |- context [(?t - 1) / 2] => name_parent t
         | H : context [(?t - 1) / 2] |- _ => name_parent t
         end.
(** Split on equalities between indices first, so that equal indices get
    the same parent name. *)
Ltac heap_cases :=
  repeat match goal with
         | |- context [decide (?a = ?b)] =>
             is_var a; is_var b; destruct (decide (a = b)); [subst|]
         end;
  name_parents; repeat case_decide; subst; lia.

Lemma up_inv_swap h k :
  0 < k < length h → fr h k < fr h ((k - 1) / 2) →
  up_inv h k → up_inv (swap h k ((k - 1) / 2)) ((k - 1) / 2).
Proof.
  intros Hk Hlt [H1 H2]. split.
  - intros i Hi. unfold ordered_at. rewrite length_swap. intros Hr.
    rewrite !fr_swap by lia.
    pose proof (H1 i) as Ha. pose proof (H2 i) as Hb.
    unfold ordered_at in Ha.
    heap_cases.
  - intros c Hpk. rewrite length_swap. intros Hc Hc0 Hpc.
    rewrite !fr_swap by lia.
    pose proof (H1 c) as Ha. pose proof (H1 ((k - 1) / 2)) as Hb.
    unfold ordered_at in Ha, Hb.
    heap_cases.
Qed.

Lemma bubbleUp_loop_spec fuel : ∀ h k,
  k ≤ fuel → k < length h →
  ∃ h', bubbleUp_loop fuel h k = Normal h' ∧ h' ≡ₚ h ∧
        (up_inv h k → ∀ i, ordered_at h' i).
Proof.
  induction fuel as [|fuel IH]; intros h k Hf Hk; cbn [bubbleUp_loop].
  - exists h. split_and!; [done..|]. intros [H1 _] i.
    destruct (decide (i = k)) as [->|]; [|by apply H1].
    unfold ordered_at. lia.
  - case_decide as Hk0.
    + destruct (lookup_lt_is_Some_2 h k Hk) as [x Hx].
      destruct (lookup_lt_is_Some_2 h ((k - 1) / 2)) as [p Hp]; [lia|].
      rewrite Hx. step_bind. rewrite Hp. step_bind. case_decide as Hle.
      * exists h. split_and!; [done..|]. intros [H1 _] i.
        destruct (decide (i = k)) as [->|]; [|by apply H1].
        intros _. by rewrite (fr_lookup _ _ _ Hx), (fr_lookup _ _ _ Hp).
      * destruct (IH (swap h k ((k - 1) / 2)) ((k - 1) / 2))
          as (h' & Hrun & Hperm & Hord); [lia|rewrite length_swap; lia|].
        exists h'. split_and!; [done|by rewrite Hperm, swap_perm|].
        intros Hinv. apply Hord, up_inv_swap; [lia| |done].
        rewrite (fr_lookup _ _ _ Hx), (fr_lookup _ _ _ Hp). lia.
    + exists h. split_and!; [done..|]. intros [H1 _] i.
      destruct (decide (i = k)) as [->|]; [|by apply H1].
      unfold ordered_at. lia.
Qed.

Lemma down_inv_swap h k s :
  s < length h → s = 2 * k + 1 ∨ s = 2 * k + 2 →
  fr h s < fr h k →
  (∀ c, c < length h → c = 2 * k + 1 ∨ c = 2 * k + 2 → fr h s ≤ fr h c) →
  down_inv h k → down_inv (swap h k s) s.
Proof.
  intros Hs Hsk Hlt Hmin [H1 H2]. split.
  - intros i Hi. unfold ordered_at. rewrite length_swap. intros Hr.
    rewrite !fr_swap by lia.
    destruct (decide (i = s)) as [->|His].
    { replace ((s - 1) / 2) with k by lia.
      rewrite (decide_False (P := k = s)), (decide_True (P := k = k)) by lia.
      lia. }
    destruct (decide (i = k)) as [->|Hik].
    { rewrite (decide_False (P := (k - 1) / 2 = s)),
        (decide_False (P := (k - 1) / 2 = k)) by lia.
      apply H2; lia. }
    rewrite (decide_False (P := (i - 1) / 2 = s)) by done.
    destruct (decide ((i - 1) / 2 = k)) as [Hp|Hp].
    { apply Hmin; lia. }
    apply H1; [done|lia].
  - intros c Hpk. rewrite length_swap. intros Hc Hc0 Hpc.
    rewrite !fr_swap by lia.
    pose proof (H1 c) as Ha.
    unfold ordered_at in Ha.
    heap_cases.
Qed.

Lemma pick_child_eq h c s :
  (c < length h → s < length h) →
  (if decide (c < length h) then
     l ← deref (h !! c); x ← deref (h !! s);
     Normal (if decide (frequency l < frequency x) then c else s)
   else Normal s) = Normal (pick_child h c s).
Proof.
  intros Hs. unfold pick_child.
  destruct (decide (c < length h)) as [Hc|]; [|done].
  destruct (lookup_lt_is_Some_2 h c Hc) as [l Hl].
  destruct (lookup_lt_is_Some_2 h s (Hs Hc)) as [x Hx].
  rewrite Hl. step_bind. rewrite Hx. step_bind.
  by rewrite (fr_lookup _ _ _ Hl), (fr_lookup _ _ _ Hx).
Qed.

Lemma bubbleDown_loop_spec fuel : ∀ h k,
  length h - k ≤ fuel →
  ∃ h', bubbleDown_loop fuel h k = Normal h' ∧ h' ≡ₚ h ∧
        (down_inv h k → ∀ i, ordered_at h' i).
Proof.
  induction fuel as [|fuel IH]; intros h k Hf; cbn [bubbleDown_loop].
  - exists h. split_and!; [done..|]. intros [H1 _] i.
    destruct (decide ((i - 1) / 2 = k)) as [Hp|]; [|by apply H1].
    unfold ordered_at. lia.
  - rewrite (pick_child_eq h (2 * k + 1) k) by lia. step_bind.
    set (s1 := pick_child h (2 * k + 1) k).
    assert (Hs1 : s1 = k ∨ s1 = 2 * k + 1 ∧ 2 * k + 1 < length h).
    { unfold s1, pick_child. repeat case_decide; auto. }
    rewrite (pick_child_eq h (2 * k + 2) s1) by lia. step_bind.
    set (s2 := pick_child h (2 * k + 2) s1).
    assert (Hs2 : (s2 = k ∨ s2 = 2 * k + 1 ∨ s2 = 2 * k + 2) ∧
                  (s2 ≠ k → s2 < length h ∧ fr h s2 < fr h k) ∧
                  (∀ c, c < length h → c = 2 * k + 1 ∨ c = 2 * k + 2 →
                        fr h s2 ≤ fr h c)).
    { clear IH Hs1. unfold s2, s1, pick_child.
      repeat case_decide; split_and!; try lia; intros c Hc [->| ->]; lia. }
    destruct Hs2 as (Hs2 & Hs2lt & Hs2min).
    case_decide as Hsk.
    + exists h. split_and!; [done..|]. intros [H1 _] i.
      destruct (decide ((i - 1) / 2 = k)) as [Hp|]; [|by apply H1].
      intros Hi. rewrite Hp. rewrite <- Hsk at 1. apply Hs2min; lia.
    + destruct (Hs2lt Hsk) as [Hlen Hlt].
      destruct (IH (swap h k s2) s2) as (h' & Hrun & Hperm & Hord);
        [rewrite length_swap; lia|].
      exists h'. split_and!; [done|by rewrite Hperm, swap_perm|].
      intros Hinv. apply Hord, down_inv_swap; [done|lia|done..].
Qed.

Lemma bubbleUp_loop_fuel fuel1 : ∀ fuel2 h k,
  k ≤ fuel1 → k ≤ fuel2 →
  bubbleUp_loop fuel1 h k = bubbleUp_loop fuel2 h k.
Proof.
  induction fuel1 as [|fuel1 IH]; intros [|fuel2] h k H1 H2;
    cbn [bubbleUp_loop]; try done.
  - by rewrite decide_False by lia.
  - by rewrite decide_False by lia.
  - case_decide; [|done].
    destruct (h !! k) as [x|]; [|done]. step_bind.
    destruct (h !! ((k - 1) / 2)) as [p|]; [|done]. step_bind.
    case_decide; [done|]. apply IH; lia.
Qed.

(** [bubbleUp] satisfies the equation of its [while] loop. *)
Lemma bubbleUp_unfold h index :
  bubbleUp h index =
  if decide (0 < index) then
    x ← deref (h !! index);
    p ← deref (h !! ((index - 1) / 2));
    if decide (frequency p ≤ frequency x) then Normal h
    else bubbleUp (swap h index ((index - 1) / 2)) ((index - 1) / 2)
  else Normal h.
Proof.
  unfold bubbleUp. destruct index as [|i]; [done|].
  cbn [bubbleUp_loop]. rewrite decide_True by lia.
  destruct (h !! S i) as [x|]; [|done]. step_bind.
  destruct (h !! ((S i - 1) / 2)) as [p|]; [|done]. step_bind.
  case_decide; [done|]. apply bubbleUp_loop_fuel; lia.
Qed.

Lemma bubbleDown_loop_fuel fuel1 : ∀ fuel2 h k,
  length h - k ≤ fuel1 → length h - k ≤ fuel2 →
  bubbleDown_loop fuel1 h k = bubbleDown_loop fuel2 h k.
Proof.
  assert (Hstop : ∀ fuel h k,
    length h ≤ k → bubbleDown_loop fuel h k = Normal h).
  { intros [|fuel] h k Hk; cbn [bubbleDown_loop]; [done|].
    rewrite decide_False by lia. step_bind.
    rewrite decide_False by lia. step_bind. by rewrite decide_True. }
  induction fuel1 as [|fuel1 IH]; intros [|fuel2] h k H1 H2; try done.
  - rewrite !Hstop by lia. done.
  - rewrite !Hstop by lia. done.
  - destruct (decide (k < length h)) as [Hk|Hk];
      [|by rewrite !Hstop by lia].
    cbn [bubbleDown_loop].
    rewrite (pick_child_eq h (2 * k + 1) k) by lia. step_bind.
    assert (pick_child h (2 * k + 1) k < length h) as Hs1.
    { unfold pick_child. repeat case_decide; lia. }
    rewrite (pick_child_eq h (2 * k + 2)) by done. step_bind.
    set (s := pick_child h (2 * k + 2) (pick_child h (2 * k + 1) k)).
    assert (s = k ∨ k < s) as Hs.
    { unfold s, pick_child. repeat case_decide; lia. }
    case_decide; [done|]. apply IH; rewrite length_swap; lia.
Qed.

(** [bubbleDown] satisfies the equation of its [while (true)] loop. *)
Lemma bubbleDown_unfold h index :
  bubbleDown h index =
  smallest ←
    (if decide (2 * index + 1 < length h) then
       l ← deref (h !! (2 * index + 1));
       s ← deref (h !! index);
       Normal (if decide (frequency l < frequency s)
               then 2 * index + 1 else index)
     else Normal index);
  smallest ←
    (if decide (2 * index + 2 < length h) then
       r ← deref (h !! (2 * index + 2));
       s ← deref (h !! smallest);
       Normal (if decide (frequency r < frequency s)
               then 2 * index + 2 else smallest)
     else Normal smallest);
  if decide (smallest = index) then Normal h
  else bubbleDown (swap h index smallest) smallest.
Proof.
  unfold bubbleDown.
  destruct (decide (index < length h)) as [Hk|Hk].
  2:{ replace (length h - index) with 0 by lia. cbn [bubbleDown_loop].
      rewrite decide_False by lia. step_bind.
      rewrite decide_False by lia. step_bind. by rewrite decide_True. }
  destruct (length h - index) as [|fuel] eqn:Hf; [lia|].
  cbn [bubbleDown_loop].
  rewrite (pick_child_eq h (2 * index + 1) index) by lia. step_bind.
  assert (pick_child h (2 * index + 1) index < length h) as Hs1.
  { unfold pick_child. repeat case_decide; lia. }
  rewrite (pick_child_eq h (2 * index + 2)) by done. step_bind.
  set (s := pick_child h (2 * index + 2) (pick_child h (2 * index + 1) index)).
  assert (s = index ∨ index < s) as Hs.
  { unfold s, pick_child. repeat case_decide; lia. }
  case_decide; [done|]. apply bubbleDown_loop_fuel; rewrite length_swap; lia.
Qed.

Lemma fr_app_l h x i : i < length h → fr (h ++ [x]) i = fr h i.
Proof. intros Hi. unfold fr. by rewrite lookup_app_l. Qed.

Lemma insert_spec h n :
  ∃ h', insert h n = Normal h' ∧ h' ≡ₚ n :: h ∧
        (heap_ordered h → heap_ordered h').
Proof.
  unfold insert, bubbleUp.
  destruct (bubbleUp_loop_spec (length (h ++ [n]) - 1) (h ++ [n])
              (length (h ++ [n]) - 1)) as (h' & Hrun & Hperm & Hord);
    [done|rewrite length_app; cbn [length]; lia|].
  exists h'. split_and!; [done|..].
  - rewrite Hperm. by rewrite Permutation_app_comm.
  - intros Ho. apply heap_ordered_iff, Hord.
    rewrite heap_ordered_iff in Ho.
    rewrite length_app. cbn [length].
    replace (length h + 1 - 1) with (length h) by lia. split.
    + intros i Hi. unfold ordered_at. rewrite length_app. cbn [length].
      intros Hr.
      rewrite !fr_app_l by lia. apply Ho. lia.
    + intros c _. rewrite length_app. cbn [length]. lia.
Qed.

Lemma root_minimal h :
  (∀ i, ordered_at h i) → ∀ i, i < length h → fr h 0 ≤ fr h i.
Proof.
  intros Ho i. induction (lt_wf i) as [i _ IH]. intros Hi.
  destruct (decide (i = 0)) as [->|]; [done|].
  etrans; [apply (IH ((i - 1) / 2)); lia|]. apply Ho. lia.
Qed.

Lemma extractMin_nil : extractMin [] = Normal (None, []).
Proof. done. Qed.

Lemma extractMin_spec h :
  h ≠ [] →
  ∃ m h', extractMin h = Normal (Some m, h') ∧ h ≡ₚ m :: h' ∧
          (heap_ordered h →
           heap_ordered h' ∧ Forall (λ x, frequency m ≤ frequency x) h).
Proof.
  intros Hne. destruct h as [|m rest]; [done|].
  assert (Hmin : heap_ordered (m :: rest) →
                 Forall (λ x, frequency m ≤ frequency x) (m :: rest)).
  { intros Ho. apply Forall_lookup. intros i x Hx.
    rewrite heap_ordered_iff in Ho.
    pose proof (root_minimal _ Ho i (lookup_lt_Some _ _ _ Hx)) as Hr.
    by rewrite (fr_lookup _ _ _ Hx) in Hr. }
  destruct (decide (rest = [])) as [->|Hrest].
  { exists m, []. split_and!; [done..|]. intros Ho. split; [|by apply Hmin].
    intros i x c Hx [Hc|Hc]; by destruct i. }
  destruct (exists_last Hrest) as (mid & z & ->).
  assert (Hrun : extractMin (m :: mid ++ [z]) =
                 (heap ← bubbleDown (z :: mid) 0; Normal (Some m, heap))).
  { unfold extractMin, pop.
    change (m :: mid ++ [z]) with ((m :: mid) ++ [z]).
    rewrite last_snoc, removelast_last.
    destruct mid; done. }
  rewrite Hrun. unfold bubbleDown.
  destruct (bubbleDown_loop_spec (length (z :: mid) - 0) (z :: mid) 0)
    as (h' & -> & Hperm & Hord); [done|].
  exists m, h'. step_bind. split_and!; [done|..].
  - by rewrite Hperm, <- Permutation_cons_append.
  - intros Ho. split; [|by apply Hmin].
    apply heap_ordered_iff, Hord.
    rewrite heap_ordered_iff in Ho. split; [|lia].
    intros i Hi Hr. cbn [length] in Hr.
    specialize (Ho i). unfold ordered_at in Ho.
    cbn [length] in Ho. rewrite length_app in Ho. cbn [length] in Ho.
    assert (∀ j, 0 < j < S (length mid) →
                 fr (z :: mid) j = fr (m :: mid ++ [z]) j) as Heq.
    { intros [|j] Hj; [lia|]. unfold fr. simpl.
      by rewrite lookup_app_l by lia. }
    rewrite !Heq by lia. apply Ho. lia.
Qed.

End HeapFacts.

(** * Properties of Map and of the frequency table *)

Section MapFacts.
Context {K V : Type} `{EqDecision K}.
Implicit Types (m : list (K * V)) (k : K) (v : V).

Lemma get_set_eq k v m : JsMap.get k (JsMap.set k v m) = Some v.
Proof.
  induction m as [|[k' v'] m IH]; simpl; [by rewrite decide_True|].
  case_decide; simpl; [by rewrite decide_True|by rewrite decide_False].
Qed.

Lemma get_set_ne k k' v m :
  k ≠ k' → JsMap.get k' (JsMap.set k v m) = JsMap.get k' m.
Proof.
  intros Hne. induction m as [|[k0 v0] m IH]; simpl.
  - by rewrite decide_False.
  - case_decide; simpl; [subst; by rewrite !decide_False|].
    by rewrite IH.
Qed.

Lemma keys_set k v m :
  (JsMap.set k v m).*1 =
    if decide (k ∈ m.*1) then m.*1 else m.*1 ++ [k].
Proof.
  induction m as [|[k' v'] m IH]; cbn [JsMap.set].
  - rewrite decide_False; [done|apply not_elem_of_nil].
  - destruct (decide (k' = k)) as [Hk|Hk]; rewrite !fmap_cons; cbn [fst].
    + subst. rewrite decide_True; [done|by apply elem_of_cons; left].
    + rewrite IH. destruct (decide (k ∈ m.*1)) as [Hin|Hin].
      * rewrite decide_True; [done|by right].
      * rewrite decide_False; [done|]. rewrite not_elem_of_cons. naive_solver.
Qed.

Lemma NoDup_set k v m : NoDup m.*1 → NoDup (JsMap.set k v m).*1.
Proof.
  intros Hm. rewrite keys_set. case_decide as Hk; [done|].
  apply NoDup_app. split_and!; [done| |apply NoDup_singleton].
  intros x Hx ->%list_elem_of_singleton. done.
Qed.

Lemma elem_of_keys_set k k' v m :
  k' ∈ (JsMap.set k v m).*1 ↔ k' = k ∨ k' ∈ m.*1.
Proof.
  rewrite keys_set. case_decide as Hk.
  - naive_solver.
  - rewrite elem_of_app, list_elem_of_singleton. naive_solver.
Qed.
End MapFacts.

Section FrequencyFacts.
Lemma sum_count_step m c :
  sum_list (count_step m c).*2 = sum_list m.*2 + 1.
Proof.
  unfold count_step.
  induction m as [|[k v] m IH]; cbn [JsMap.get JsMap.set]; [done|].
  destruct (decide (k = c)) as [Hk|Hk].
  - rewrite !fmap_cons. simpl. lia.
  - rewrite !fmap_cons. simpl. rewrite IH. lia.
Qed.

Lemma count_fold_spec l : ∀ m,
  NoDup m.*1 →
  let m' := foldl count_step m l in
  NoDup m'.*1 ∧ (∀ c, c ∈ m'.*1 ↔ c ∈ m.*1 ∨ c ∈ l) ∧
  sum_list m'.*2 = sum_list m.*2 + length l.
Proof.
  induction l as [|a l IH]; intros m Hm; simpl.
  - split_and!; [done| |lia]. intros c. rewrite elem_of_nil. naive_solver.
  - destruct (IH (count_step m a)) as (Hnd & Hkeys & Hsum).
    { by apply NoDup_set. }
    split_and!; [done| |].
    + intros c. rewrite Hkeys. unfold count_step.
      rewrite elem_of_keys_set, elem_of_cons. naive_solver.
    + rewrite Hsum, sum_count_step. lia.
Qed.

Lemma count_fold_length data :
  let m := foldl count_step [] (chars data) in
  length m = distinct data.
Proof.
  intros m. destruct (count_fold_spec (chars data) []) as (Hnd & Hkeys & _).
  { apply NoDup_nil_2. }
  fold m in Hnd, Hkeys. unfold distinct.
  rewrite <- (length_fmap fst m). apply Permutation_length.
  apply NoDup_Permutation; [done|apply NoDup_remove_dups|].
  intros c. rewrite Hkeys, elem_of_remove_dups, elem_of_nil. naive_solver.
Qed.
End FrequencyFacts.

(** * Properties of the store and of the tree builder *)

Section StoreFacts.
Lemma freq_read_write l m σ : freq_read l (freq_write l m σ) = m.
Proof. unfold freq_read, freq_write. simpl. by rewrite lookup_insert_eq. Qed.

Lemma freq_write_write l m1 m2 σ :
  freq_write l m2 (freq_write l m1 σ) = freq_write l m2 σ.
Proof. unfold freq_write. simpl. by rewrite insert_insert_eq. Qed.

Lemma code_read_write l m σ : code_read l (code_write l m σ) = m.
Proof. unfold code_read, code_write. simpl. by rewrite lookup_insert_eq. Qed.

Lemma code_write_write l m1 m2 σ :
  code_write l m2 (code_write l m1 σ) = code_write l m2 σ.
Proof. unfold code_write. simpl. by rewrite insert_insert_eq. Qed.

Lemma freq_read_code_write l l' m σ :
  freq_read l (code_write l' m σ) = freq_read l σ.
Proof. done. Qed.

Lemma buildFrequencyMap_eq data this σ :
  HuffmanCoding.buildFrequencyMap data this σ =
  freq_write (HuffmanCoding.frequencies this)
    (foldl count_step [] (chars data)) σ.
Proof.
  unfold HuffmanCoding.buildFrequencyMap, JsMap.clear.
  generalize (@nil (ascii * nat)) as m. generalize (chars data) as l.
  induction l as [|c l IH]; intros m; simpl; [done|].
  by rewrite freq_read_write, freq_write_write, IH.
Qed.
End StoreFacts.

Section TreeFacts.
Import HuffmanNode MinHeap.
Lemma node_ind' (P : node → Prop) :
  (∀ c f l r,
     (∀ ln, l = Some ln → P ln) → (∀ rn, r = Some rn → P rn) →
     P (Build c f l r)) →
  ∀ n, P n.
Proof.
  intros Hstep. fix IH 1. intros [c f l r]. apply Hstep.
  - destruct l as [ln|]; [|intros ? [=]]. intros ? [= <-]. apply IH.
  - destruct r as [rn|]; [|intros ? [=]]. intros ? [= <-]. apply IH.
Qed.

Lemma full_leaf_count n : full n → length (leaves n) = S (internal_count n).
Proof.
  induction n as [c f l r IHl IHr] using node_ind'.
  destruct l as [ln|], r as [rn|]; simpl; try done.
  intros [[_ Hl]%andb_True Hr]%andb_True.
  rewrite length_app, (IHl ln eq_refl Hl), (IHr rn eq_refl Hr). lia.
Qed.

Lemma build_heap_spec entries : ∀ h0,
  ∃ h, for_of (λ heap '(char, freq),
                 insert heap (HuffmanNode.new (Some char) freq)) h0 entries
       = Normal h ∧
       h ≡ₚ (leaf_of <$> entries) ++ h0.
Proof.
  induction entries as [|[c f] entries IH]; intros h0; cbn [for_of].
  - by exists h0.
  - destruct (insert_spec h0 (HuffmanNode.new (Some c) f))
      as (h1 & -> & Hperm & _). step_bind.
    destruct (IH h1) as (h & -> & Hp). exists h. split; [done|].
    rewrite Hp, Hperm, fmap_cons. by rewrite <- Permutation_middle.
Qed.

Lemma merge_loop_spec fuel : ∀ h,
  length h ≤ fuel → Forall full h →
  ∃ h', HuffmanCoding.merge_loop fuel h = Normal h' ∧
        Forall full h' ∧ h' ≫= leaves ≡ₚ h ≫= leaves ∧
        length h' = length h `min` 1.
Proof.
  induction fuel as [|fuel IH]; intros h Hlen Hfull;
    cbn [HuffmanCoding.merge_loop].
  - exists h. split_and!; [done..|]. lia.
  - unfold size. case_decide as Hsz; [|exists h; split_and!; [done..|lia]].
    destruct (extractMin_spec h) as (l & h1 & -> & Hp1 & _).
    { intros ->. simpl in Hsz. lia. }
    step_bind. cbn beta iota.
    pose proof (Permutation_length Hp1) as Hl1. cbn [length] in Hl1.
    destruct (extractMin_spec h1) as (r & h2 & -> & Hp2 & _).
    { intros ->. simpl in Hl1. lia. }
    step_bind. cbn beta iota.
    pose proof (Permutation_length Hp2) as Hl2. cbn [length] in Hl2.
    set (parent := Build None (frequency l + frequency r) (Some l) (Some r)).
    destruct (insert_spec h2 parent) as (h3 & -> & Hp3 & _). step_bind.
    pose proof (Permutation_length Hp3) as Hl3. cbn [length] in Hl3.
    rewrite Hp1, Hp2 in Hfull.
    apply Forall_cons in Hfull as [Hfl Hfull].
    apply Forall_cons in Hfull as [Hfr Hfull].
    destruct (IH h3) as (h' & -> & Hf' & Hlv & Hlen'); [lia| |].
    { rewrite Hp3. apply Forall_cons. split; [|done].
      simpl. rewrite !andb_True.
      split_and!; [by apply bool_decide_pack|done..]. }
    exists h'. split_and!; [done..| |lia].
    rewrite Hlv, Hp3, Hp1, Hp2, !bind_cons. simpl.
    by rewrite (assoc_L (++)).
Qed.

Lemma merge_loop_fuel fuel1 : ∀ fuel2 h,
  length h ≤ fuel1 → length h ≤ fuel2 →
  HuffmanCoding.merge_loop fuel1 h = HuffmanCoding.merge_loop fuel2 h.
Proof.
  induction fuel1 as [|fuel1 IH]; intros [|fuel2] h H1 H2;
    cbn [HuffmanCoding.merge_loop]; unfold size; try done.
  - by rewrite decide_False by lia.
  - by rewrite decide_False by lia.
  - case_decide as Hsz; [|done].
    destruct (extractMin_spec h) as (l & h1 & -> & Hp1 & _).
    { intros ->. simpl in Hsz. lia. }
    step_bind. cbn beta iota.
    pose proof (Permutation_length Hp1) as Hl1. cbn [length] in Hl1.
    destruct (extractMin_spec h1) as (r & h2 & -> & Hp2 & _).
    { intros ->. simpl in Hl1. lia. }
    step_bind. cbn beta iota.
    pose proof (Permutation_length Hp2) as Hl2. cbn [length] in Hl2.
    destruct (insert_spec h2 (Build None (frequency l + frequency r)
                                (Some l) (Some r))) as (h3 & -> & Hp3 & _).
    step_bind.
    pose proof (Permutation_length Hp3) as Hl3. cbn [length] in Hl3.
    apply IH; lia.
Qed.

(** The merging loop of [buildHuffmanTree] satisfies the equation of its
    [while] loop. *)
Lemma merge_loop_unfold h :
  HuffmanCoding.merge_loop (length h) h =
  if decide (1 < size h) then
    '(l, heap) ← extractMin h;
    '(r, heap) ← extractMin heap;
    ln ← deref l;
    rn ← deref r;
    heap ← insert heap (Build None (frequency ln + frequency rn)
                          (Some ln) (Some rn));
    HuffmanCoding.merge_loop (length heap) heap
  else Normal h.
Proof.
  unfold size. destruct (length h) as [|n] eqn:Hn.
  { by rewrite decide_False by lia. }
  cbn [HuffmanCoding.merge_loop]. unfold size. rewrite Hn.
  case_decide as Hsz; [|done].
  destruct (extractMin_spec h) as (l & h1 & -> & Hp1 & _).
  { intros ->. done. }
  step_bind. cbn beta iota.
  pose proof (Permutation_length Hp1) as Hl1. cbn [length] in Hl1.
  destruct (extractMin_spec h1) as (r & h2 & -> & Hp2 & _).
  { intros ->. simpl in Hl1. lia. }
  step_bind. cbn beta iota.
  pose proof (Permutation_length Hp2) as Hl2. cbn [length] in Hl2.
  destruct (insert_spec h2 (Build None (frequency l + frequency r)
                              (Some l) (Some r))) as (h3 & -> & Hp3 & _).
  step_bind.
  pose proof (Permutation_length Hp3) as Hl3. cbn [length] in Hl3.
  apply merge_loop_fuel; lia.
Qed.

Lemma full_leaf_of e : full (leaf_of e).
Proof. done. Qed.

Lemma leaves_leaf_of (entries : list (ascii * nat)) :
  (leaf_of <$> entries) ≫= leaves = (λ e, (Some e.1, e.2)) <$> entries.
Proof.
  induction entries as [|e entries IH]; [done|].
  rewrite !fmap_cons, bind_cons, IH. done.
Qed.

Lemma tree_of_spec entries :
  entries ≠ [] →
  ∃ t, tree_of entries = Normal (Some t) ∧
       full t ∧ leaves t ≡ₚ (λ e, (Some e.1, e.2)) <$> entries.
Proof.
  intros Hne. unfold tree_of.
  destruct (build_heap_spec entries MinHeap.new) as (h & -> & Hp). step_bind.
  rewrite app_nil_r in Hp.
  destruct (merge_loop_spec (length h) h) as (h' & -> & Hf & Hlv & Hlen);
    [done| |].
  { rewrite Hp. apply Forall_fmap, Forall_true. intros e. apply full_leaf_of. }
  step_bind.
  assert (length h = length entries) as Hlh.
  { by rewrite Hp, length_fmap. }
  destruct h' as [|t [|??]]; simpl in Hlen.
  - destruct entries; [done|simpl in Hlh; lia].
  - exists t. cbn. split_and!; [done|exact (Forall_inv Hf)|].
    rewrite <- leaves_leaf_of, <- Hp, <- Hlv.
    by rewrite bind_cons, app_nil_r.
  - lia.
Qed.

Lemma buildHuffmanTree_eq this σ :
  HuffmanCoding.buildHuffmanTree this σ =
  r ← tree_of (freq_read (HuffmanCoding.frequencies this) σ);
  Normal (HuffmanCoding.set_root r this).
Proof.
  unfold HuffmanCoding.buildHuffmanTree, tree_of.
  destruct (for_of _ _ _) as [h|]; [|done]. step_bind.
  destruct (HuffmanCoding.merge_loop _ _) as [h'|]; [|done]. step_bind.
  by destruct (extractMin h') as [[r ?]|].
Qed.
End TreeFacts.

(** * Properties of strings and of the code table *)

Section StringFacts.
Lemma append_cons x (a b : string) : String x a +:+ b = String x (a +:+ b).
Proof. reflexivity. Qed.

Lemma append_assoc (a b c : string) : (a +:+ b) +:+ c = a +:+ (b +:+ c).
Proof.
  induction a as [|x a IH]; [done|]. by rewrite !append_cons, IH.
Qed.

Lemma append_empty_r (a : string) : a +:+ "" = a.
Proof. induction a as [|x a IH]; [done|]. by rewrite append_cons, IH. Qed.

Lemma chars_append (a b : string) : chars (a +:+ b) = chars a ++ chars b.
Proof.
  unfold chars. induction a as [|x a IH]; [done|].
  rewrite append_cons. cbn [String.list_ascii_of_string]. by rewrite IH.
Qed.

Lemma prefix_cons x y (a b : string) :
  String.prefix (String x a) (String y b) =
  if decide (x = y) then String.prefix a b else false.
Proof.
  cbn [String.prefix]. destruct (ascii_dec x y), (decide (x = y)); done.
Qed.
End StringFacts.

Section CodeFacts.
Import HuffmanNode.

Lemma code_entries_child code b n :
  (λ e, (e.1, HuffmanCoding.code_or_0 (code +:+ e.2))) <$>
    ((λ e, (e.1, String b e.2)) <$> paths n) =
  code_entries (code +:+ String b "") n.
Proof.
  unfold code_entries. rewrite <- list_fmap_compose.
  apply list_fmap_ext. intros i [c p] _. simpl.
  by rewrite append_assoc.
Qed.

Lemma generateCodes_node_eq lc n : ∀ code m σ,
  HuffmanCoding.generateCodes_node n code lc (code_write lc m σ) =
  code_write lc (set_all m (code_entries code n)) σ.
Proof.
  induction n as [c f l r IHl IHr] using node_ind'. intros code m σ.
  destruct l as [ln|], r as [rn|];
    cbn [HuffmanCoding.generateCodes_node]; unfold code_entries;
    cbn [paths].
  - rewrite (IHl ln eq_refl), (IHr rn eq_refl). f_equal.
    rewrite fmap_app, !code_entries_child. unfold set_all.
    by rewrite foldl_app.
  - rewrite (IHl ln eq_refl). f_equal.
    by rewrite app_nil_r, code_entries_child.
  - rewrite (IHr rn eq_refl). f_equal.
    by rewrite app_nil_l, code_entries_child.
  - simpl. by rewrite code_read_write, code_write_write, append_empty_r.
Qed.
End CodeFacts.

Section TableFacts.
Import HuffmanNode.

Lemma get_set_all_Some k v es : ∀ m,
  JsMap.get k (set_all m es) = Some v → (k, v) ∈ es ∨ JsMap.get k m = Some v.
Proof.
  induction es as [|[k' v'] es IH]; intros m; cbn [set_all foldl]; [by right|].
  intros [Hin|Hget]%IH; [left; by right|].
  cbn [fst snd] in Hget. destruct (decide (k' = k)) as [->|Hne].
  - rewrite get_set_eq in Hget. injection Hget as ->. left. by left.
  - rewrite get_set_ne in Hget by done. by right.
Qed.

Lemma get_set_all_is_Some k es : ∀ m,
  k ∈ es.*1 ∨ is_Some (JsMap.get k m) → is_Some (JsMap.get k (set_all m es)).
Proof.
  induction es as [|[k' v'] es IH]; intros m; cbn [set_all foldl].
  - intros [Hin|Hm]; [by apply elem_of_nil in Hin|done].
  - intros Hk. apply IH. cbn [fst snd].
    destruct (decide (k' = k)) as [->|Hne].
    + right. by rewrite get_set_eq.
    + rewrite get_set_ne by done.
      destruct Hk as [Hk|Hk]; [|by right].
      rewrite fmap_cons in Hk. apply elem_of_cons in Hk as [Hk|Hk]; [done|].
      by left.
Qed.

Lemma paths_cases n :
  isLeaf n = true ∧ paths n = [(char n, "")] ∨
  isLeaf n = false ∧ Forall (λ e, e.2 ≠ "") (paths n).
Proof.
  destruct n as [c f [ln|] [rn|]]; [right..|by left]; (split; [done|]);
    cbn [paths]; rewrite ?Forall_app, ?Forall_fmap; split_and?;
    try apply Forall_nil_2; by apply Forall_true.
Qed.

Lemma paths_prefix_free n : ∀ i j e1 e2,
  paths n !! i = Some e1 → paths n !! j = Some e2 → i ≠ j →
  String.prefix e1.2 e2.2 = false.
Proof.
  induction n as [c f l r IHl IHr] using node_ind'.
  assert (Hside : ∀ b o i j e1 e2,
    (∀ n', o = Some n' → ∀ i j e1 e2,
       paths n' !! i = Some e1 → paths n' !! j = Some e2 → i ≠ j →
       String.prefix e1.2 e2.2 = false) →
    match o with
    | Some n' => (λ e, (e.1, String b e.2)) <$> paths n'
    | None => []
    end !! i = Some e1 →
    match o with
    | Some n' => (λ e, (e.1, String b e.2)) <$> paths n'
    | None => []
    end !! j = Some e2 →
    i ≠ j → String.prefix e1.2 e2.2 = false).
  { intros b [n'|] i j e1 e2 IH; [|done].
    rewrite !list_lookup_fmap.
    destruct (paths n' !! i) as [a1|] eqn:H1; [|done].
    destruct (paths n' !! j) as [a2|] eqn:H2; [|done].
    intros [= <-] [= <-] Hij. cbn [snd].
    rewrite prefix_cons, decide_True by done. by eapply (IH n'). }
  assert (Hhead : ∀ b (o : option node) i e,
    match o with
    | Some n' => (λ e, (e.1, String b e.2)) <$> paths n'
    | None => []
    end !! i = Some e → ∃ p, e.2 = String b p).
  { intros b [n'|] i e; [|done]. rewrite list_lookup_fmap.
    destruct (paths n' !! i) as [a|]; [|done]. intros [= <-]. by eexists. }
  intros i j e1 e2.
  destruct (decide (l = None ∧ r = None)) as [[-> ->]|Hint].
  { cbn [paths]. destruct i, j; done. }
  assert (paths (Build c f l r) =
          match l with
          | Some ln => (λ e, (e.1, String "0" e.2)) <$> paths ln
          | None => []
          end ++
          match r with
          | Some rn => (λ e, (e.1, String "1" e.2)) <$> paths rn
          | None => []
          end) as ->.
  { destruct l, r; try done. by destruct Hint. }
  intros H1 H2 Hij.
  apply lookup_app_Some in H1 as [H1|[Hi H1]];
    apply lookup_app_Some in H2 as [H2|[Hj H2]].
  - by eapply (Hside "0"%char l).
  - destruct (Hhead _ _ _ _ H1) as [p1 ->], (Hhead _ _ _ _ H2) as [p2 ->].
    by rewrite prefix_cons, decide_False.
  - destruct (Hhead _ _ _ _ H1) as [p1 ->], (Hhead _ _ _ _ H2) as [p2 ->].
    by rewrite prefix_cons, decide_False.
  - eapply (Hside "1"%char r); [done..|lia].
Qed.

Lemma code_entries_root n :
  code_entries "" n =
    if isLeaf n then [(char n, "0")] else paths n.
Proof.
  unfold code_entries.
  destruct (paths_cases n) as [[-> ->]|[-> Hne]]; [done|].
  rewrite <- (list_fmap_id (paths n)) at 2.
  apply list_fmap_ext. intros i [c p] Hi. simpl.
  rewrite Forall_lookup in Hne. specialize (Hne _ _ Hi). simpl in Hne.
  unfold HuffmanCoding.code_or_0. by rewrite decide_False.
Qed.

Lemma code_table_prefix_free n k1 k2 s1 s2 :
  k1 ≠ k2 →
  JsMap.get k1 (code_table n) = Some s1 →
  JsMap.get k2 (code_table n) = Some s2 →
  String.prefix s1 s2 = false.
Proof.
  intros Hne H1 H2. unfold code_table in *.
  apply get_set_all_Some in H1 as [H1|?]; [|done].
  apply get_set_all_Some in H2 as [H2|?]; [|done].
  rewrite code_entries_root in H1, H2.
  destruct (isLeaf n).
  - apply list_elem_of_singleton in H1, H2. congruence.
  - apply list_elem_of_lookup in H1 as [i Hi], H2 as [j Hj].
    apply (paths_prefix_free n i j _ _ Hi Hj). intros ->. congruence.
Qed.

Lemma paths_keys n : (paths n).*1 = (leaves n).*1.
Proof.
  induction n as [c f l r IHl IHr] using node_ind'.
  destruct l as [ln|], r as [rn|]; cbn [paths leaves];
    rewrite ?fmap_app, <- ?list_fmap_compose, ?app_nil_r, ?app_nil_l;
    try done.
  - f_equal; [apply (IHl ln eq_refl)|apply (IHr rn eq_refl)].
  - apply (IHl ln eq_refl).
  - apply (IHr rn eq_refl).
Qed.
End TableFacts.

(** * Properties of compress and decode *)

Section CompressFacts.
Import HuffmanNode.
Lemma code_read_freq_write l l' m σ :
  code_read l (freq_write l' m σ) = code_read l σ.
Proof. done. Qed.

Lemma freq_of_nonempty data : data ≠ "" → freq_of data ≠ [].
Proof.
  intros Hne Hnil. destruct data as [|a data]; [done|].
  destruct (count_fold_spec (chars (String a data)) []) as (_ & Hkeys & _).
  { apply NoDup_nil_2. }
  fold (freq_of (String a data)) in Hkeys. rewrite Hnil in Hkeys.
  specialize (Hkeys a). rewrite elem_of_nil in Hkeys.
  apply Hkeys. right. left.
Qed.

Lemma encode_eq data this σ :
  HuffmanCoding.encode data this σ =
  encode_with (code_read (HuffmanCoding.codes this) σ) data.
Proof. done. Qed.

Lemma compress_run data this σ :
  data ≠ "" →
  ∃ t, tree_of (freq_of data) = Normal (Some t) ∧
       full t ∧
       leaves t ≡ₚ (λ e, (Some e.1, e.2)) <$> freq_of data ∧
       HuffmanCoding.compress data this σ =
       let '(lf, lc, σ') := store_after data t this σ in
       let encoded := encode_with (code_table t) data in
       Normal (Success {| Result.original := data;
                          Result.encoded := encoded;
                          Result.originalBits := String.length data * 8;
                          Result.compressedBits := String.length encoded;
                          Result.frequencies := lf;
                          Result.codes := lc;
                          Result.tree := Some t |},
               HuffmanCoding.set_root (Some t) this, σ').
Proof.
  intros Hne.
  destruct (tree_of_spec (freq_of data) (freq_of_nonempty _ Hne))
    as (t & Ht & Hfull & Hlv).
  exists t. split_and!; [done..|].
  unfold HuffmanCoding.compress. rewrite decide_False by done.
  rewrite buildFrequencyMap_eq, buildHuffmanTree_eq, freq_read_write.
  fold (freq_of data). rewrite Ht. step_bind.
  cbn [HuffmanCoding.set_root HuffmanCoding.codes HuffmanCoding.root
       HuffmanCoding.frequencies HuffmanCoding.generateCodes].
  unfold JsMap.clear. rewrite generateCodes_node_eq.
  rewrite encode_eq.
  cbn [HuffmanCoding.set_root HuffmanCoding.codes HuffmanCoding.root
       HuffmanCoding.frequencies].
  rewrite code_read_write.
  unfold store_after, freq_copy, code_copy.
  rewrite freq_read_code_write, freq_read_write.
  fold (code_table t).
  by rewrite code_read_freq_write, code_read_write.
Qed.
End CompressFacts.

Section DecodeFacts.
Import HuffmanNode.
Lemma for_of_app {A S} (body : S → A → completion S) s l1 l2 :
  for_of body s (l1 ++ l2) = s' ← for_of body s l1; for_of body s' l2.
Proof.
  revert s. induction l1 as [|a l1 IH]; intros s; [done|].
  cbn [for_of app]. destruct (body s a) as [s'|]; [|done].
  step_bind. apply IH.
Qed.

Lemma decode_eq encoded this :
  HuffmanCoding.decode encoded this =
  st ← decode_run encoded this; Normal st.1.
Proof.
  unfold HuffmanCoding.decode, decode_run.
  by destruct (for_of _ _ _) as [[??]|].
Qed.

Lemma decode_walk this n :
  full n → isLeaf n = false →
  ∀ c p, (c, p) ∈ paths n →
  ∀ decoded rest,
    for_of (HuffmanCoding.decode_step this) (decoded, Some n)
           (chars p ++ rest) =
    for_of (HuffmanCoding.decode_step this)
           (decoded +:+ char_to_string c, HuffmanCoding.root this) rest.
Proof.
  induction n as [c0 f l r IHl IHr] using node_ind'.
  intros Hfull Hleaf c p Hin decoded rest.
  destruct l as [ln|], r as [rn|]; cbn [full] in Hfull; try done.
  apply andb_True in Hfull as [[_ Hl]%andb_True Hr].
  assert (Hstep : ∀ (m : node) p',
    full m → (c, p') ∈ paths m →
    (full m → isLeaf m = false → ∀ c p, (c, p) ∈ paths m →
     ∀ decoded rest,
       for_of (HuffmanCoding.decode_step this) (decoded, Some m)
              (chars p ++ rest) =
       for_of (HuffmanCoding.decode_step this)
              (decoded +:+ char_to_string c, HuffmanCoding.root this) rest) →
    (s ← (if isLeaf m
          then Normal (decoded +:+ char_to_string (char m),
                       HuffmanCoding.root this)
          else Normal (decoded, Some m));
     for_of (HuffmanCoding.decode_step this) s (chars p' ++ rest)) =
    for_of (HuffmanCoding.decode_step this)
           (decoded +:+ char_to_string c, HuffmanCoding.root this) rest).
  { intros m p' Hm Hp' IH.
    destruct (paths_cases m) as [[-> Hpm]|[Hlf _]].
    - rewrite Hpm in Hp'. apply list_elem_of_singleton in Hp'.
      injection Hp' as -> ->. done.
    - rewrite Hlf. step_bind. by apply IH. }
  cbn [paths] in Hin.
  apply elem_of_app in Hin as [Hin|Hin];
    apply list_elem_of_fmap in Hin as ([c' p'] & [= -> ->] & Hin);
    cbn [fst snd] in *.
  - change (chars (String "0" p')) with ("0"%char :: chars p').
    cbn [app for_of HuffmanCoding.decode_step]. step_bind.
    rewrite decide_True by done. cbn [left]. step_bind.
    apply (Hstep ln); [done..|]. by apply IHl.
  - change (chars (String "1" p')) with ("1"%char :: chars p').
    cbn [app for_of HuffmanCoding.decode_step]. step_bind.
    rewrite decide_False by done. cbn [right]. step_bind.
    apply (Hstep rn); [done..|]. by apply IHr.
Qed.

Lemma foldl_append {A} (f : A → string) (l : list A) : ∀ acc,
  foldl (λ enc c, enc +:+ f c) acc l =
  acc +:+ foldr (λ c s, f c +:+ s) "" l.
Proof.
  induction l as [|a l IH]; intros acc; simpl.
  - by rewrite append_empty_r.
  - by rewrite IH, append_assoc.
Qed.

Lemma string_of_chars (s : string) : foldr String "" (chars s) = s.
Proof. induction s as [|a s IH]; [done|]. simpl. by rewrite IH. Qed.

Lemma length_chars (s : string) : length (chars s) = String.length s.
Proof. induction s as [|a s IH]; [done|]. simpl. by rewrite IH. Qed.

Lemma code_table_internal t c :
  isLeaf t = false → Some c ∈ (leaves t).*1 →
  ∃ p, JsMap.get (Some c) (code_table t) = Some p ∧ (Some c, p) ∈ paths t.
Proof.
  intros Hleaf Hin. unfold code_table.
  rewrite code_entries_root, Hleaf.
  destruct (get_set_all_is_Some (Some c) (paths t) []) as [p Hp].
  { left. by rewrite paths_keys. }
  exists p. split; [done|].
  by apply get_set_all_Some in Hp as [?|?].
Qed.

Lemma decode_encode this t (l : list ascii) :
  HuffmanCoding.root this = Some t → full t → isLeaf t = false →
  Forall (λ c, Some c ∈ (leaves t).*1) l →
  ∀ decoded,
    for_of (HuffmanCoding.decode_step this) (decoded, Some t)
      (chars (foldr (λ c s,
                       code_to_string (JsMap.get (Some c) (code_table t))
                       +:+ s) "" l)) =
    Normal (decoded +:+ foldr String "" l, Some t).
Proof.
  intros Hroot Hfull Hleaf. induction 1 as [|c l Hc _ IH]; intros decoded.
  - simpl. by rewrite append_empty_r.
  - cbn [foldr]. destruct (code_table_internal t c Hleaf Hc) as (p & -> & Hp).
    cbn [code_to_string]. rewrite chars_append.
    rewrite (decode_walk this t Hfull Hleaf _ _ Hp), Hroot, IH.
    cbn [char_to_string]. by rewrite append_assoc.
Qed.
End DecodeFacts.

Section StoreAfter.
Lemma store_after_spec data t this σ :
  let '(lf, lc, σ') := store_after data t this σ in
  ((freqMaps σ') !! lf = Some (freq_of data) ∧
   (codeMaps σ') !! lc = Some (code_table t) ∧
   (freqMaps σ') !! (HuffmanCoding.frequencies this) = Some (freq_of data) ∧
   (codeMaps σ') !! (HuffmanCoding.codes this) = Some (code_table t)) ∧
  ((lf ∉ dom (freqMaps σ)) ∧ lf ≠ HuffmanCoding.frequencies this ∧
   (lc ∉ dom (codeMaps σ)) ∧ lc ≠ HuffmanCoding.codes this) ∧
  (∀ l, l ≠ lf → l ≠ HuffmanCoding.frequencies this →
        (freqMaps σ') !! l = (freqMaps σ) !! l) ∧
  (∀ l, l ≠ lc → l ≠ HuffmanCoding.codes this →
        (codeMaps σ') !! l = (codeMaps σ) !! l).
Proof.
  unfold store_after.
  cbn [freq_write code_write freqMaps codeMaps].
  set (mf := <[HuffmanCoding.frequencies this := freq_of data]> (freqMaps σ)).
  set (mc := <[HuffmanCoding.codes this := code_table t]> (codeMaps σ)).
  pose proof (is_fresh (dom mf)) as Hlf.
  pose proof (is_fresh (dom mc)) as Hlc.
  set (lf := fresh (dom mf)) in *. set (lc := fresh (dom mc)) in *.
  unfold mf in Hlf. unfold mc in Hlc.
  rewrite dom_insert_L in Hlf. rewrite dom_insert_L in Hlc.
  rewrite not_elem_of_union, not_elem_of_singleton in Hlf, Hlc.
  destruct Hlf as [Hlf1 Hlf2], Hlc as [Hlc1 Hlc2].
  split_and!; try done.
  - by rewrite lookup_insert_eq.
  - by rewrite lookup_insert_eq.
  - unfold mf. by rewrite lookup_insert_ne, lookup_insert_eq.
  - unfold mc. by rewrite lookup_insert_ne, lookup_insert_eq.
  - intros l ??. unfold mf. by rewrite !lookup_insert_ne.
  - intros l ??. unfold mc. by rewrite !lookup_insert_ne.
Qed.

Lemma store_after_read data t this σ :
  let '(lf, lc, σ') := store_after data t this σ in
  freq_read lf σ' = freq_of data ∧ code_read lc σ' = code_table t.
Proof.
  pose proof (store_after_spec data t this σ) as Hst.
  destruct (store_after data t this σ) as [[lf lc] σ'].
  destruct Hst as ((Hlf & Hlc & _) & _).
  unfold freq_read, code_read. by rewrite Hlf, Hlc.
Qed.
End StoreAfter.

Section InputFacts.
Lemma length_freq_of data : length (freq_of data) = distinct data.
Proof. apply count_fold_length. Qed.

Lemma elem_of_freq_of data c : c ∈ (freq_of data).*1 ↔ c ∈ chars data.
Proof.
  destruct (count_fold_spec (chars data) []) as (_ & Hkeys & _).
  { apply NoDup_nil_2. }
  unfold freq_of. rewrite Hkeys, elem_of_nil. naive_solver.
Qed.

Lemma sum_freq_of data : sum_list (freq_of data).*2 = String.length data.
Proof.
  destruct (count_fold_spec (chars data) []) as (_ & _ & Hsum).
  { apply NoDup_nil_2. }
  unfold freq_of. rewrite Hsum, length_chars. done.
Qed.

Lemma distinct_nonempty data : 1 ≤ distinct data → data ≠ "".
Proof. intros Hd ->. vm_compute in Hd. lia. Qed.

End InputFacts.

Section Truncation.
Import HuffmanNode.

Lemma string_snoc (s : string) :
  s ≠ "" → ∃ s' b, s = s' +:+ String b "".
Proof.
  induction s as [|a s IH]; [done|]. intros _.
  destruct s as [|a' s].
  - by exists "", a.
  - destruct IH as (s' & b & ->); [done|]. by exists (String a s'), b.
Qed.

(** Walking a path without its last bit ends at a node that is not a leaf,
    and nothing is decoded on the way. *)
Lemma decode_walk_short this n :
  full n → isLeaf n = false →
  ∀ c p' b, (c, p' +:+ String b "") ∈ paths n →
  ∀ decoded, ∃ m,
    for_of (HuffmanCoding.decode_step this) (decoded, Some n) (chars p')
    = Normal (decoded, Some m) ∧
    isLeaf m = false.
Proof.
  induction n as [c0 f l r IHl IHr] using node_ind'.
  intros Hfull Hleaf c p' b Hin decoded.
  destruct p' as [|x q]; [by exists (Build c0 f l r)|].
  destruct l as [ln|], r as [rn|]; cbn [full] in Hfull; try done.
  apply andb_True in Hfull as [[_ Hl]%andb_True Hr].
  assert (Hstep : ∀ (m : node),
    full m → (c, q +:+ String b "") ∈ paths m →
    (full m → isLeaf m = false →
     ∀ c p' b, (c, p' +:+ String b "") ∈ paths m →
     ∀ decoded, ∃ k,
       for_of (HuffmanCoding.decode_step this) (decoded, Some m) (chars p')
       = Normal (decoded, Some k) ∧ isLeaf k = false) →
    ∃ k,
      (s ← (if isLeaf m
            then Normal (decoded +:+ char_to_string (char m),
                         HuffmanCoding.root this)
            else Normal (decoded, Some m));
       for_of (HuffmanCoding.decode_step this) s (chars q))
      = Normal (decoded, Some k) ∧ isLeaf k = false).
  { intros m Hm Hq IH.
    destruct (paths_cases m) as [[_ Hpm]|[Hlf _]].
    - rewrite Hpm in Hq. apply list_elem_of_singleton in Hq.
      injection Hq as _ Hq. by destruct q.
    - rewrite Hlf. step_bind. by apply (IH Hm Hlf c q b). }
  cbn [paths] in Hin. rewrite append_cons in Hin.
  apply elem_of_app in Hin as [Hin|Hin];
    apply list_elem_of_fmap in Hin as ([c' p1] & [= -> -> <-] & Hin);
    cbn [fst snd] in *.
  - change (chars (String "0" q)) with ("0"%char :: chars q).
    cbn [for_of HuffmanCoding.decode_step]. step_bind.
    rewrite decide_True by done. cbn [left]. step_bind.
    apply (Hstep ln); [done..|]. by apply IHl.
  - change (chars (String "1" q)) with ("1"%char :: chars q).
    cbn [for_of HuffmanCoding.decode_step]. step_bind.
    rewrite decide_False by done. cbn [right]. step_bind.
    apply (Hstep rn); [done..|]. by apply IHr.
Qed.

Lemma foldr_append_app {A} (g : A → string) (l1 l2 : list A) :
  foldr (λ c s, g c +:+ s) "" (l1 ++ l2)
  = foldr (λ c s, g c +:+ s) "" l1 +:+ foldr (λ c s, g c +:+ s) "" l2.
Proof.
  induction l1 as [|a l1 IH]; [done|].
  cbn [app foldr]. by rewrite IH, append_assoc.
Qed.

(** The encoded text without its last bit decodes to the input without its
    last symbol, and the cursor is left at a node that is not a leaf. *)
Lemma decode_one_bit_short data this t :
  2 ≤ distinct data →
  full t → leaves t ≡ₚ (λ e, (Some e.1, e.2)) <$> freq_of data →
  HuffmanCoding.root this = Some t →
  ∃ init last bits bit n,
    data = init +:+ String last "" ∧
    encode_with (code_table t) data = bits +:+ String bit "" ∧
    decode_run bits this = Normal (init, Some n) ∧
    isLeaf n = false.
Proof.
  intros Hd Hfull Hlv Hroot.
  assert (data ≠ "") as Hne by (apply distinct_nonempty; lia).
  destruct (string_snoc data Hne) as (init & last & Hdata).
  assert (isLeaf t = false) as Hleaf.
  { destruct (paths_cases t) as [[_ Hp]|[? _]]; [|done].
    apply (f_equal (fmap fst)) in Hp. rewrite paths_keys in Hp.
    apply (f_equal length) in Hp. rewrite length_fmap in Hp.
    rewrite Hlv, length_fmap, length_freq_of in Hp. simpl in Hp. lia. }
  assert (Hsym : ∀ c, c ∈ chars data → Some c ∈ (leaves t).*1).
  { intros c Hc. rewrite Hlv, <- list_fmap_compose.
    apply elem_of_freq_of, list_elem_of_fmap in Hc as (e & -> & He).
    apply list_elem_of_fmap. by exists e. }
  assert (chars data = chars init ++ [last]) as Hchars.
  { by rewrite Hdata, chars_append. }
  destruct (code_table_internal t last Hleaf) as (p & Hget & Hp).
  { apply Hsym. rewrite Hchars, elem_of_app. right. left. }
  assert (p ≠ "") as Hpne.
  { destruct (paths_cases t) as [[? _]|[_ Hall]]; [congruence|].
    rewrite Forall_forall in Hall. exact (Hall _ Hp). }
  destruct (string_snoc p Hpne) as (p' & bit & ->).
  set (enc := foldr (λ c s, code_to_string
                              (JsMap.get (Some c) (code_table t)) +:+ s) "").
  destruct (decode_walk_short this t Hfull Hleaf _ _ _ Hp init) as (n & Hn & Hnl).
  exists init, last, (enc (chars init) +:+ p'), bit, n.
  split_and!; [done| | |done].
  - unfold encode_with. rewrite foldl_append. change ("" +:+ ?s) with s.
    rewrite Hchars, foldr_append_app. cbn [foldr].
    rewrite Hget. cbn [code_to_string]. unfold enc.
    by rewrite append_empty_r, append_assoc.
  - unfold decode_run. rewrite chars_append, for_of_app, Hroot.
    unfold enc. rewrite (decode_encode this t); [|done..|].
    + step_bind. change ("" +:+ ?s) with s. by rewrite string_of_chars.
    + apply Forall_forall. intros c Hc. apply Hsym.
      rewrite Hchars, elem_of_app. by left.
Qed.
End Truncation.

(** * The claims *)

Section Claims.
Import HuffmanNode.

(** Round trip for an input with at least two distinct symbols: decoding
    the encoded bits against the tree of the same [compress] call gives the
    input back. *)
Theorem round_trip_two_or_more data this σ :
  2 ≤ distinct data →
  ∃ r this' σ',
    HuffmanCoding.compress data this σ = Normal (Success r, this', σ') ∧
    HuffmanCoding.root this' = Result.tree r ∧
    HuffmanCoding.decode (Result.encoded r) this' = Normal data.
Proof.
  intros Hd.
  destruct (compress_run data this σ) as (t & _ & Hfull & Hlv & Hrun).
  { apply distinct_nonempty. lia. }
  destruct (store_after data t this σ) as [[lf lc] σ'].
  eexists _, _, _. split; [exact Hrun|]. split; [done|].
  cbn [Result.encoded]. rewrite decode_eq. unfold decode_run.
  cbn [HuffmanCoding.set_root HuffmanCoding.root].
  assert (isLeaf t = false) as Hleaf.
  { destruct (paths_cases t) as [[_ Hp]|[? _]]; [|done].
    apply (f_equal (fmap fst)) in Hp. rewrite paths_keys in Hp.
    apply (f_equal length) in Hp. rewrite length_fmap in Hp.
    rewrite Hlv, length_fmap, length_freq_of in Hp. simpl in Hp. lia. }
  unfold encode_with. rewrite foldl_append.
  change ("" +:+ ?s) with s.
  rewrite (decode_encode (HuffmanCoding.set_root (Some t) this) t);
    [|done..|].
  - step_bind. cbn [fst]. by rewrite string_of_chars.
  - apply Forall_forall. intros c Hc.
    rewrite Hlv, <- list_fmap_compose.
    apply elem_of_freq_of, list_elem_of_fmap in Hc as (e & -> & He).
    apply list_elem_of_fmap. by exists e.
Qed.

(** C1. Round trip at a single-symbol input. [generateCodes] gives the only
    symbol the code "0", but the tree is a single leaf without children, so
    the first bit sends [decode] to [null] and [current.isLeaf()] throws:
    the round trip does not return the input "A". *)
Theorem round_trip_single_symbol this σ :
  ∃ r this' σ',
    HuffmanCoding.compress "A" this σ = Normal (Success r, this', σ') ∧
    HuffmanCoding.root this' = Result.tree r ∧
    Result.encoded r = "0" ∧
    HuffmanCoding.decode (Result.encoded r) this' = TypeError.
Proof.
  destruct (compress_run "A" this σ) as (t & Ht & _ & _ & Hrun); [done|].
  vm_compute in Ht. injection Ht as <-.
  destruct (store_after _ _ this σ) as [[lf lc] σ'].
  eexists _, _, _. split; [exact Hrun|]. by split_and!.
Qed.

(** C2. Single-symbol case "AAAA": the code table is {A: "0"}, the encoded
    text is "0000" (4 bits) and the tree is one leaf of weight 4; decoding
    the encoded bits against that tree throws a TypeError instead of
    returning "AAAA". *)
Theorem single_symbol_case this σ :
  ∃ r this' σ',
    HuffmanCoding.compress "AAAA" this σ = Normal (Success r, this', σ') ∧
    code_read (Result.codes r) σ' = [(Some "A"%char, "0")] ∧
    Result.encoded r = "0000" ∧
    Result.compressedBits r = 4 ∧
    Result.tree r = Some (HuffmanNode.new (Some "A"%char) 4) ∧
    HuffmanCoding.root this' = Result.tree r ∧
    HuffmanCoding.decode (Result.encoded r) this' = TypeError.
Proof.
  destruct (compress_run "AAAA" this σ) as (t & Ht & _ & _ & Hrun); [done|].
  vm_compute in Ht. injection Ht as <-.
  pose proof (store_after_read "AAAA"
                (HuffmanNode.new (Some "A"%char) 4) this σ) as Hst.
  destruct (store_after _ _ this σ) as [[lf lc] σ'].
  destruct Hst as [_ Hlc].
  eexists _, _, _. split; [exact Hrun|]. by split_and!.
Qed.

(** C3, as the code has it. [decode] has no failure value and makes no
    check of the bits. For every tree and every text of bits: when the bits
    run out, [decode] returns the text decoded so far wherever the cursor
    is, also in the middle of a path; and a bit that asks a node that is
    not a leaf for a child that does not exist (a corrupt or foreign tree)
    makes [decode] throw a TypeError. In particular, for every input with
    at least two distinct symbols, the encoded text of [compress] without
    its last bit decodes against the tree of the same call: the cursor ends
    at a node that is not a leaf, and the text returned is the input
    without its last symbol. *)
Theorem decode_no_failure_value :
  (∀ encoded this decoded current,
     decode_run encoded this = Normal (decoded, current) →
     HuffmanCoding.decode encoded this = Normal decoded ∧
     ∀ n bit rest,
       current = Some n → isLeaf n = false → child bit current = None →
       HuffmanCoding.decode (encoded +:+ String bit rest) this = TypeError) ∧
  (∀ data this σ,
     2 ≤ distinct data →
     ∃ r this' σ' init last bits bit n,
       HuffmanCoding.compress data this σ = Normal (Success r, this', σ') ∧
       HuffmanCoding.root this' = Result.tree r ∧
       data = init +:+ String last "" ∧
       Result.encoded r = bits +:+ String bit "" ∧
       decode_run bits this' = Normal (init, Some n) ∧
       isLeaf n = false ∧
       HuffmanCoding.decode bits this' = Normal init).
Proof.
  split.
  - intros encoded this decoded current Hrun. split.
    + by rewrite decode_eq, Hrun.
    + intros n bit rest -> _ Hchild. rewrite decode_eq. unfold decode_run in *.
      rewrite chars_append, for_of_app, Hrun. step_bind.
      change (chars (String bit rest)) with (bit :: chars rest).
      cbn [for_of HuffmanCoding.decode_step]. step_bind.
      cbn [child mbind option_bind] in Hchild. by rewrite Hchild.
  - intros data this σ Hd.
    destruct (compress_run data this σ) as (t & _ & Hfull & Hlv & Hrun).
    { apply distinct_nonempty. lia. }
    destruct (store_after data t this σ) as [[lf lc] σ'].
    destruct (decode_one_bit_short data (HuffmanCoding.set_root (Some t) this)
                t Hd Hfull Hlv eq_refl)
      as (init & last & bits & bit & n & Hdata & Henc & Hdec & Hn).
    eexists _, _, _, init, last, bits, bit, n.
    split; [exact Hrun|]. cbn [Result.encoded Result.tree].
    split_and!; [done..|]. by rewrite decode_eq, Hdec.
Qed.

(** C4, as the code has it. [encode] never fails: it returns the
    concatenation, in input order, of what each symbol contributes, which
    is its code when the table has one and the text "undefined" when it has
    none. *)
Theorem encode_concatenates data this σ :
  HuffmanCoding.encode data this σ =
  String.concat ""
    ((λ c, code_to_string
             (JsMap.get (Some c) (code_read (HuffmanCoding.codes this) σ)))
       <$> chars data).
Proof.
  rewrite encode_eq. unfold encode_with. rewrite foldl_append.
  change ("" +:+ ?s) with s.
  induction (chars data) as [|c l IH]; [done|].
  cbn [foldr fmap list_fmap String.concat]. rewrite IH.
  destruct l as [|c' l]; [|done].
  by rewrite append_empty_r.
Qed.

(** C5. [compress] of the empty string returns the failure value
    [{success: false, error: 'No data to compress'}], which carries no
    tree, code table or encoded text, and leaves the object and the store
    as they were. *)
Theorem compress_empty this σ :
  HuffmanCoding.compress "" this σ =
  Normal (Failure "No data to compress", this, σ).
Proof. reflexivity. Qed.

(** C6. Prefix-freeness: for a non-empty input [compress] succeeds, and in
    the code table of its result the codes of two distinct symbols are not
    prefixes of one another. *)
Theorem compress_prefix_free data this σ :
  data ≠ "" →
  ∃ r this' σ',
    HuffmanCoding.compress data this σ = Normal (Success r, this', σ') ∧
    ∀ k1 k2 s1 s2,
      k1 ≠ k2 →
      JsMap.get k1 (code_read (Result.codes r) σ') = Some s1 →
      JsMap.get k2 (code_read (Result.codes r) σ') = Some s2 →
      String.prefix s1 s2 = false ∧ String.prefix s2 s1 = false.
Proof.
  intros Hne.
  destruct (compress_run data this σ Hne) as (t & _ & _ & _ & Hrun).
  pose proof (store_after_read data t this σ) as Hst.
  destruct (store_after data t this σ) as [[lf lc] σ'].
  destruct Hst as [_ Hlc].
  eexists _, _, _. split; [exact Hrun|].
  cbn [Result.codes]. rewrite Hlc. intros k1 k2 s1 s2 Hk H1 H2. split.
  - by apply (code_table_prefix_free t k1 k2).
  - by apply (code_table_prefix_free t k2 k1).
Qed.

(** C7. Structure of the tree: for an input with [n ≥ 2] distinct symbols
    the tree of the result has [n] leaves and [n - 1] internal nodes, every
    internal node has two children whose weights add up to its own, and the
    leaf weights add up to the length of the input. *)
Theorem compress_tree_structure data this σ :
  2 ≤ distinct data →
  ∃ r this' σ' t,
    HuffmanCoding.compress data this σ = Normal (Success r, this', σ') ∧
    Result.tree r = Some t ∧
    length (leaves t) = distinct data ∧
    internal_count t = distinct data - 1 ∧
    full t = true ∧
    sum_list (leaves t).*2 = String.length data.
Proof.
  intros Hd.
  destruct (compress_run data this σ) as (t & _ & Hfull & Hlv & Hrun).
  { apply distinct_nonempty. lia. }
  destruct (store_after data t this σ) as [[lf lc] σ'].
  assert (length (leaves t) = distinct data) as Hlen.
  { by rewrite Hlv, length_fmap, length_freq_of. }
  eexists _, _, _, t. split; [exact Hrun|]. split_and!; [done..| | |].
  - pose proof (full_leaf_count t Hfull). lia.
  - by apply Is_true_true.
  - rewrite Hlv, <- list_fmap_compose. apply sum_freq_of.
Qed.

(** C8. The worked example "AABBBCCCC": the code of C is not longer than
    the code of A or of B, and the encoded text has 14 bits, fewer than the
    72 bits of the fixed-width baseline. *)
Theorem frequency_ordering_example this σ :
  ∃ r this' σ' cA cB cC,
    HuffmanCoding.compress "AABBBCCCC" this σ
    = Normal (Success r, this', σ') ∧
    freq_read (Result.frequencies r) σ'
    = [("A"%char, 2); ("B"%char, 3); ("C"%char, 4)] ∧
    JsMap.get (Some "A"%char) (code_read (Result.codes r) σ') = Some cA ∧
    JsMap.get (Some "B"%char) (code_read (Result.codes r) σ') = Some cB ∧
    JsMap.get (Some "C"%char) (code_read (Result.codes r) σ') = Some cC ∧
    String.length cC ≤ String.length cA ∧
    String.length cC ≤ String.length cB ∧
    Result.originalBits r = 72 ∧
    Result.compressedBits r < Result.originalBits r ∧
    Result.compressedBits r = 14.
Proof.
  destruct (compress_run "AABBBCCCC" this σ) as (t & Ht & _ & _ & Hrun);
    [done|].
  vm_compute in Ht. injection Ht as <-.
  match type of Hrun with context [store_after _ ?t _ _] =>
    pose proof (store_after_read "AABBBCCCC" t this σ) as Hst;
    destruct (store_after "AABBBCCCC" t this σ) as [[lf lc] σ']
  end.
  destruct Hst as [Hlf Hlc].
  eexists _, _, _, "10", "11", "0". split; [exact Hrun|].
  cbn [Result.codes Result.frequencies Result.originalBits
       Result.compressedBits]. rewrite Hlf, Hlc.
  split_and!; try done; vm_compute; lia.
Qed.

(** C9. Isolation between calls.  Two successive calls of [compress] on
    the same object succeed whenever their inputs are not empty.  After the
    second call the two maps held by the result of the first call are still
    in the store with the entries the first call gave them (the frequency
    table of the first input and the code table that encoded it), and they
    are objects different from the maps of the second result and from the
    two maps that the object itself keeps rewriting.  The tree of the first
    result is the tree built from the first input alone, while the [root]
    field of the object has moved on to the tree of the second result.  (The
    tree and the encoded text of a result are immutable values.) *)
Theorem compress_isolation d1 d2 this σ :
  d1 ≠ "" → d2 ≠ "" →
  ∃ r1 this1 σ1 r2 this2 σ2,
    HuffmanCoding.compress d1 this σ = Normal (Success r1, this1, σ1) ∧
    HuffmanCoding.compress d2 this1 σ1 = Normal (Success r2, this2, σ2) ∧
    ((freqMaps σ1) !! (Result.frequencies r1) = Some (freq_of d1) ∧
     (freqMaps σ2) !! (Result.frequencies r1) = Some (freq_of d1)) ∧
    (∃ table, (codeMaps σ1) !! (Result.codes r1) = Some table ∧
              (codeMaps σ2) !! (Result.codes r1) = Some table ∧
              Result.encoded r1 = encode_with table d1) ∧
    Result.frequencies r1 ≠ Result.frequencies r2 ∧
    Result.codes r1 ≠ Result.codes r2 ∧
    Result.frequencies r1 ≠ HuffmanCoding.frequencies this2 ∧
    Result.codes r1 ≠ HuffmanCoding.codes this2 ∧
    tree_of (freq_of d1) = Normal (Result.tree r1) ∧
    HuffmanCoding.root this2 = Result.tree r2.
Proof.
  intros Hd1 Hd2.
  destruct (compress_run d1 this σ Hd1) as (t1 & Ht1 & _ & _ & Hrun1).
  pose proof (store_after_spec d1 t1 this σ) as Hst1.
  destruct (store_after d1 t1 this σ) as [[lf1 lc1] σ1].
  destruct (compress_run d2 (HuffmanCoding.set_root (Some t1) this) σ1 Hd2)
    as (t2 & _ & _ & _ & Hrun2).
  pose proof (store_after_spec d2 t2
                (HuffmanCoding.set_root (Some t1) this) σ1) as Hst2.
  destruct (store_after d2 t2 _ σ1) as [[lf2 lc2] σ2].
  eexists _, _, _, _, _, _. split; [exact Hrun1|]. split; [exact Hrun2|].
  cbn [Result.frequencies Result.codes Result.encoded
       HuffmanCoding.set_root HuffmanCoding.frequencies HuffmanCoding.codes]
    in *.
  destruct Hst1 as ((Hf1 & Hc1 & _) & (_ & Hlf1 & _ & Hlc1) & _).
  destruct Hst2 as (_ & (Hlf2 & _ & Hlc2 & _) & Hff & Hfc).
  assert (lf1 ≠ lf2) as Hnf.
  { intros <-. apply Hlf2, elem_of_dom. by eexists. }
  assert (lc1 ≠ lc2) as Hnc.
  { intros <-. apply Hlc2, elem_of_dom. by eexists. }
  split_and!; try done.
  - by rewrite Hff.
  - exists (code_table t1). split_and!; [done| |done]. by rewrite Hfc.
Qed.

(** C10. The heap of [MinHeap]: after any sequence of [insert] and
    [extractMin] calls on a new heap, no call has thrown, the array is in
    heap order, and it holds exactly the nodes inserted and not yet
    extracted.  On the empty heap [extractMin] returns [null]; on any other
    it returns a node whose frequency is minimal in the array, removes that
    node and leaves the array in heap order. *)
Theorem minheap_invariant (ops : list op) :
  ∃ outs h,
    run ops = Normal (outs, h) ∧
    heap_ordered h ∧
    inserted ops ≡ₚ outs ++ h ∧
    match h with
    | [] => MinHeap.extractMin h = Normal (None, [])
    | _ :: _ =>
        ∃ m h', MinHeap.extractMin h = Normal (Some m, h') ∧ h ≡ₚ m :: h' ∧
                heap_ordered h' ∧
                Forall (λ x, frequency m ≤ frequency x) h
    end.
Proof.
  assert (Hgen : ∀ ops outs h,
    heap_ordered h →
    ∃ outs' h', for_of run_op (outs, h) ops = Normal (outs', h') ∧
                heap_ordered h' ∧ inserted ops ++ outs ++ h ≡ₚ outs' ++ h').
  { clear ops. induction ops as [|o ops IH]; intros outs h Ho.
    - exists outs, h. by split_and!.
    - cbn [for_of run_op]. destruct o as [n|].
      + destruct (insert_spec h n) as (h1 & -> & Hperm & Hord). step_bind.
        destruct (IH outs h1 (Hord Ho)) as (outs' & h' & -> & Ho' & Hp).
        exists outs', h'. split_and!; [done..|].
        rewrite <- Hp, Hperm. simpl.
        by rewrite <- !Permutation_middle.
      + destruct h as [|x h].
        * rewrite extractMin_nil. step_bind. cbn beta iota.
          destruct (IH outs [] Ho) as (outs' & h' & -> & Ho' & Hp).
          by exists outs', h'.
        * destruct (extractMin_spec (x :: h)) as (m & h1 & -> & Hperm & Hord);
            [done|].
          step_bind. cbn beta iota.
          destruct (Hord Ho) as [Ho1 _].
          destruct (IH (outs ++ [m]) h1 Ho1) as (outs' & h' & -> & Ho' & Hp).
          exists outs', h'. split_and!; [done..|].
          rewrite <- Hp, Hperm. simpl.
          rewrite <- (assoc_L (++)). simpl. done. }
  destruct (Hgen ops [] []) as (outs & h & Hrun & Ho & Hp).
  { intros i x c Hx. by destruct i. }
  exists outs, h. split_and!; [done..| |].
  - by rewrite app_nil_r in Hp.
  - destruct h as [|x h]; [done|].
    destruct (extractMin_spec (x :: h)) as (m & h1 & Hm & Hperm & Hord);
      [done|].
    exists m, h1. destruct (Hord Ho). by split_and!.
Qed.
End Claims.

(** * Counterexamples and instances *)

Section Examples.
Import HuffmanNode.

(** C3 fails as stated: the encoded text of "CCCCBBBAA" is
    "00001111111010"; without its last bit the cursor ends on the internal
    node above A and B, and [decode] returns the text "CCCCBBBA" instead of
    failing. *)
Lemma decode_truncated_stream :
  ∃ r this σ n,
    HuffmanCoding.compress "CCCCBBBAA" new_instance.1 new_instance.2
    = Normal (Success r, this, σ) ∧
    Result.encoded r = "00001111111010" ∧
    decode_run "0000111111101" this = Normal ("CCCCBBBA", Some n) ∧
    isLeaf n = false ∧
    Some n ≠ HuffmanCoding.root this ∧
    HuffmanCoding.decode "0000111111101" this = Normal "CCCCBBBA".
Proof.
  eexists _, _, _, _. split; [vm_compute; reflexivity|].
  split; [reflexivity|]. split; [vm_compute; reflexivity|].
  split; [reflexivity|]. split; [discriminate|]. reflexivity.
Qed.

(** C3, as the code has it: on the foreign tree, "0" decodes to "A" and a
    further bit 1 finds no child; and the encoded text of "CCCCBBBAA"
    without its last bit decodes to the input without its last symbol. *)
Lemma decode_no_failure_value_witness :
  decode_run "0" lopsided_instance
  = Normal ("A", HuffmanCoding.root lopsided_instance) ∧
  (HuffmanCoding.decode "0" lopsided_instance = Normal "A" ∧
   ∀ n bit rest,
     HuffmanCoding.root lopsided_instance = Some n → isLeaf n = false →
     child bit (HuffmanCoding.root lopsided_instance) = None →
     HuffmanCoding.decode ("0" +:+ String bit rest) lopsided_instance
     = TypeError) ∧
  child "1" (HuffmanCoding.root lopsided_instance) = None ∧
  2 ≤ distinct "CCCCBBBAA" ∧
  ∃ r this' σ' init last bits bit n,
    HuffmanCoding.compress "CCCCBBBAA" new_instance.1 new_instance.2
    = Normal (Success r, this', σ') ∧
    HuffmanCoding.root this' = Result.tree r ∧
    "CCCCBBBAA" = init +:+ String last "" ∧
    Result.encoded r = bits +:+ String bit "" ∧
    decode_run bits this' = Normal (init, Some n) ∧
    isLeaf n = false ∧
    HuffmanCoding.decode bits this' = Normal init.
Proof.
  split; [reflexivity|]. split.
  { apply (proj1 decode_no_failure_value "0" lopsided_instance "A"
             (HuffmanCoding.root lopsided_instance)).
    reflexivity. }
  split; [reflexivity|]. split; [vm_compute; lia|].
  apply (proj2 decode_no_failure_value "CCCCBBBAA"
           new_instance.1 new_instance.2).
  vm_compute. lia.
Defined.

(** C4 fails as stated: B has no entry in the table, and [encode] returns
    a string, with the text "undefined" where the code of B should be. *)
Lemma encode_unknown_symbol :
  JsMap.get (Some "B"%char)
    (code_read (HuffmanCoding.codes leaf_instance) a_only_store) = None ∧
  HuffmanCoding.encode "AB" leaf_instance a_only_store = "0undefined".
Proof. split; reflexivity. Qed.

(** C6 at the input "AB" on a new object. *)
Lemma compress_prefix_free_witness :
  "AB" ≠ "" ∧
  ∃ r this' σ',
    HuffmanCoding.compress "AB" new_instance.1 new_instance.2
    = Normal (Success r, this', σ') ∧
    ∀ k1 k2 s1 s2,
      k1 ≠ k2 →
      JsMap.get k1 (code_read (Result.codes r) σ') = Some s1 →
      JsMap.get k2 (code_read (Result.codes r) σ') = Some s2 →
      String.prefix s1 s2 = false ∧ String.prefix s2 s1 = false.
Proof.
  split; [discriminate|].
  apply (compress_prefix_free "AB" new_instance.1 new_instance.2).
  discriminate.
Defined.

(** C7 at the input "AB", which has two distinct symbols. *)
Lemma compress_tree_structure_witness :
  2 ≤ distinct "AB" ∧
  ∃ r this' σ' t,
    HuffmanCoding.compress "AB" new_instance.1 new_instance.2
    = Normal (Success r, this', σ') ∧
    Result.tree r = Some t ∧
    length (leaves t) = distinct "AB" ∧
    internal_count t = distinct "AB" - 1 ∧
    full t = true ∧
    sum_list (leaves t).*2 = String.length "AB".
Proof.
  split; [vm_compute; lia|].
  apply (compress_tree_structure "AB" new_instance.1 new_instance.2).
  vm_compute. lia.
Defined.

(** C9 at the inputs "AB" and "CCD" on a new object. *)
Lemma compress_isolation_witness :
  "AB" ≠ "" ∧ "CCD" ≠ "" ∧
  ∃ r1 this1 σ1 r2 this2 σ2,
    HuffmanCoding.compress "AB" new_instance.1 new_instance.2
    = Normal (Success r1, this1, σ1) ∧
    HuffmanCoding.compress "CCD" this1 σ1
    = Normal (Success r2, this2, σ2) ∧
    ((freqMaps σ1) !! (Result.frequencies r1) = Some (freq_of "AB") ∧
     (freqMaps σ2) !! (Result.frequencies r1) = Some (freq_of "AB")) ∧
    (∃ table, (codeMaps σ1) !! (Result.codes r1) = Some table ∧
              (codeMaps σ2) !! (Result.codes r1) = Some table ∧
              Result.encoded r1 = encode_with table "AB") ∧
    Result.frequencies r1 ≠ Result.frequencies r2 ∧
    Result.codes r1 ≠ Result.codes r2 ∧
    Result.frequencies r1 ≠ HuffmanCoding.frequencies this2 ∧
    Result.codes r1 ≠ HuffmanCoding.codes this2 ∧
    tree_of (freq_of "AB") = Normal (Result.tree r1) ∧
    HuffmanCoding.root this2 = Result.tree r2.
Proof.
  split; [discriminate|]. split; [discriminate|].
  apply (compress_isolation "AB" "CCD" new_instance.1 new_instance.2);
    discriminate.
Defined.
End Examples.

(** * Further properties

    Properties of the code beyond the claims: what a result holds, how good
    the code is, how calls compose, where [decode] fails, the heap as a
    sorter, and the parts of the controller that compute. *)

(** ** Counts, code tables and encoded texts *)

Section CountFacts.
Lemma get_count_step m c c' :
  JsMap.get c' (count_step m c) =
  if decide (c = c') then Some (default 0 (JsMap.get c m) + 1)
  else JsMap.get c' m.
Proof.
  unfold count_step. case_decide as Hc.
  - subst. apply get_set_eq.
  - by apply get_set_ne.
Qed.

Lemma occurrences_cons c x l :
  occurrences c (x :: l) =
  if decide (x = c) then S (occurrences c l) else occurrences c l.
Proof.
  unfold occurrences. rewrite filter_cons. by case_decide.
Qed.

Lemma get_count_fold c l : ∀ m,
  JsMap.get c (foldl count_step m l) =
  if decide (occurrences c l = 0) then JsMap.get c m
  else Some (default 0 (JsMap.get c m) + occurrences c l).
Proof.
  induction l as [|x l IH]; intros m; [done|].
  cbn [foldl]. rewrite IH, occurrences_cons, get_count_step.
  destruct (decide (x = c)) as [->|Hx].
  - rewrite (decide_False (P := S _ = 0)) by lia.
    case_decide as Ho; simpl; [rewrite Ho|]; f_equal; lia.
  - done.
Qed.

Lemma get_freq_of data c :
  JsMap.get c (freq_of data) = count_entry (occurrences c (chars data)).
Proof. unfold freq_of, count_entry. by rewrite get_count_fold. Qed.
End CountFacts.

Section TableShape.
Import HuffmanNode.

Lemma get_is_Some {K V} `{EqDecision K} (k : K) (m : list (K * V)) :
  is_Some (JsMap.get k m) ↔ k ∈ m.*1.
Proof.
  induction m as [|[k' v'] m IH]; cbn [JsMap.get].
  - rewrite fmap_nil, elem_of_nil. split; [by intros [??]|done].
  - rewrite fmap_cons, elem_of_cons. cbn [fst].
    destruct (decide (k' = k)) as [->|Hk].
    + split; [by left|by eexists].
    + rewrite IH. naive_solver.
Qed.

Lemma elem_of_set {K V} `{EqDecision K} (k k' : K) (v v' : V) m :
  (k', v') ∈ JsMap.set k v m → (k', v') = (k, v) ∨ (k', v') ∈ m.
Proof.
  induction m as [|[k0 v0] m IH]; cbn [JsMap.set].
  - intros ?%list_elem_of_singleton. by left.
  - case_decide; rewrite !elem_of_cons; naive_solver.
Qed.

Lemma elem_of_set_all e es : ∀ m, e ∈ set_all m es → e ∈ m ∨ e ∈ es.
Proof.
  induction es as [|[k v] es IH]; intros m; cbn [set_all foldl]; [by left|].
  intros [Hin|Hin]%IH; [|right; by right].
  destruct e as [k' v']. cbn [fst snd] in Hin.
  apply elem_of_set in Hin as [->|Hin]; [right; by left|by left].
Qed.

Lemma keys_set_all k es : ∀ m,
  k ∈ (set_all m es).*1 ↔ k ∈ m.*1 ∨ k ∈ es.*1.
Proof.
  induction es as [|[k' v'] es IH]; intros m; cbn [set_all foldl].
  - rewrite fmap_nil, elem_of_nil. naive_solver.
  - rewrite IH, elem_of_keys_set, fmap_cons, elem_of_cons. naive_solver.
Qed.

Lemma NoDup_set_all es : ∀ m, NoDup m.*1 → NoDup (set_all m es).*1.
Proof.
  induction es as [|[k v] es IH]; intros m Hm; cbn [set_all foldl]; [done|].
  by apply IH, NoDup_set.
Qed.

Lemma paths_binary n : Forall (λ e, binary e.2) (paths n).
Proof.
  induction n as [c f l r IHl IHr] using node_ind'.
  assert (Hside : ∀ b n',
    is_bit b → Forall (λ e, binary e.2) (paths n') →
    Forall (λ e, binary e.2) ((λ e, (e.1, String b e.2)) <$> paths n')).
  { intros b n' Hb IH. apply Forall_fmap.
    eapply Forall_impl; [exact IH|]. intros [c' p] Hp.
    by apply Forall_cons. }
  destruct l as [ln|], r as [rn|]; cbn [paths].
  - apply Forall_app. split.
    + apply Hside; [by left|by apply IHl].
    + apply Hside; [by right|by apply IHr].
  - rewrite app_nil_r. apply Hside; [by left|by apply IHl].
  - apply Hside; [by right|by apply IHr].
  - apply Forall_singleton. apply Forall_nil_2.
Qed.

Lemma paths_length n :
  Forall (λ e, String.length e.2 ≤ internal_count n) (paths n).
Proof.
  induction n as [c f l r IHl IHr] using node_ind'.
  assert (Hside : ∀ b n' k,
    Forall (λ e, String.length e.2 ≤ internal_count n') (paths n') →
    internal_count n' < k →
    Forall (λ e, String.length e.2 ≤ k)
           ((λ e, (e.1, String b e.2)) <$> paths n')).
  { intros b n' k IH Hk. apply Forall_fmap.
    eapply Forall_impl; [exact IH|]. intros [c' p] Hp. simpl in *. lia. }
  destruct l as [ln|], r as [rn|]; cbn [paths internal_count].
  - apply Forall_app. split.
    + apply Hside; [by apply IHl|lia].
    + apply Hside; [by apply IHr|lia].
  - rewrite app_nil_r. apply Hside; [by apply IHl|lia].
  - apply Hside; [by apply IHr|lia].
  - by apply Forall_singleton.
Qed.

Lemma code_entries_shape n :
  Forall (λ e, e.2 ≠ "" ∧ binary e.2 ∧
               String.length e.2 ≤ internal_count n `max` 1)
         (code_entries "" n).
Proof.
  rewrite code_entries_root.
  destruct (paths_cases n) as [[-> _]|[-> Hne]].
  - apply Forall_singleton. split_and!; [done| |simpl; lia].
    apply Forall_singleton. by left.
  - pose proof (paths_binary n) as Hb. pose proof (paths_length n) as Hl.
    rewrite Forall_forall in Hne, Hb, Hl. apply Forall_forall.
    intros e He. split_and!; [by apply Hne|by apply Hb|].
    specialize (Hl e He). lia.
Qed.

Lemma code_table_shape n :
  Forall (λ e, e.2 ≠ "" ∧ binary e.2 ∧
               String.length e.2 ≤ internal_count n `max` 1)
         (code_table n).
Proof.
  apply Forall_forall. intros e [He|He]%elem_of_set_all.
  - by apply elem_of_nil in He.
  - pose proof (code_entries_shape n) as Hs.
    rewrite Forall_forall in Hs. by apply Hs.
Qed.

Lemma code_table_keys n k : k ∈ (code_table n).*1 ↔ k ∈ (leaves n).*1.
Proof.
  unfold code_table. rewrite keys_set_all, fmap_nil, elem_of_nil.
  unfold code_entries. rewrite <- list_fmap_compose.
  rewrite <- paths_keys.
  replace ((fst ∘ λ e, (e.1, HuffmanCoding.code_or_0 ("" +:+ e.2)))
             <$> paths n) with ((paths n).*1); [naive_solver|].
  by apply list_fmap_ext.
Qed.
End TableShape.

Section EncodedFacts.
Import HuffmanNode.

Lemma length_append (a b : string) :
  String.length (a +:+ b) = String.length a + String.length b.
Proof.
  induction a as [|x a IH]; [done|].
  rewrite append_cons. cbn [String.length]. by rewrite IH.
Qed.

Lemma freq_of_NoDup data : NoDup (freq_of data).*1.
Proof.
  destruct (count_fold_spec (chars data) []) as (Hnd & _); [|done].
  apply NoDup_nil_2.
Qed.

Lemma encode_with_length table data :
  String.length (encode_with table data) =
  sum_list_with (code_length table) (chars data).
Proof.
  unfold encode_with. rewrite foldl_append. change ("" +:+ ?s) with s.
  induction (chars data) as [|c l IH]; [done|].
  cbn [foldr sum_list_with]. by rewrite length_append, IH.
Qed.

Lemma encode_with_binary table data :
  Forall (λ c, binary (code_to_string (JsMap.get (Some c) table)))
         (chars data) →
  binary (encode_with table data).
Proof.
  unfold encode_with. rewrite foldl_append. change ("" +:+ ?s) with s.
  induction 1 as [|c l Hc _ IH]; [apply Forall_nil_2|].
  cbn [foldr]. unfold binary. rewrite chars_append. by apply Forall_app.
Qed.

Lemma sum_list_with_bounds {A} (g : A → nat) (l : list A) lo hi :
  Forall (λ x, lo ≤ g x ≤ hi) l →
  length l * lo ≤ sum_list_with g l ≤ length l * hi.
Proof. induction 1 as [|x l Hx _ IH]; simpl; lia. Qed.

Lemma weighted_count_step (g : ascii → nat) m c :
  sum_list_with (λ e, e.2 * g e.1) (count_step m c) =
  sum_list_with (λ e, e.2 * g e.1) m + g c.
Proof.
  unfold count_step.
  induction m as [|[k v] m IH]; cbn [JsMap.get JsMap.set].
  - simpl. lia.
  - destruct (decide (k = c)) as [->|Hk]; simpl; [lia|].
    rewrite IH. lia.
Qed.

Lemma weighted_count_fold (g : ascii → nat) l : ∀ m,
  sum_list_with (λ e, e.2 * g e.1) (foldl count_step m l) =
  sum_list_with (λ e, e.2 * g e.1) m + sum_list_with g l.
Proof.
  induction l as [|c l IH]; intros m; simpl; [lia|].
  rewrite IH, weighted_count_step. lia.
Qed.

(** What [compress] knows about the code of every symbol of its input. *)
Lemma code_of_symbol data t c :
  leaves t ≡ₚ (λ e, (Some e.1, e.2)) <$> freq_of data →
  c ∈ chars data →
  ∃ p, JsMap.get (Some c) (code_table t) = Some p ∧
       p ≠ "" ∧ binary p ∧ String.length p ≤ internal_count t `max` 1.
Proof.
  intros Hlv Hc.
  assert (Some c ∈ (code_table t).*1) as Hk.
  { apply code_table_keys. rewrite Hlv, <- list_fmap_compose.
    apply elem_of_freq_of, list_elem_of_fmap in Hc as (e & -> & He).
    apply list_elem_of_fmap. by exists e. }
  apply get_is_Some in Hk as [p Hp]. exists p. split; [done|].
  pose proof (code_table_shape t) as Hs. rewrite Forall_forall in Hs.
  apply (Hs (Some c, p)).
  apply list_elem_of_lookup.
  clear Hs. induction (code_table t) as [|[k v] m IH]; [done|].
  cbn [JsMap.get] in Hp. case_decide as Hkc.
  - injection Hp as ->. subst. by exists 0.
  - destruct (IH Hp) as [i Hi]. by exists (S i).
Qed.
End EncodedFacts.

(** ** What a result holds *)

Section ResultFacts.
Import HuffmanNode.

(** X1. The frequency table of a result counts every symbol exactly: a
    symbol that occurs [n > 0] times in the input has the entry [n], a
    symbol that does not occur has no entry, and no key is repeated. *)
Theorem frequencies_count_occurrences data this σ :
  data ≠ "" →
  ∃ r this' σ',
    HuffmanCoding.compress data this σ = Normal (Success r, this', σ') ∧
    NoDup (freq_read (Result.frequencies r) σ').*1 ∧
    ∀ c, JsMap.get c (freq_read (Result.frequencies r) σ')
         = count_entry (occurrences c (chars data)).
Proof.
  intros Hne.
  destruct (compress_run data this σ Hne) as (t & _ & _ & _ & Hrun).
  pose proof (store_after_read data t this σ) as Hst.
  destruct (store_after data t this σ) as [[lf lc] σ'].
  destruct Hst as [Hlf _].
  eexists _, _, _. split; [exact Hrun|].
  cbn [Result.frequencies]. rewrite Hlf.
  split; [apply freq_of_NoDup|]. intros c. apply get_freq_of.
Qed.

(** X2. The code table of a result has exactly one entry for every distinct
    symbol of the input and no other entry, and every code is a non-empty
    text of the digits 0 and 1. *)
Theorem code_table_covers_input data this σ :
  data ≠ "" →
  ∃ r this' σ',
    HuffmanCoding.compress data this σ = Normal (Success r, this', σ') ∧
    (∀ k, is_Some (JsMap.get k (code_read (Result.codes r) σ')) ↔
          ∃ c, k = Some c ∧ c ∈ chars data) ∧
    NoDup (code_read (Result.codes r) σ').*1 ∧
    length (code_read (Result.codes r) σ') = distinct data ∧
    Forall (λ e, e.2 ≠ "" ∧ binary e.2) (code_read (Result.codes r) σ').
Proof.
  intros Hne.
  destruct (compress_run data this σ Hne) as (t & _ & _ & Hlv & Hrun).
  pose proof (store_after_read data t this σ) as Hst.
  destruct (store_after data t this σ) as [[lf lc] σ'].
  destruct Hst as [_ Hlc].
  eexists _, _, _. split; [exact Hrun|].
  cbn [Result.codes]. rewrite Hlc.
  assert (Hkeys : ∀ k, k ∈ (code_table t).*1 ↔
                       ∃ c, k = Some c ∧ c ∈ chars data).
  { intros k. rewrite code_table_keys, Hlv, <- list_fmap_compose. split.
    - intros (e & -> & He)%list_elem_of_fmap. exists e.1. split; [done|].
      apply elem_of_freq_of, list_elem_of_fmap. by exists e.
    - intros (c & -> & Hc).
      apply elem_of_freq_of, list_elem_of_fmap in Hc as (e & -> & He).
      apply list_elem_of_fmap. by exists e. }
  assert (NoDup (code_table t).*1) as Hnd.
  { apply NoDup_set_all, NoDup_nil_2. }
  split_and!.
  - intros k. by rewrite get_is_Some.
  - done.
  - rewrite <- length_freq_of, <- (length_fmap fst (code_table t)),
      <- (length_fmap fst (freq_of data)),
      <- (length_fmap Some (freq_of data).*1).
    apply Permutation_length, NoDup_Permutation; [done| |].
    + apply (NoDup_fmap_2 _), freq_of_NoDup.
    + intros k. rewrite Hkeys. split.
      * intros (c & -> & Hc). apply list_elem_of_fmap. exists c.
        split; [done|]. by apply elem_of_freq_of.
      * intros (c & -> & Hc)%list_elem_of_fmap. exists c.
        split; [done|]. by apply elem_of_freq_of.
  - eapply Forall_impl; [apply code_table_shape|]. naive_solver.
Qed.

(** X3. The encoded text of a result is a text of the digits 0 and 1, and
    its length is the sum of the lengths of the codes of the symbols of the
    input. The code of every symbol of the input is a text of the digits 0
    and 1 with at least one bit and at most [max (n - 1) 1] bits, [n] being
    the number of distinct symbols; so the encoded text has between one
    and [max (n - 1) 1] bits for every symbol of the input. *)
Theorem encoded_is_binary data this σ :
  data ≠ "" →
  ∃ r this' σ',
    HuffmanCoding.compress data this σ = Normal (Success r, this', σ') ∧
    binary (Result.encoded r) ∧
    Result.compressedBits r = String.length (Result.encoded r) ∧
    Result.compressedBits r
    = sum_list_with (code_length (code_read (Result.codes r) σ'))
                    (chars data) ∧
    (∀ c, c ∈ chars data →
          ∃ p, JsMap.get (Some c) (code_read (Result.codes r) σ') = Some p ∧
               binary p ∧
               code_length (code_read (Result.codes r) σ') c
               = String.length p ∧
               1 ≤ String.length p ≤ (distinct data - 1) `max` 1) ∧
    String.length data ≤ Result.compressedBits r ∧
    Result.compressedBits r
    ≤ String.length data * ((distinct data - 1) `max` 1).
Proof.
  intros Hne.
  destruct (compress_run data this σ Hne) as (t & _ & Hfull & Hlv & Hrun).
  pose proof (store_after_read data t this σ) as Hst.
  destruct (store_after data t this σ) as [[lf lc] σ'].
  destruct Hst as [_ Hlc].
  eexists _, _, _. split; [exact Hrun|].
  cbn [Result.encoded Result.compressedBits Result.codes]. rewrite Hlc.
  assert (internal_count t = distinct data - 1) as Hint.
  { pose proof (full_leaf_count t Hfull) as Hl.
    rewrite Hlv, length_fmap, length_freq_of in Hl. lia. }
  assert (Hsym : ∀ c, c ∈ chars data →
    ∃ p, JsMap.get (Some c) (code_table t) = Some p ∧ binary p ∧
         code_length (code_table t) c = String.length p ∧
         1 ≤ String.length p ≤ (distinct data - 1) `max` 1).
  { intros c Hc.
    destruct (code_of_symbol data t c Hlv Hc) as (p & Hp & Hpne & Hb & Hlen).
    exists p. unfold code_length. rewrite Hp. cbn [code_to_string].
    split_and!; [done..| |lia]. destruct p; [done|]. simpl. lia. }
  assert (Hbounds : Forall (λ c, 1 ≤ code_length (code_table t) c
                                 ≤ (distinct data - 1) `max` 1)
                           (chars data)).
  { apply Forall_forall. intros c Hc.
    destruct (Hsym c Hc) as (p & _ & _ & -> & ?). done. }
  pose proof (sum_list_with_bounds _ _ _ _ Hbounds) as [Hlo Hhi].
  rewrite length_chars in Hlo, Hhi.
  split_and!; [|done|apply encode_with_length|done|..].
  - apply encode_with_binary, Forall_forall. intros c Hc.
    by destruct (code_of_symbol data t c Hlv Hc) as (p & -> & _ & Hb & _).
  - rewrite encode_with_length. lia.
  - rewrite encode_with_length. lia.
Qed.

(** X4. The number of compressed bits is the weighted length of the code
    table: the sum, over the entries of the frequency table, of the count
    of the symbol times the length of its code. *)
Theorem compressed_bits_weighted data this σ :
  data ≠ "" →
  ∃ r this' σ',
    HuffmanCoding.compress data this σ = Normal (Success r, this', σ') ∧
    Result.compressedBits r =
    sum_list_with
      (λ e, e.2 * code_length (code_read (Result.codes r) σ') e.1)
      (freq_read (Result.frequencies r) σ').
Proof.
  intros Hne.
  destruct (compress_run data this σ Hne) as (t & _ & _ & _ & Hrun).
  pose proof (store_after_read data t this σ) as Hst.
  destruct (store_after data t this σ) as [[lf lc] σ'].
  destruct Hst as [Hlf Hlc].
  eexists _, _, _. split; [exact Hrun|].
  cbn [Result.codes Result.frequencies Result.compressedBits].
  rewrite Hlf, Hlc, encode_with_length. unfold freq_of.
  rewrite weighted_count_fold. simpl. done.
Qed.
End ResultFacts.

(** ** Optimality of the code *)

Section DepthFacts.
#[local] Instance leaf_depths_proper : Proper ((≡ₚ) ==> iff) leaf_depths.
Proof.
  intros ds ds' Hp. split; intros H.
  - by apply (leaf_depths_perm ds).
  - by apply (leaf_depths_perm ds').
Qed.

Lemma leaf_depths_single ds : leaf_depths ds → length ds = 1 → ds = [0].
Proof.
  induction 1 as [|d ds _ _|ds ds' Hp _ IH]; intros Hlen; [done..|].
  rewrite <- Hp in Hlen. rewrite (IH Hlen) in Hp.
  symmetry. by apply Permutation_singleton_l.
Qed.

(** A tree with two or more leaves has two sibling leaves at its greatest
    depth. *)
Lemma leaf_depths_deepest ds :
  leaf_depths ds → 2 ≤ length ds →
  ∃ d ds', ds ≡ₚ S d :: S d :: ds' ∧ leaf_depths (d :: ds') ∧
           Forall (λ e, e ≤ S d) ds.
Proof.
  induction 1 as [|d ds H IH|ds ds' Hp _ IH]; intros Hlen.
  - simpl in Hlen. lia.
  - destruct ds as [|e ds0].
    { apply leaf_depths_single in H as [= ->]; [|done].
      exists 0, []. split_and!; [done|constructor|].
      repeat constructor. }
    destruct IH as (m & ds1 & Hp & Hk & Hall); [simpl; lia|].
    pose proof (Forall_inv Hall) as Hd. cbn beta in Hd.
    destruct (decide (d = S m)) as [->|Hne].
    + exists (S m), (e :: ds0). split_and!; [done..|].
      repeat (apply Forall_cons; split; [lia|]).
      eapply Forall_impl; [exact (Forall_inv_tail Hall)|]. simpl. lia.
    + assert (d ∈ ds1) as [ds2 Hds2]%elem_of_Permutation.
      { assert (d ∈ S m :: S m :: ds1) as Hin.
        { rewrite <- Hp. left. }
        rewrite !elem_of_cons in Hin. destruct Hin as [?|[?|?]]; done. }
      assert (e :: ds0 ≡ₚ S m :: S m :: ds2) as Hrest.
      { apply (inj (d ::.)). rewrite Hp, Hds2. symmetry.
        apply (Permutation_middle [S m; S m] ds2 d). }
      exists m, (S d :: S d :: ds2). split_and!.
      * rewrite Hrest.
        apply (Permutation_app_swap_app [S d; S d] [S m; S m] ds2).
      * rewrite Hds2, (Permutation_swap d m) in Hk.
        apply leaf_depths_split in Hk.
        eapply leaf_depths_perm; [|exact Hk]. symmetry.
        apply (Permutation_middle [S d; S d] ds2 m).
      * repeat (apply Forall_cons; split; [lia|]).
        exact (Forall_inv_tail Hall).
  - destruct IH as (d & ds1 & Hp1 & Hk & Hall); [by rewrite Hp|].
    exists d, ds1. by rewrite <- Hp.
Qed.

(** A tree takes the place of a leaf of another tree. *)
Lemma leaf_depths_graft ds :
  leaf_depths ds → ∀ d ctx,
  leaf_depths (d :: ctx) → leaf_depths (((λ x, x + d) <$> ds) ++ ctx).
Proof.
  induction 1 as [|e ds _ IH|ds ds' Hp _ IH]; intros d ctx Hctx.
  - done.
  - rewrite !fmap_cons. cbn [app Nat.add].
    apply leaf_depths_split. by apply IH.
  - rewrite <- Hp. by apply IH.
Qed.

Lemma leaf_depths_join ds1 ds2 :
  leaf_depths ds1 → leaf_depths ds2 →
  leaf_depths ((S <$> ds1) ++ (S <$> ds2)).
Proof.
  intros H1 H2.
  assert (∀ ds : list nat, S <$> ds = (λ x, x + 1) <$> ds) as Hs.
  { intros ds. apply list_fmap_ext. intros ???. lia. }
  rewrite !Hs.
  pose proof (leaf_depths_split 0 [] leaf_depths_root) as H0.
  pose proof (leaf_depths_graft ds1 H1 1 [1] H0) as H3.
  rewrite Permutation_app_comm in H3. cbn [app] in H3.
  pose proof (leaf_depths_graft ds2 H2 1 _ H3) as H4.
  by rewrite Permutation_app_comm.
Qed.

(** Moving the least weight to a leaf of the greatest depth does not
    increase the weighted length. *)
Lemma exchange_least (qs : list (nat * nat)) x D a :
  Forall (λ e, e ≤ D) qs.*2 →
  a ∈ x :: qs.*1 → a ≤ x →
  ∃ qs', qs'.*2 ≡ₚ qs.*2 ∧ a :: qs'.*1 ≡ₚ x :: qs.*1 ∧
         cost ((a, D) :: qs') ≤ cost ((x, D) :: qs).
Proof.
  intros Hall Hin Hax.
  destruct (decide (a = x)) as [->|Hne]; [by exists qs|].
  apply elem_of_cons in Hin as [?|Hin]; [done|].
  apply list_elem_of_fmap in Hin as ([a' da] & -> & Hin).
  pose proof Hin as [qs0 Hqs]%elem_of_Permutation.
  rewrite Forall_forall in Hall. specialize (Hall da).
  cbn [fst snd] in *.
  assert (da ≤ D) as Hda.
  { apply Hall, list_elem_of_fmap. by exists (a', da). }
  exists ((x, da) :: qs0). unfold cost. rewrite Hqs.
  rewrite !fmap_cons. cbn [fst snd sum_list_with]. split_and!.
  - done.
  - apply Permutation_swap.
  - nia.
Qed.

Lemma fmap_snd_cons_inv (ps : list (nat * nat)) d ds :
  ps.*2 ≡ₚ d :: ds → ∃ x ps', ps ≡ₚ (x, d) :: ps' ∧ ps'.*2 ≡ₚ ds.
Proof.
  intros Hp.
  assert (d ∈ ps.*2) as ([x d'] & -> & Hin)%list_elem_of_fmap.
  { rewrite Hp. left. }
  apply elem_of_Permutation in Hin as [ps' Hps].
  exists x, ps'. split; [done|].
  apply (inj (d' ::.)). by rewrite <- Hp, Hps.
Qed.

(** The step of the optimality argument: a code tree for weights whose two
    least are [a] and [b] gives a code tree for the weights with [a + b] in
    their place, and that tree is cheaper by [a + b] at least. *)
Lemma contract_two_least (ps : list (nat * nat)) a b rest :
  leaf_depths ps.*2 →
  ps.*1 ≡ₚ a :: b :: rest →
  Forall (λ x, a ≤ x) (b :: rest) → Forall (λ x, b ≤ x) rest →
  ∃ ps', leaf_depths ps'.*2 ∧ ps'.*1 ≡ₚ (a + b) :: rest ∧
         cost ps' + a + b ≤ cost ps.
Proof.
  intros Hk Hw Ha Hb.
  destruct (leaf_depths_deepest _ Hk) as (d & ds' & Hp & Hk' & Hall).
  { rewrite length_fmap, <- (length_fmap fst), Hw. simpl. lia. }
  destruct (fmap_snd_cons_inv _ _ _ Hp) as (x & ps1 & Hps & Hps1).
  destruct (fmap_snd_cons_inv _ _ _ Hps1) as (y & ps2 & Hps1' & Hps2).
  assert (Forall (λ x, a ≤ x) ps.*1) as Hmin.
  { rewrite Hw. apply Forall_cons. split; [lia|done]. }
  (* the least weight goes to the first of the two siblings *)
  rewrite Hps in Hall, Hmin, Hw.
  rewrite fmap_cons in Hall, Hmin, Hw. cbn [fst snd] in Hall, Hmin, Hw.
  destruct (exchange_least ps1 x (S d) a) as (qs1 & Hd1 & Hw1 & Hc1).
  { exact (Forall_inv_tail Hall). }
  { rewrite Hw. left. }
  { exact (Forall_inv Hmin). }
  assert (qs1.*1 ≡ₚ b :: rest) as Hw1'.
  { apply (inj (a ::.)). by rewrite Hw1. }
  (* the second least weight goes to the other sibling *)
  assert (Forall (λ e, e ≤ S d) qs1.*2) as Hall1.
  { rewrite Hd1. exact (Forall_inv_tail Hall). }
  rewrite Hps1', fmap_cons in Hd1. cbn [snd] in Hd1.
  destruct (fmap_snd_cons_inv _ _ _ Hd1) as (y' & qs2 & Hqs1 & Hqs2).
  rewrite Hqs1, fmap_cons in Hw1', Hall1. cbn [fst snd] in Hw1', Hall1.
  destruct (exchange_least qs2 y' (S d) b) as (qs3 & Hd3 & Hw3 & Hc3).
  { exact (Forall_inv_tail Hall1). }
  { rewrite Hw1'. left. }
  { assert (Forall (λ x, b ≤ x) (y' :: qs2.*1)) as Hb'.
    { rewrite Hw1'. apply Forall_cons. split; [lia|done]. }
    exact (Forall_inv Hb'). }
  exists ((a + b, d) :: qs3). split_and!.
  - rewrite fmap_cons. cbn [snd]. by rewrite Hd3, Hqs2, Hps2.
  - rewrite fmap_cons. cbn [fst]. f_equiv.
    apply (inj (b ::.)). by rewrite Hw3.
  - unfold cost in *. rewrite Hps. rewrite Hqs1 in Hc1.
    cbn [sum_list_with fst snd] in *. nia.
Qed.
End DepthFacts.

Section OptimalTree.
Import HuffmanNode MinHeap.
#[local] Existing Instance leaf_depths_proper.

Lemma full_weight n : full n → sum_list (leaves n).*2 = frequency n.
Proof.
  induction n as [c f l r IHl IHr] using node_ind'.
  destruct l as [ln|], r as [rn|]; simpl; try done.
  intros [[Hf%bool_decide_unpack Hl]%andb_True Hr]%andb_True.
  rewrite fmap_app, sum_list_with_app.
  rewrite (IHl ln eq_refl Hl), (IHr rn eq_refl Hr). lia.
Qed.

Lemma build_heap_ordered entries : ∀ h0,
  heap_ordered h0 →
  ∃ h, for_of (λ heap '(char, freq),
                 insert heap (HuffmanNode.new (Some char) freq)) h0 entries
       = Normal h ∧
       h ≡ₚ (leaf_of <$> entries) ++ h0 ∧ heap_ordered h.
Proof.
  induction entries as [|[c f] entries IH]; intros h0 Ho; cbn [for_of].
  - by exists h0.
  - destruct (insert_spec h0 (HuffmanNode.new (Some c) f))
      as (h1 & -> & Hperm & Hord). step_bind.
    destruct (IH h1 (Hord Ho)) as (h & -> & Hp & Ho'). exists h.
    split_and!; [done| |done].
    rewrite Hp, Hperm, fmap_cons. by rewrite <- Permutation_middle.
Qed.

(** The merging loop is greedy: whatever code tree is proposed for the
    weights of the nodes in the heap, the tree that the loop builds from
    them has no greater weighted path length. *)
Lemma merge_loop_optimal fuel : ∀ h,
  length h ≤ fuel → h ≠ [] → heap_ordered h → Forall full h →
  ∃ t, HuffmanCoding.merge_loop fuel h = Normal [t] ∧
       ∀ ps, leaf_depths ps.*2 → ps.*1 ≡ₚ frequency <$> h →
             weighted_depth t ≤ sum_list_with weighted_depth h + cost ps.
Proof.
  induction fuel as [|fuel IH]; intros h Hlen Hne Ho Hfull.
  { destruct h; [done|simpl in Hlen; lia]. }
  cbn [HuffmanCoding.merge_loop]. unfold size.
  case_decide as Hsz.
  2:{ destruct h as [|t [|??]]; [done| |simpl in Hsz; lia].
      exists t. split; [done|]. intros ps _ _. simpl. lia. }
  destruct (extractMin_spec h) as (l & h1 & -> & Hp1 & Hord1); [done|].
  step_bind. cbn beta iota.
  destruct (Hord1 Ho) as [Ho1 Hmin1].
  pose proof (Permutation_length Hp1) as Hl1. cbn [length] in Hl1.
  destruct (extractMin_spec h1) as (r & h2 & -> & Hp2 & Hord2).
  { intros ->. simpl in Hl1. lia. }
  step_bind. cbn beta iota.
  destruct (Hord2 Ho1) as [Ho2 Hmin2].
  pose proof (Permutation_length Hp2) as Hl2. cbn [length] in Hl2.
  set (parent := Build None (frequency l + frequency r) (Some l) (Some r)).
  destruct (insert_spec h2 parent) as (h3 & -> & Hp3 & Hord3). step_bind.
  pose proof (Permutation_length Hp3) as Hl3. cbn [length] in Hl3.
  rewrite Hp1, Hp2 in Hfull.
  apply Forall_cons in Hfull as [Hfl Hfull].
  apply Forall_cons in Hfull as [Hfr Hfull].
  destruct (IH h3) as (t & -> & Hopt); [lia| |by apply Hord3| |].
  { intros ->. simpl in Hl3. lia. }
  { rewrite Hp3. apply Forall_cons. split; [|done].
    simpl. rewrite !andb_True.
    split_and!; [by apply bool_decide_pack|done..]. }
  exists t. split; [done|]. intros ps Hk Hw.
  rewrite Hp1, Hp2, !fmap_cons in Hw.
  destruct (contract_two_least ps (frequency l) (frequency r)
              (frequency <$> h2) Hk Hw) as (ps' & Hk' & Hw' & Hcost).
  { rewrite Hp1, Hp2 in Hmin1. apply Forall_cons in Hmin1 as [_ Hmin1].
    change (Forall (λ x, frequency l ≤ x) (frequency <$> r :: h2)).
    apply Forall_fmap. exact Hmin1. }
  { rewrite Hp2 in Hmin2. apply Forall_cons in Hmin2 as [_ Hmin2].
    apply Forall_fmap. exact Hmin2. }
  specialize (Hopt ps' Hk').
  rewrite Hp3, fmap_cons in Hopt. specialize (Hopt Hw').
  rewrite Hp1, Hp2. cbn [sum_list_with] in Hopt |- *.
  assert (weighted_depth parent =
          weighted_depth l + frequency l + (weighted_depth r + frequency r))
    as Hparent.
  { cbn [weighted_depth parent]. by rewrite !full_weight. }
  lia.
Qed.

(** The tree of a frequency table has the least weighted path length among
    all code trees for the counts of the table. *)
Lemma tree_of_optimal entries :
  entries ≠ [] →
  ∃ t, tree_of entries = Normal (Some t) ∧
       ∀ ps, leaf_depths ps.*2 → ps.*1 ≡ₚ entries.*2 →
             weighted_depth t ≤ cost ps.
Proof.
  intros Hne. unfold tree_of.
  destruct (build_heap_ordered entries MinHeap.new) as (h & -> & Hp & Ho).
  { intros i x c Hx. by destruct i. }
  step_bind. rewrite app_nil_r in Hp.
  destruct (merge_loop_optimal (length h) h) as (t & -> & Hopt);
    [done| |done| |].
  { intros ->. apply Permutation_nil_l in Hp.
    by destruct entries. }
  { rewrite Hp. apply Forall_fmap, Forall_true. intros e. apply full_leaf_of. }
  step_bind. exists t. split; [done|]. intros ps Hk Hw.
  assert (sum_list_with weighted_depth h = 0) as Hz.
  { rewrite Hp. clear. induction entries as [|e es IH]; [done|].
    rewrite fmap_cons. cbn [sum_list_with]. by rewrite IH. }
  assert (frequency <$> h ≡ₚ entries.*2) as Hf.
  { rewrite Hp, <- list_fmap_compose. done. }
  specialize (Hopt ps Hk). rewrite Hf, Hz in Hopt. by apply Hopt.
Qed.
End OptimalTree.

Section TableLink.
Import HuffmanNode.
#[local] Existing Instance leaf_depths_proper.

Lemma sum_list_with_ext_in {A} (f g : A → nat) (l : list A) :
  (∀ x, x ∈ l → f x = g x) → sum_list_with f l = sum_list_with g l.
Proof.
  induction l as [|x l IH]; intros H; [done|].
  cbn [sum_list_with]. rewrite (H x), IH; [done| |left].
  intros y Hy. apply H. by right.
Qed.

Lemma sum_list_with_fmap {A B} (f : B → nat) (g : A → B) (l : list A) :
  sum_list_with f (g <$> l) = sum_list_with (f ∘ g) l.
Proof.
  induction l as [|x l IH]; [done|].
  rewrite fmap_cons. cbn [sum_list_with]. by rewrite IH.
Qed.

Lemma get_app {K V} `{EqDecision K} (k : K) (m1 m2 : list (K * V)) :
  JsMap.get k (m1 ++ m2) =
  if decide (k ∈ m1.*1) then JsMap.get k m1 else JsMap.get k m2.
Proof.
  induction m1 as [|[k' v'] m1 IH]; cbn [app JsMap.get].
  - rewrite decide_False; [done|apply not_elem_of_nil].
  - rewrite fmap_cons. cbn [fst].
    destruct (decide (k' = k)) as [->|Hk].
    + rewrite decide_True; [done|left].
    + rewrite IH. destruct (decide (k ∈ m1.*1)) as [Hin|Hin].
      * rewrite decide_True; [done|by right].
      * rewrite decide_False; [done|].
        rewrite not_elem_of_cons. naive_solver.
Qed.

Lemma get_fmap_snd {K V} `{EqDecision K} (f : V → V) (k : K)
    (m : list (K * V)) :
  JsMap.get k ((λ e, (e.1, f e.2)) <$> m) = f <$> JsMap.get k m.
Proof.
  induction m as [|[k' v'] m IH]; [done|].
  rewrite fmap_cons. cbn [JsMap.get fst snd]. by case_decide.
Qed.

Lemma set_fresh {K V} `{EqDecision K} (k : K) (v : V) (m : list (K * V)) :
  k ∉ m.*1 → JsMap.set k v m = m ++ [(k, v)].
Proof.
  induction m as [|[k' v'] m IH]; [done|].
  rewrite fmap_cons, not_elem_of_cons. cbn [fst]. intros [Hk Hin].
  cbn [JsMap.set]. rewrite decide_False by done. by rewrite IH.
Qed.

Lemma set_all_NoDup es : ∀ m, NoDup (m ++ es).*1 → set_all m es = m ++ es.
Proof.
  induction es as [|[k v] es IH]; intros m Hnd; cbn [set_all foldl].
  - by rewrite app_nil_r.
  - cbn [fst snd]. rewrite set_fresh.
    + fold (set_all (m ++ [(k, v)]) es). rewrite IH.
      * by rewrite <- (assoc_L (++)).
      * by rewrite <- (assoc_L (++)).
    + rewrite fmap_app, fmap_cons in Hnd. cbn [fst] in Hnd.
      apply NoDup_app in Hnd as (_ & Hdis & _).
      intros Hin. apply (Hdis k Hin). left.
Qed.

Lemma code_table_paths t :
  isLeaf t = false → NoDup (leaves t).*1 → code_table t = paths t.
Proof.
  intros Hleaf Hnd. unfold code_table.
  rewrite code_entries_root, Hleaf. apply (set_all_NoDup (paths t) []).
  cbn [app]. by rewrite paths_keys.
Qed.

(** The weighted path length of a tree is the weighted length of its
    paths. *)
Lemma weighted_depth_paths t :
  full t → NoDup (leaves t).*1 →
  weighted_depth t =
  sum_list_with
    (λ e, e.2 * String.length (code_to_string (JsMap.get e.1 (paths t))))
    (leaves t).
Proof.
  induction t as [c f l r IHl IHr] using node_ind'.
  destruct l as [ln|], r as [rn|]; cbn [full]; try done.
  2:{ intros _ _. cbn. rewrite decide_True by done. simpl. lia. }
  intros [[_ Hl]%andb_True Hr]%andb_True Hnd.
  cbn [leaves] in Hnd. rewrite fmap_app in Hnd.
  apply NoDup_app in Hnd as (Hndl & Hdis & Hndr).
  cbn [weighted_depth leaves paths]. rewrite sum_list_with_app.
  rewrite (IHl ln eq_refl Hl Hndl), (IHr rn eq_refl Hr Hndr).
  assert (Hside : ∀ (b : ascii) (m : node) k,
    k ∈ (leaves m).*1 →
    String.length (code_to_string
      (JsMap.get k ((λ e, (e.1, String b e.2)) <$> paths m))) =
    S (String.length (code_to_string (JsMap.get k (paths m))))).
  { intros b m k Hk. rewrite (get_fmap_snd (String b)).
    rewrite <- paths_keys in Hk.
    apply get_is_Some in Hk as [p ->]. done. }
  assert (Hsum : ∀ (g : option ascii * nat → nat) l,
    sum_list_with (λ e, e.2 * S (g e)) l =
    sum_list_with (λ e, e.2 * g e) l + sum_list l.*2).
  { intros g l. induction l as [|e l IH]; [done|].
    rewrite fmap_cons. cbn [sum_list_with]. rewrite IH. simpl. lia. }
  rewrite <- !Hsum. f_equal; apply sum_list_with_ext_in; intros e He.
  - rewrite get_app, decide_True.
    + rewrite Hside; [done|]. apply list_elem_of_fmap. by exists e.
    + rewrite <- list_fmap_compose.
      change ((paths ln).*1) with (fst <$> paths ln).
      replace (fst ∘ (λ e0 : option ascii * string, (e0.1, String "0" e0.2)))
        with (@fst (option ascii) string) by done.
      rewrite paths_keys. apply list_elem_of_fmap. by exists e.
  - rewrite get_app, decide_False.
    + rewrite Hside; [done|]. apply list_elem_of_fmap. by exists e.
    + rewrite <- list_fmap_compose.
      replace (fst ∘ (λ e0 : option ascii * string, (e0.1, String "0" e0.2)))
        with (@fst (option ascii) string) by done.
      rewrite paths_keys. intros Hin. apply (Hdis e.1 Hin).
      apply list_elem_of_fmap. by exists e.
Qed.
End TableLink.

Section PrefixCodes.
Import HuffmanNode.
#[local] Existing Instance leaf_depths_proper.

Lemma prefix_free_empty (qs : list (nat * string)) w :
  prefix_free qs.*2 → (w, "") ∈ qs → qs = [(w, "")].
Proof.
  destruct qs as [|[w0 s0] qs]; [by intros _ ?%elem_of_nil|].
  rewrite fmap_cons. cbn [prefix_free snd]. intros [Hall _] Hin.
  destruct s0 as [|b s0].
  - destruct qs as [|[w1 s1] qs].
    + by apply list_elem_of_singleton in Hin as ->.
    + rewrite fmap_cons in Hall. apply Forall_inv in Hall as [Hp _].
      cbn [snd] in Hp. by destruct s1.
  - apply elem_of_cons in Hin as [?|Hin]; [done|].
    rewrite Forall_forall in Hall.
    destruct (Hall "") as [_ Hp]; [|done].
    apply list_elem_of_fmap. by exists (w, "").
Qed.

Lemma empty_code_cases (qs : list (nat * string)) :
  Forall (λ e, e.2 ≠ "") qs ∨ ∃ w, (w, "") ∈ qs.
Proof.
  induction qs as [|[w s] qs [IH|[w' IH]]].
  - by left.
  - destruct s as [|b s].
    + right. exists w. left.
    + left. by apply Forall_cons.
  - right. exists w'. by right.
Qed.

Lemma strip_shape b n (qs : list (nat * string)) :
  Forall (λ e, binary e.2 ∧ String.length e.2 ≤ S n) qs →
  Forall (λ e, binary e.2 ∧ String.length e.2 ≤ n) (strip b qs).
Proof.
  induction 1 as [|[w s] qs [Hb Hlen] _ IH]; [done|].
  unfold strip. cbn [omap list_omap fst snd].
  destruct s as [|b' s]; [done|].
  case_decide; [|done]. apply Forall_cons. split; [|done].
  cbn [snd]. split; [exact (Forall_inv_tail Hb)|simpl in Hlen; lia].
Qed.

Lemma strip_prefix_free b (qs : list (nat * string)) :
  prefix_free qs.*2 → prefix_free (strip b qs).*2.
Proof.
  induction qs as [|[w s] qs IH]; [done|].
  rewrite fmap_cons. cbn [prefix_free snd]. intros [Hall Hpf].
  unfold strip. cbn [omap list_omap fst snd].
  destruct s as [|b' s]; [by apply IH|].
  case_decide as Hb; [|by apply IH]. subst b'.
  rewrite fmap_cons. cbn [prefix_free snd]. split; [|by apply IH].
  clear IH Hpf. induction qs as [|[w1 s1] qs IH]; [done|].
  rewrite fmap_cons in Hall. apply Forall_cons in Hall as [[H1 H2] Hall].
  cbn [omap list_omap fst snd] in *.
  destruct s1 as [|b1 s1]; [by apply IH|].
  case_decide as Hb1; [|by apply IH]. subst b1.
  rewrite fmap_cons. apply Forall_cons. split; [|by apply IH].
  cbn [snd] in *. rewrite !prefix_cons, !decide_True in H1, H2 by done.
  done.
Qed.

Lemma strip_split (qs : list (nat * string)) :
  Forall (λ e, e.2 ≠ "" ∧ binary e.2) qs →
  qs.*1 ≡ₚ (strip "0" qs).*1 ++ (strip "1" qs).*1 ∧
  code_cost qs =
  code_cost (strip "0" qs) + sum_list (strip "0" qs).*1 +
  (code_cost (strip "1" qs) + sum_list (strip "1" qs).*1).
Proof.
  induction 1 as [|[w s] qs [Hne Hb] _ [IHp IHc]]; [done|].
  destruct s as [|b s]; [done|].
  pose proof (Forall_inv Hb) as Hbit. cbn beta in Hbit.
  unfold strip, code_cost in *. rewrite fmap_cons.
  cbn [omap list_omap fst snd sum_list_with String.length].
  destruct Hbit as [-> | ->].
  - rewrite decide_True, decide_False by done.
    rewrite fmap_cons. cbn [fst snd sum_list_with app String.length].
    split; [by f_equiv|]. rewrite IHc. simpl. lia.
  - rewrite decide_False, decide_True by done.
    rewrite fmap_cons. cbn [fst snd sum_list_with app String.length].
    split; [by rewrite <- Permutation_middle; f_equiv|].
    rewrite IHc. simpl. lia.
Qed.

Lemma cost_deepen (ps : list (nat * nat)) :
  cost ((λ e, (e.1, S e.2)) <$> ps) = cost ps + sum_list ps.*1.
Proof.
  unfold cost. induction ps as [|[w d] ps IH]; [done|].
  rewrite !fmap_cons. cbn [sum_list_with fst snd]. rewrite IH. simpl. lia.
Qed.

Lemma deepen_snd (ps : list (nat * nat)) :
  ((λ e, (e.1, S e.2)) <$> ps).*2 = S <$> ps.*2.
Proof. induction ps as [|e ps IH]; [done|]. by rewrite !fmap_cons, IH. Qed.

Lemma deepen_fst (ps : list (nat * nat)) :
  ((λ e, (e.1, S e.2)) <$> ps).*1 = ps.*1.
Proof. induction ps as [|e ps IH]; [done|]. by rewrite !fmap_cons, IH. Qed.

(** Every prefix-free binary code has a code tree that is no more
    expensive. *)
Lemma prefix_code_depths n : ∀ qs : list (nat * string),
  qs ≠ [] →
  Forall (λ e, binary e.2 ∧ String.length e.2 ≤ n) qs →
  prefix_free qs.*2 →
  ∃ ps, leaf_depths ps.*2 ∧ ps.*1 ≡ₚ qs.*1 ∧ cost ps ≤ code_cost qs.
Proof.
  induction n as [|n IH]; intros qs Hne Hall Hpf;
    (destruct (empty_code_cases qs) as [Hfull|[w Hw]];
     [|apply prefix_free_empty in Hw as ->; [|done];
       exists [(w, 0)]; split_and!; [constructor|done|done]]).
  { destruct qs as [|[w s] qs]; [done|].
    apply Forall_inv in Hall as [_ Hlen], Hfull.
    destruct s; [done|simpl in Hlen; lia]. }
  destruct (strip_split qs) as [Hw Hc].
  { rewrite Forall_forall in Hall, Hfull. apply Forall_forall.
    intros e He. split; [by apply Hfull|by apply Hall]. }
  pose proof (strip_shape "0" n qs Hall) as Hall0.
  pose proof (strip_shape "1" n qs Hall) as Hall1.
  pose proof (strip_prefix_free "0" qs Hpf) as Hpf0.
  pose proof (strip_prefix_free "1" qs Hpf) as Hpf1.
  destruct (decide (strip "0" qs = [])) as [H0|H0];
    destruct (decide (strip "1" qs = [])) as [H1|H1].
  - rewrite H0, H1 in Hw. apply Permutation_nil_r in Hw.
    by destruct qs.
  - destruct (IH _ H1 Hall1 Hpf1) as (ps & Hk & Hws & Hcs).
    exists ps. rewrite H0 in Hw, Hc. split_and!; [done| |].
    + by rewrite Hw.
    + rewrite Hc. cbn. lia.
  - destruct (IH _ H0 Hall0 Hpf0) as (ps & Hk & Hws & Hcs).
    exists ps. rewrite H1 in Hw, Hc. split_and!; [done| |].
    + by rewrite Hw, app_nil_r.
    + rewrite Hc. cbn. lia.
  - destruct (IH _ H0 Hall0 Hpf0) as (ps0 & Hk0 & Hws0 & Hcs0).
    destruct (IH _ H1 Hall1 Hpf1) as (ps1 & Hk1 & Hws1 & Hcs1).
    exists (((λ e, (e.1, S e.2)) <$> ps0) ++ ((λ e, (e.1, S e.2)) <$> ps1)).
    split_and!.
    + rewrite fmap_app, !deepen_snd. by apply leaf_depths_join.
    + rewrite fmap_app, !deepen_fst, Hw. by f_equiv.
    + unfold cost. rewrite sum_list_with_app.
      fold (cost ((λ e, (e.1, S e.2)) <$> ps0)).
      fold (cost ((λ e, (e.1, S e.2)) <$> ps1)).
      rewrite !cost_deepen, Hc, Hws0, Hws1. lia.
Qed.

Lemma prefix_free_fmap (code : ascii → string) (ks : list ascii) :
  NoDup ks →
  (∀ c1 c2, c1 ∈ ks → c2 ∈ ks → c1 ≠ c2 →
            String.prefix (code c1) (code c2) = false) →
  prefix_free (code <$> ks).
Proof.
  induction 1 as [|k ks Hk Hnd IH]; intros Hpf; [done|].
  rewrite fmap_cons. cbn [prefix_free]. split.
  - apply Forall_fmap, Forall_forall. intros k' Hk'.
    split; apply Hpf; try (by right); try left; by intros ->.
  - apply IH. intros c1 c2 H1 H2. apply Hpf; by right.
Qed.
End PrefixCodes.

Section Optimality.
Import HuffmanNode.

Lemma sum_list_with_mono {A} (f g : A → nat) (l : list A) :
  (∀ x, x ∈ l → f x ≤ g x) → sum_list_with f l ≤ sum_list_with g l.
Proof.
  induction l as [|x l IH]; intros H; [done|].
  cbn [sum_list_with].
  pose proof (H x ltac:(left)). 
  assert (sum_list_with f l ≤ sum_list_with g l); [|lia].
  apply IH. intros y Hy. apply H. by right.
Qed.

Lemma leaves_NoDup data t :
  leaves t ≡ₚ (λ e, (Some e.1, e.2)) <$> freq_of data →
  NoDup (leaves t).*1.
Proof.
  intros ->.
  assert (((λ e : ascii * nat, (Some e.1, e.2)) <$> freq_of data).*1
          = Some <$> (freq_of data).*1) as ->.
  { by rewrite <- !list_fmap_compose. }
  apply (NoDup_fmap_2 _), freq_of_NoDup.
Qed.

(** The number of bits of the encoded text is the weighted path length of
    the tree, when the tree is not a single leaf. *)
Lemma encode_with_weighted_depth data t :
  full t → isLeaf t = false →
  leaves t ≡ₚ (λ e, (Some e.1, e.2)) <$> freq_of data →
  String.length (encode_with (code_table t) data) = weighted_depth t.
Proof.
  intros Hfull Hleaf Hlv.
  pose proof (leaves_NoDup data t Hlv) as Hnd.
  rewrite encode_with_length.
  pose proof (weighted_count_fold (code_length (code_table t))
                (chars data) []) as Hsum.
  fold (freq_of data) in Hsum. cbn [sum_list_with Nat.add] in Hsum.
  rewrite <- Hsum. clear Hsum.
  rewrite weighted_depth_paths, Hlv, sum_list_with_fmap by done.
  rewrite code_table_paths by done. done.
Qed.

(** The weighted length of any code, counted over the input or over its
    frequency table. *)
Lemma code_cost_input (code : ascii → string) data :
  sum_list_with (λ c, String.length (code c)) (chars data) =
  code_cost ((λ e, (e.2, code e.1)) <$> freq_of data).
Proof.
  pose proof (weighted_count_fold (λ c, String.length (code c))
                (chars data) []) as Hsum.
  fold (freq_of data) in Hsum. cbn [sum_list_with Nat.add] in Hsum.
  rewrite <- Hsum. unfold code_cost. by rewrite sum_list_with_fmap.
Qed.

(** The code table of the tree is as cheap as any prefix-free code. *)
Lemma code_table_optimal data t (code : ascii → string) :
  data ≠ "" →
  tree_of (freq_of data) = Normal (Some t) → full t →
  leaves t ≡ₚ (λ e, (Some e.1, e.2)) <$> freq_of data →
  (∀ c, c ∈ chars data → code c ≠ "" ∧ binary (code c)) →
  (∀ c1 c2, c1 ∈ chars data → c2 ∈ chars data → c1 ≠ c2 →
            String.prefix (code c1) (code c2) = false) →
  sum_list_with (code_length (code_table t)) (chars data)
  ≤ sum_list_with (λ c, String.length (code c)) (chars data).
Proof.
  intros Hne Ht Hfull Hlv Hcode Hpf.
  destruct (isLeaf t) eqn:Hleaf.
  - (* one symbol: one bit for every occurrence *)
    apply sum_list_with_mono. intros c Hc.
    destruct (code_of_symbol data t c Hlv Hc) as (p & Hp & _ & _ & Hlen).
    unfold code_length. rewrite Hp. cbn [code_to_string].
    assert (internal_count t = 0) as Hint.
    { by destruct t as [? ? [?|] [?|]]. }
    destruct (Hcode c Hc) as [Hnonempty _].
    destruct (code c); [done|]. simpl. lia.
  - rewrite <- encode_with_length.
    rewrite (encode_with_weighted_depth data t) by done.
    rewrite code_cost_input.
    set (qs := (λ e, (e.2, code e.1)) <$> freq_of data).
    destruct (prefix_code_depths
                (sum_list_with (λ e, String.length e.2) qs) qs)
      as (ps & Hk & Hw & Hc).
    + unfold qs. intros Hnil%fmap_nil_inv. by apply (freq_of_nonempty data).
    + apply Forall_forall. intros e He. split.
      * apply list_elem_of_fmap in He as (e0 & -> & He0). cbn [snd].
        apply Hcode, elem_of_freq_of, list_elem_of_fmap. by exists e0.
      * exact (sum_list_with_in e (λ e, String.length e.2) qs He).
    + assert (qs.*2 = code <$> (freq_of data).*1) as ->.
      { unfold qs. by rewrite <- !list_fmap_compose. }
      apply prefix_free_fmap; [apply freq_of_NoDup|].
      intros c1 c2 H1%elem_of_freq_of H2%elem_of_freq_of. by apply Hpf.
    + destruct (tree_of_optimal (freq_of data) (freq_of_nonempty _ Hne))
        as (t' & Ht' & Hopt).
      rewrite Ht in Ht'. injection Ht' as <-.
      etrans; [apply (Hopt ps Hk)|done].
      rewrite Hw. unfold qs. by rewrite <- list_fmap_compose.
Qed.


(** X5. Optimality: among all prefix-free codes that give every symbol of
    the input a non-empty text of the digits 0 and 1, none encodes the
    input in fewer bits than [compress] does. *)
Theorem compress_optimal data this σ (code : ascii → string) :
  data ≠ "" →
  (∀ c, c ∈ chars data → code c ≠ "" ∧ binary (code c)) →
  (∀ c1 c2, c1 ∈ chars data → c2 ∈ chars data → c1 ≠ c2 →
            String.prefix (code c1) (code c2) = false) →
  ∃ r this' σ',
    HuffmanCoding.compress data this σ = Normal (Success r, this', σ') ∧
    Result.compressedBits r
    ≤ sum_list_with (λ c, String.length (code c)) (chars data).
Proof.
  intros Hne Hcode Hpf.
  destruct (compress_run data this σ Hne) as (t & Ht & Hfull & Hlv & Hrun).
  destruct (store_after data t this σ) as [[lf lc] σ'].
  eexists _, _, _. split; [exact Hrun|]. cbn [Result.compressedBits].
  rewrite encode_with_length. by apply code_table_optimal.
Qed.

Lemma bit_char_inj b b' : bit_char b = bit_char b' → b = b'.
Proof. by destruct b, b'. Qed.

Lemma fixed_code_inj c1 c2 : fixed_code c1 = fixed_code c2 → c1 = c2.
Proof.
  destruct c1 as [a0 a1 a2 a3 a4 a5 a6 a7], c2 as [b0 b1 b2 b3 b4 b5 b6 b7].
  cbn [fixed_code].
  intros [= H7%bit_char_inj H6%bit_char_inj H5%bit_char_inj H4%bit_char_inj
            H3%bit_char_inj H2%bit_char_inj H1%bit_char_inj H0%bit_char_inj].
  congruence.
Qed.

Lemma fixed_code_shape c :
  String.length (fixed_code c) = 8 ∧ fixed_code c ≠ "" ∧
  binary (fixed_code c).
Proof.
  destruct c as [b0 b1 b2 b3 b4 b5 b6 b7]. split_and!; [done..|].
  assert (∀ b, is_bit (bit_char b)) as Hb.
  { intros []; [by right|by left]. }
  cbn [fixed_code]. repeat (apply Forall_cons; split; [apply Hb|]).
  apply Forall_nil_2.
Qed.

Lemma prefix_same_length : ∀ s1 s2 : string,
  String.prefix s1 s2 = true → String.length s1 = String.length s2 →
  s1 = s2.
Proof.
  induction s1 as [|x s1 IH]; intros [|y s2]; try done.
  rewrite prefix_cons. case_decide as Hxy; [|done]. subst y.
  intros Hp [= Hl]. f_equal. by apply IH.
Qed.

(** X20. [compress] never expands a text of Latin-1 characters: the number
    of compressed bits is at most the number of bits of the fixed code of
    eight bits for every character, which is [originalBits]. *)
Theorem compress_never_expands data this σ :
  data ≠ "" →
  ∃ r this' σ',
    HuffmanCoding.compress data this σ = Normal (Success r, this', σ') ∧
    Result.compressedBits r ≤ Result.originalBits r.
Proof.
  intros Hne.
  destruct (compress_run data this σ Hne) as (t & Ht & Hfull & Hlv & Hrun).
  destruct (store_after data t this σ) as [[lf lc] σ'].
  eexists _, _, _. split; [exact Hrun|].
  cbn [Result.compressedBits Result.originalBits].
  rewrite encode_with_length.
  etrans; [apply (code_table_optimal data t fixed_code); try done|].
  - intros c _. by destruct (fixed_code_shape c) as (_ & ? & ?).
  - intros c1 c2 _ _ Hc.
    destruct (String.prefix (fixed_code c1) (fixed_code c2)) eqn:Hp; [|done].
    apply prefix_same_length in Hp.
    + by apply fixed_code_inj in Hp.
    + destruct (fixed_code_shape c1) as [-> _].
      by destruct (fixed_code_shape c2) as [-> _].
  - rewrite <- length_chars.
    induction (chars data) as [|c l IH]; [done|].
    cbn [sum_list_with length].
    destruct (fixed_code_shape c) as [-> _]. lia.
Qed.

Lemma swap_code_sum (len : ascii → nat) (a b : ascii) (l : list ascii) :
  a ≠ b →
  sum_list_with (λ c, if decide (c = a) then len b
                      else if decide (c = b) then len a else len c) l
  + occurrences a l * len a + occurrences b l * len b
  = sum_list_with len l
    + occurrences a l * len b + occurrences b l * len a.
Proof.
  intros Hab. induction l as [|c l IH]; [done|].
  rewrite !occurrences_cons. cbn [sum_list_with].
  destruct (decide (c = a)) as [->|Hca].
  - rewrite (decide_False (P := a = b)) by done. lia.
  - destruct (decide (c = b)) as [->|Hcb]; lia.
Qed.

Lemma occurrences_pos c l : 0 < occurrences c l ↔ c ∈ l.
Proof.
  induction l as [|x l IH].
  - rewrite elem_of_nil. cbn. lia.
  - rewrite occurrences_cons, elem_of_cons. case_decide; [|naive_solver].
    subst. split; [by left|lia].
Qed.

(** X21. Frequent symbols get short codes: when a symbol occurs more often
    in the input than another symbol of the input, its code is not longer
    than the other's. *)
Theorem frequent_symbols_short_codes data this σ a b :
  0 < occurrences b (chars data) →
  occurrences b (chars data) < occurrences a (chars data) →
  ∃ r this' σ',
    HuffmanCoding.compress data this σ = Normal (Success r, this', σ') ∧
    code_length (code_read (Result.codes r) σ') a
    ≤ code_length (code_read (Result.codes r) σ') b.
Proof.
  intros Hb Hab.
  assert (b ∈ chars data) as Hbin by by apply occurrences_pos.
  assert (a ∈ chars data) as Hain by (apply occurrences_pos; lia).
  assert (a ≠ b) as Hne_ab by (intros ->; lia).
  assert (data ≠ "") as Hne by (intros ->; by apply elem_of_nil in Hbin).
  destruct (compress_run data this σ Hne) as (t & Ht & Hfull & Hlv & Hrun).
  pose proof (store_after_read data t this σ) as Hst.
  destruct (store_after data t this σ) as [[lf lc] σ'].
  destruct Hst as [_ Hlc].
  eexists _, _, _. split; [exact Hrun|]. cbn [Result.codes]. rewrite Hlc.
  set (len := code_length (code_table t)).
  set (code := λ c, code_to_string (JsMap.get (Some c) (code_table t))).
  pose proof (code_table_optimal data t (swap_code code a b) Hne Ht Hfull Hlv)
    as Hopt.
  assert (Hswap_in : ∀ c, c ∈ chars data →
    ∃ c', c' ∈ chars data ∧ swap_code code a b c = code c' ∧
          (c' = (if decide (c = a) then b else if decide (c = b) then a
                 else c))).
  { intros c Hc. unfold swap_code.
    destruct (decide (c = a)); [by exists b|].
    destruct (decide (c = b)); [by exists a|by exists c]. }
  assert (Hcode : ∀ c, c ∈ chars data →
    ∃ p, JsMap.get (Some c) (code_table t) = Some p ∧ code c = p ∧
         p ≠ "" ∧ binary p).
  { intros c Hc.
    destruct (code_of_symbol data t c Hlv Hc) as (p & Hp & ? & ? & _).
    exists p. unfold code. by rewrite Hp. }
  assert (Hshape : ∀ c, c ∈ chars data →
    swap_code code a b c ≠ "" ∧ binary (swap_code code a b c)).
  { intros c Hc. destruct (Hswap_in c Hc) as (c' & Hc' & -> & _).
    destruct (Hcode c' Hc') as (p & _ & -> & ? & ?). done. }
  assert (Hfree : ∀ c1 c2, c1 ∈ chars data → c2 ∈ chars data → c1 ≠ c2 →
    String.prefix (swap_code code a b c1) (swap_code code a b c2) = false).
  { intros c1 c2 H1 H2 Hc.
    destruct (Hswap_in c1 H1) as (c1' & H1' & -> & E1).
    destruct (Hswap_in c2 H2) as (c2' & H2' & -> & E2).
    destruct (Hcode c1' H1') as (p1 & Hg1 & -> & _).
    destruct (Hcode c2' H2') as (p2 & Hg2 & -> & _).
    apply (code_table_prefix_free t (Some c1') (Some c2')); [|done..].
    intros [= Heq]. apply Hc. subst c1' c2'.
    repeat case_decide; congruence. }
  specialize (Hopt Hshape Hfree).
  pose proof (swap_code_sum len a b (chars data) Hne_ab) as Hsum.
  assert (sum_list_with (λ c, String.length (swap_code code a b c))
            (chars data) =
          sum_list_with (λ c, if decide (c = a) then len b
                              else if decide (c = b) then len a else len c)
            (chars data)) as Heq.
  { apply sum_list_with_ext_in. intros c _. unfold swap_code.
    by repeat case_decide. }
  rewrite Heq in Hopt. fold len in Hopt. nia.
Qed.
End Optimality.

(** ** Calls in sequence *)

Section SequenceFacts.
Import HuffmanNode MinHeap.

Lemma compress_frame data this σ :
  ∃ o this' σ',
    HuffmanCoding.compress data this σ = Normal (o, this', σ') ∧
    HuffmanCoding.frequencies this' = HuffmanCoding.frequencies this ∧
    HuffmanCoding.codes this' = HuffmanCoding.codes this ∧
    (∀ l, l ≠ HuffmanCoding.frequencies this →
          is_Some ((freqMaps σ) !! l) →
          (freqMaps σ') !! l = (freqMaps σ) !! l) ∧
    (∀ l, l ≠ HuffmanCoding.codes this →
          is_Some ((codeMaps σ) !! l) →
          (codeMaps σ') !! l = (codeMaps σ) !! l).
Proof.
  destruct (decide (data = "")) as [->|Hne].
  { eexists _, _, _. split; [reflexivity|]. by split_and!. }
  destruct (compress_run data this σ Hne) as (t & _ & _ & _ & Hrun).
  pose proof (store_after_spec data t this σ) as Hst.
  destruct (store_after data t this σ) as [[lf lc] σ'].
  destruct Hst as (_ & (Hlf & _ & Hlc & _) & Hff & Hfc).
  eexists _, _, _. split; [exact Hrun|]. split_and!; [done..| |].
  - intros l Hl Hin. apply Hff; [|done]. intros ->.
    by apply Hlf, elem_of_dom.
  - intros l Hl Hin. apply Hfc; [|done]. intros ->.
    by apply Hlc, elem_of_dom.
Qed.

(** X6. Whatever the object and the store held before, [compress] of the
    same non-empty input gives the same encoded text, the same tree, the
    same bit counts and maps with the same entries: nothing of an earlier
    call leaks into a result. *)
Theorem compress_ignores_history data this1 σ1 this2 σ2 :
  data ≠ "" →
  ∃ r1 this1' σ1' r2 this2' σ2',
    HuffmanCoding.compress data this1 σ1 = Normal (Success r1, this1', σ1') ∧
    HuffmanCoding.compress data this2 σ2 = Normal (Success r2, this2', σ2') ∧
    Result.encoded r1 = Result.encoded r2 ∧
    Result.tree r1 = Result.tree r2 ∧
    Result.originalBits r1 = Result.originalBits r2 ∧
    Result.compressedBits r1 = Result.compressedBits r2 ∧
    freq_read (Result.frequencies r1) σ1'
    = freq_read (Result.frequencies r2) σ2' ∧
    code_read (Result.codes r1) σ1' = code_read (Result.codes r2) σ2'.
Proof.
  intros Hne.
  destruct (compress_run data this1 σ1 Hne) as (t1 & Ht1 & _ & _ & Hrun1).
  destruct (compress_run data this2 σ2 Hne) as (t2 & Ht2 & _ & _ & Hrun2).
  assert (t2 = t1) as -> by congruence.
  pose proof (store_after_read data t1 this1 σ1) as Hst1.
  pose proof (store_after_read data t1 this2 σ2) as Hst2.
  destruct (store_after data t1 this1 σ1) as [[lf1 lc1] σ1'].
  destruct (store_after data t1 this2 σ2) as [[lf2 lc2] σ2'].
  destruct Hst1 as [Hf1 Hc1], Hst2 as [Hf2 Hc2].
  eexists _, _, _, _, _, _. split; [exact Hrun1|]. split; [exact Hrun2|].
  cbn [Result.encoded Result.tree Result.originalBits Result.compressedBits
       Result.frequencies Result.codes].
  by rewrite Hf1, Hf2, Hc1, Hc2.
Qed.

(** X7. A sequence of [compress] calls on one object, successful or not,
    never throws, keeps the object's two map locations, and leaves every
    other map of the store (the maps of all earlier results among them) in
    place with its entries. *)
Theorem compress_all_frame inputs this σ :
  ∃ this' σ',
    compress_all inputs (this, σ) = Normal (this', σ') ∧
    HuffmanCoding.frequencies this' = HuffmanCoding.frequencies this ∧
    HuffmanCoding.codes this' = HuffmanCoding.codes this ∧
    (∀ l, l ≠ HuffmanCoding.frequencies this →
          is_Some ((freqMaps σ) !! l) →
          (freqMaps σ') !! l = (freqMaps σ) !! l) ∧
    (∀ l, l ≠ HuffmanCoding.codes this →
          is_Some ((codeMaps σ) !! l) →
          (codeMaps σ') !! l = (codeMaps σ) !! l).
Proof.
  unfold compress_all. revert this σ.
  induction inputs as [|d inputs IH]; intros this σ; cbn [for_of].
  { exists this, σ. by split_and!. }
  destruct (compress_frame d this σ)
    as (o & this1 & σ1 & -> & Hf & Hc & Hff & Hfc).
  step_bind. cbn beta iota.
  destruct (IH this1 σ1) as (this' & σ' & -> & Hf' & Hc' & Hff' & Hfc').
  exists this', σ'. split_and!; [done|congruence..| |].
  - intros l Hl Hin. rewrite Hff', Hff; [done..| |].
    + by rewrite Hf.
    + by rewrite Hff.
  - intros l Hl Hin. rewrite Hfc', Hfc; [done..| |].
    + by rewrite Hc.
    + by rewrite Hfc.
Qed.
End SequenceFacts.

(** ** Decoding *)

Section DecodeCompose.
Import HuffmanNode.

Lemma decode_step_acc this acc out cur bit :
  HuffmanCoding.decode_step this (acc +:+ out, cur) bit =
  st ← HuffmanCoding.decode_step this (out, cur) bit;
  Normal (acc +:+ st.1, st.2).
Proof.
  unfold HuffmanCoding.decode_step.
  destruct cur as [cur|]; [|done]. step_bind.
  destruct (if decide (bit = "0"%char) then left cur else right cur)
    as [c|]; [|done].
  step_bind. destruct (isLeaf c); step_bind; cbn [fst snd]; [|done].
  by rewrite append_assoc.
Qed.

Lemma decode_loop_acc this l : ∀ acc out cur,
  for_of (HuffmanCoding.decode_step this) (acc +:+ out, cur) l =
  st ← for_of (HuffmanCoding.decode_step this) (out, cur) l;
  Normal (acc +:+ st.1, st.2).
Proof.
  induction l as [|bit l IH]; intros acc out cur; [done|].
  cbn [for_of]. rewrite decode_step_acc.
  destruct (HuffmanCoding.decode_step this (out, cur) bit) as [[out' cur']|];
    [|done].
  step_bind. cbn [fst snd]. apply IH.
Qed.

(** X9. Decoding resumes at a symbol boundary: when the bits [a] decode to
    [out] and leave the cursor at the root, decoding [a] followed by [b]
    gives [out] followed by the decoding of [b], and throws when decoding
    [b] throws. *)
Theorem decode_resumes a b this out :
  decode_run a this = Normal (out, HuffmanCoding.root this) →
  HuffmanCoding.decode (a +:+ b) this =
  s ← HuffmanCoding.decode b this; Normal (out +:+ s).
Proof.
  intros Ha. rewrite !decode_eq. unfold decode_run in *.
  rewrite chars_append, for_of_app, Ha. step_bind.
  rewrite <- (append_empty_r out) at 1. rewrite decode_loop_acc.
  by destruct (for_of _ _ (chars b)) as [[s cur]|].
Qed.

(** X12. An object that has not compressed anything has no tree: it decodes
    the empty text to the empty text and throws a TypeError on every other
    text. *)
Theorem decode_before_compress σ encoded :
  HuffmanCoding.decode encoded (HuffmanCoding.new σ).1
  = if decide (encoded = "") then Normal "" else TypeError.
Proof. by destruct encoded. Qed.

(** X8. The codec of an object after [compress] of an input with at least
    two distinct symbols: the encoded text of the result is what [encode]
    gives for the input, and every text over the symbols of the input,
    encoded with the object's code table, decodes to itself against the
    object's tree. *)
Theorem codec_reuse data this σ :
  2 ≤ distinct data →
  ∃ r this' σ',
    HuffmanCoding.compress data this σ = Normal (Success r, this', σ') ∧
    Result.encoded r = HuffmanCoding.encode data this' σ' ∧
    ∀ text,
      (∀ c, c ∈ chars text → c ∈ chars data) →
      HuffmanCoding.decode (HuffmanCoding.encode text this' σ') this'
      = Normal text.
Proof.
  intros Hd.
  destruct (compress_run data this σ) as (t & _ & Hfull & Hlv & Hrun).
  { apply distinct_nonempty. lia. }
  pose proof (store_after_spec data t this σ) as Hst.
  destruct (store_after data t this σ) as [[lf lc] σ'].
  destruct Hst as ((_ & _ & _ & Hc) & _).
  eexists _, _, _. split; [exact Hrun|].
  assert (Htable : code_read (HuffmanCoding.codes
                                (HuffmanCoding.set_root (Some t) this)) σ'
                   = code_table t).
  { cbn [HuffmanCoding.set_root HuffmanCoding.codes].
    unfold code_read. by rewrite Hc. }
  cbn [Result.encoded]. rewrite !encode_eq, Htable. split; [done|].
  intros text Htext. rewrite encode_eq, Htable, decode_eq.
  unfold decode_run. cbn [HuffmanCoding.set_root HuffmanCoding.root].
  assert (isLeaf t = false) as Hleaf.
  { destruct (paths_cases t) as [[_ Hp]|[? _]]; [|done].
    apply (f_equal (fmap fst)) in Hp. rewrite paths_keys in Hp.
    apply (f_equal length) in Hp. rewrite length_fmap in Hp.
    rewrite Hlv, length_fmap, length_freq_of in Hp. simpl in Hp. lia. }
  unfold encode_with. rewrite foldl_append.
  change ("" +:+ ?s) with s.
  rewrite (decode_encode (HuffmanCoding.set_root (Some t) this) t);
    [|done..|].
  - step_bind. cbn [fst]. by rewrite string_of_chars.
  - apply Forall_forall. intros c Hc'.
    rewrite Hlv, <- list_fmap_compose.
    apply Htext, elem_of_freq_of, list_elem_of_fmap in Hc' as (e & -> & He).
    apply list_elem_of_fmap. by exists e.
Qed.
End DecodeCompose.


Section DecodeTotal.
Import HuffmanNode.

(** A node below which [decode] cannot get stuck: it has two children, and
    so has every node below it that is not a leaf. *)
Lemma full_children n :
  full n → isLeaf n = false →
  ∃ l r, left n = Some l ∧ right n = Some r ∧ full l ∧ full r ∧
         leaves n = leaves l ++ leaves r.
Proof.
  destruct n as [c f [l|] [r|]]; cbn [full isLeaf]; try done.
  intros [[_ Hl]%andb_True Hr]%andb_True _. by exists l, r.
Qed.

Lemma leaf_symbol n : isLeaf n = true → leaves n = [(char n, frequency n)].
Proof. by destruct n as [c f [l|] [r|]]. Qed.

Lemma decode_loop_total this t (symbols : list ascii) :
  HuffmanCoding.root this = Some t → full t → isLeaf t = false →
  (∀ k, k ∈ (leaves t).*1 → ∃ c, k = Some c ∧ c ∈ symbols) →
  ∀ bits n decoded,
    full n → isLeaf n = false → (leaves n).*1 ⊆ (leaves t).*1 →
    Forall (λ c, c ∈ symbols) (chars decoded) →
    ∃ out cur,
      for_of (HuffmanCoding.decode_step this) (decoded, Some n) bits
      = Normal (out, cur) ∧
      Forall (λ c, c ∈ symbols) (chars out).
Proof.
  intros Hroot Hfull Hleaf Hsym.
  induction bits as [|bit bits IH]; intros n decoded Hn Hnl Hsub Hdec.
  { by eexists _, _. }
  cbn [for_of HuffmanCoding.decode_step]. step_bind.
  destruct (full_children n Hn Hnl) as (l & r & Hl & Hr & Hfl & Hfr & Hlv).
  assert (∃ c, (if decide (bit = "0"%char) then left n else right n) = Some c
               ∧ full c ∧ (leaves c).*1 ⊆ (leaves t).*1)
    as (c & -> & Hfc & Hsubc).
  { rewrite Hlv, fmap_app in Hsub.
    case_decide; [exists l|exists r]; (split_and!; [done..|]);
      intros k Hk; apply Hsub, elem_of_app; auto. }
  step_bind. destruct (isLeaf c) eqn:Hc.
  - step_bind. rewrite Hroot. apply IH; [done..|].
    rewrite chars_append. apply Forall_app. split; [done|].
    destruct (Hsym (char c)) as (x & Hx & Hin).
    { apply Hsubc. rewrite (leaf_symbol c Hc). cbn. left. }
    rewrite Hx. cbn. by apply Forall_singleton.
  - step_bind. by apply IH.
Qed.

(** X10. After [compress] of an input with at least two distinct symbols,
    [decode] never throws: it returns a text for every text given as
    encoded bits (any character other than "0" is read as 1), and the text
    returned consists of symbols of the input. *)
Theorem decode_never_throws data this σ :
  2 ≤ distinct data →
  ∃ r this' σ',
    HuffmanCoding.compress data this σ = Normal (Success r, this', σ') ∧
    ∀ encoded, ∃ out,
      HuffmanCoding.decode encoded this' = Normal out ∧
      Forall (λ c, c ∈ chars data) (chars out).
Proof.
  intros Hd.
  destruct (compress_run data this σ) as (t & _ & Hfull & Hlv & Hrun).
  { apply distinct_nonempty. lia. }
  destruct (store_after data t this σ) as [[lf lc] σ'].
  eexists _, _, _. split; [exact Hrun|]. intros encoded.
  assert (isLeaf t = false) as Hleaf.
  { destruct (paths_cases t) as [[_ Hp]|[? _]]; [|done].
    apply (f_equal (fmap fst)) in Hp. rewrite paths_keys in Hp.
    apply (f_equal length) in Hp. rewrite length_fmap in Hp.
    rewrite Hlv, length_fmap, length_freq_of in Hp. simpl in Hp. lia. }
  rewrite decode_eq. unfold decode_run.
  cbn [HuffmanCoding.set_root HuffmanCoding.root].
  destruct (decode_loop_total (HuffmanCoding.set_root (Some t) this) t
              (chars data) eq_refl Hfull Hleaf) with
    (bits := chars encoded) (n := t) (decoded := "")
    as (out & cur & Hout & Hsyms); [|done..|apply Forall_nil_2|].
  - intros k Hk. rewrite Hlv, <- list_fmap_compose in Hk.
    apply list_elem_of_fmap in Hk as (e & -> & He). exists e.1.
    split; [done|]. apply elem_of_freq_of, list_elem_of_fmap. by exists e.
  - cbn [HuffmanCoding.set_root HuffmanCoding.root] in Hout.
    rewrite Hout. by exists out.
Qed.

(** X11. After [compress] of an input with one distinct symbol the tree is
    a single leaf, and [decode] throws a TypeError on every text that is
    not empty, the encoded text of the result among them. *)
Theorem decode_single_symbol_throws data this σ :
  distinct data = 1 →
  ∃ r this' σ',
    HuffmanCoding.compress data this σ = Normal (Success r, this', σ') ∧
    Result.encoded r ≠ "" ∧
    HuffmanCoding.decode (Result.encoded r) this' = TypeError ∧
    ∀ encoded, encoded ≠ "" →
               HuffmanCoding.decode encoded this' = TypeError.
Proof.
  intros Hd.
  assert (data ≠ "") as Hne by (apply distinct_nonempty; lia).
  destruct (compress_run data this σ Hne) as (t & _ & Hfull & Hlv & Hrun).
  destruct (store_after data t this σ) as [[lf lc] σ'].
  eexists _, _, _. split; [exact Hrun|]. cbn [Result.encoded].
  assert (left t = None) as Hleft.
  { pose proof (full_leaf_count t Hfull) as Hl.
    rewrite Hlv, length_fmap, length_freq_of, Hd in Hl.
    destruct t as [c f [l|] [r|]]; cbn in Hl |- *; done. }
  assert (right t = None) as Hright.
  { destruct t as [c f [l|] [r|]]; cbn in Hfull, Hleft |- *; done. }
  assert (Hthrow : ∀ encoded, encoded ≠ "" →
    HuffmanCoding.decode encoded (HuffmanCoding.set_root (Some t) this)
    = TypeError).
  { intros [|bit rest] He; [done|].
    unfold HuffmanCoding.decode.
    change (chars (String bit rest)) with (bit :: chars rest).
    cbn [for_of HuffmanCoding.decode_step HuffmanCoding.set_root
         HuffmanCoding.root]. step_bind.
    rewrite Hleft, Hright. by case_decide. }
  assert (encode_with (code_table t) data ≠ "") as Henc.
  { intros Henc. apply (f_equal String.length) in Henc.
    rewrite encode_with_length in Henc. simpl in Henc.
    destruct data as [|c data]; [done|].
    change (chars (String c data)) with (c :: chars data) in Henc.
    cbn [sum_list_with] in Henc.
    destruct (code_of_symbol (String c data) t c Hlv) as (p & Hp & Hpne & _).
    { left. }
    unfold code_length in Henc. rewrite Hp in Henc.
    cbn [code_to_string] in Henc. destruct p; [done|simpl in Henc; lia]. }
  split_and!; [done| |done]. by apply Hthrow.
Qed.
End DecodeTotal.

(** ** The heap as a sorter, and the bounds of its array *)

Section HeapSort.
Import HuffmanNode MinHeap.

Lemma heap_ordered_nil : heap_ordered [].
Proof. intros i x c Hx. by destruct i. Qed.

Lemma run_inserts ns : ∀ outs h,
  heap_ordered h →
  ∃ h', for_of run_op (outs, h) (Insert <$> ns) = Normal (outs, h') ∧
        heap_ordered h' ∧ h' ≡ₚ ns ++ h.
Proof.
  induction ns as [|n ns IH]; intros outs h Ho.
  { by exists h. }
  rewrite fmap_cons. cbn [for_of run_op].
  destruct (insert_spec h n) as (h1 & -> & Hperm & Hord). step_bind.
  destruct (IH outs h1 (Hord Ho)) as (h' & -> & Ho' & Hp).
  exists h'. split_and!; [done..|].
  rewrite Hp, Hperm. simpl. by rewrite Permutation_middle.
Qed.

Lemma run_drain n : ∀ outs h,
  length h = n → heap_ordered h →
  ∃ s, for_of run_op (outs, h) (replicate n ExtractMin)
       = Normal (outs ++ s, []) ∧
       s ≡ₚ h ∧
       StronglySorted (λ a b, frequency a ≤ frequency b) s.
Proof.
  induction n as [|n IH]; intros outs h Hlen Ho.
  { destruct h; [|done]. exists []. rewrite app_nil_r.
    split_and!; [done..|constructor]. }
  cbn [replicate for_of run_op].
  destruct (extractMin_spec h) as (m & h1 & -> & Hperm & Hord).
  { by intros ->. }
  step_bind. cbn beta iota. destruct (Hord Ho) as [Ho1 Hmin].
  destruct (IH (outs ++ [m]) h1) as (s & -> & Hs & Hsorted); [|done|].
  { apply Permutation_length in Hperm. simpl in Hperm. lia. }
  exists (m :: s). split_and!.
  - by rewrite <- (assoc_L (++)).
  - by rewrite Hperm, Hs.
  - constructor; [done|].
    rewrite Hperm in Hmin. apply Forall_cons in Hmin as [_ Hmin].
    by rewrite Hs.
Qed.

(** X13. Heap sort: inserting any nodes into a new heap and extracting as
    many times returns all of them, each once, in order of ascending
    frequency, and leaves the heap empty. *)
Theorem heap_sorts ns :
  ∃ outs,
    run (sort_ops ns) = Normal (outs, []) ∧
    outs ≡ₚ ns ∧
    StronglySorted (λ a b, frequency a ≤ frequency b) outs.
Proof.
  unfold run, sort_ops. rewrite for_of_app.
  destruct (run_inserts ns [] MinHeap.new heap_ordered_nil)
    as (h & -> & Ho & Hp).
  step_bind. rewrite app_nil_r in Hp.
  destruct (run_drain (length ns) [] h) as (s & -> & Hs & Hsorted);
    [by rewrite Hp|done|].
  exists s. split_and!; [done| |done]. by rewrite Hs.
Qed.

(** X14. [bubbleUp] and the bounds of the array: at index 0 it returns the
    array as it is, at a positive index outside the array it throws a
    TypeError (the element read is [undefined]), and at any index inside
    the array it returns a rearrangement of the same elements. *)
Theorem bubbleUp_bounds h index :
  (index = 0 → bubbleUp h index = Normal h) ∧
  (0 < index → length h ≤ index → bubbleUp h index = TypeError) ∧
  (index < length h → ∃ h', bubbleUp h index = Normal h' ∧ h' ≡ₚ h).
Proof.
  split_and!.
  - by intros ->.
  - intros Hpos Hlen. rewrite bubbleUp_unfold, decide_True by done.
    by rewrite (lookup_ge_None_2 h index) by lia.
  - intros Hlt.
    destruct (bubbleUp_loop_spec index h index) as (h' & Hrun & Hp & _);
      [done..|].
    by exists h'.
Qed.

(** X15. [bubbleDown] never throws: for every array and every index it
    returns a rearrangement of the same elements, and the array itself when
    the index has no child inside the array. *)
Theorem bubbleDown_total h index :
  ∃ h', bubbleDown h index = Normal h' ∧ h' ≡ₚ h ∧
        (length h ≤ 2 * index + 1 → h' = h).
Proof.
  destruct (bubbleDown_loop_spec (length h - index) h index)
    as (h' & Hrun & Hp & _); [done|].
  exists h'. split_and!; [done..|].
  intros Hlen. change (bubbleDown h index = Normal h') in Hrun.
  rewrite bubbleDown_unfold in Hrun.
  rewrite decide_False in Hrun by lia. step_bind.
  cbn [mbind completion_bind] in Hrun.
  rewrite decide_False in Hrun by lia.
  cbn [mbind completion_bind] in Hrun.
  rewrite decide_True in Hrun by done. congruence.
Qed.
End HeapSort.

(** ** The controller *)

Section ColorFacts.
Import HuffmanUI.

Lemma step_pow bits : bits ≤ 8 → 256 / 2 ^ bits = 2 ^ (8 - bits).
Proof.
  intros Hb. change 256 with (2 ^ 8).
  symmetry. by apply Nat.pow_sub_r.
Qed.

Lemma quantize_low bits v :
  bits ≤ 8 → quantize bits v = v / 2 ^ (8 - bits) * 2 ^ (8 - bits).
Proof.
  intros Hb. unfold quantize. rewrite decide_True by done.
  cbn zeta. by rewrite step_pow.
Qed.

Lemma reduce_loop_length bits : ∀ n data,
  length data ≤ n → length (reduce_loop bits data) = length data.
Proof.
  induction n as [|n IH]; intros data Hn.
  { destruct data; [done|simpl in Hn; lia]. }
  destruct data as [|r [|g [|b [|a rest]]]]; try done.
  cbn [reduce_loop length]. rewrite IH; [done|]. simpl in Hn. lia.
Qed.

Lemma reduce_loop_lookup bits : ∀ n data i,
  length data ≤ n →
  reduce_loop bits data !! i =
  (λ v, if decide (i `mod` 4 = 3) then v else quantize bits v)
    <$> data !! i.
Proof.
  induction n as [|n IH]; intros data i Hn.
  { destruct data; [done|simpl in Hn; lia]. }
  destruct data as [|r [|g [|b [|a rest]]]].
  - done.
  - destruct i as [|[|]]; done.
  - destruct i as [|[|[|]]]; done.
  - destruct i as [|[|[|[|]]]]; done.
  - cbn [reduce_loop].
    destruct i as [|[|[|[|i]]]]; try done.
    cbn [lookup list_lookup]. rewrite IH by (simpl in Hn; lia).
    replace (S (S (S (S i))) `mod` 4) with (i `mod` 4); [done|].
    change (S (S (S (S i)))) with (4 + i).
    rewrite <- (Nat.Div0.add_mod_idemp_l 4 i 4). done.
Qed.

Lemma pow2_pos n : 0 < 2 ^ n.
Proof. induction n; simpl; lia. Qed.

Lemma quantize_twice b1 b2 v :
  b1 < 1024 → b2 < 1024 →
  quantize b2 (quantize b1 v) = quantize (b1 `min` b2) v.
Proof.
  intros H1 H2. unfold quantize at 1 2.
  destruct (decide (b2 ≤ 8)) as [Hb2|Hb2];
    destruct (decide (b1 ≤ 8)) as [Hb1|Hb1]; cbn zeta;
    rewrite ?(decide_True (P := b1 < 1024)), ?(decide_True (P := b2 < 1024))
      by done.
  - rewrite !step_pow by done. rewrite quantize_low by lia.
    pose proof (pow2_pos (8 - b1)) as Hp1.
    pose proof (pow2_pos (8 - b2)) as Hp2.
    destruct (decide (b1 ≤ b2)) as [Hle|Hle].
    + replace (b1 `min` b2) with b1 by lia.
      replace (8 - b1) with ((b2 - b1) + (8 - b2)) at 2 by lia.
      rewrite Nat.pow_add_r, Nat.mul_assoc, Nat.div_mul by lia.
      rewrite <- Nat.mul_assoc, <- Nat.pow_add_r.
      by replace ((b2 - b1) + (8 - b2)) with (8 - b1) by lia.
    + replace (b1 `min` b2) with b2 by lia.
      replace (8 - b2) with ((8 - b1) + (b1 - b2)) at 1 by lia.
      rewrite Nat.pow_add_r, <- Nat.Div0.div_div, Nat.div_mul by lia.
      rewrite Nat.Div0.div_div, <- Nat.pow_add_r.
      by replace ((8 - b1) + (b1 - b2)) with (8 - b2) by lia.
  - rewrite quantize_low by lia.
    replace (b1 `min` b2) with b2 by lia. by rewrite step_pow.
  - unfold quantize. rewrite decide_True by lia.
    by replace (b1 `min` b2) with b1 by lia.
  - unfold quantize. rewrite decide_False, decide_True by lia. done.
Qed.

(** X16. [reduceColorDepth] with a depth of at most 8 bits keeps the length
    of the data and every fourth byte (alpha); every other byte becomes the
    greatest multiple of [step = 2^(8 - bits)] that is not above it, which
    is one of [2^bits] levels. *)
Theorem reduceColorDepth_spec data bits i v :
  bits ≤ 8 → data !! i = Some v →
  length (reduceColorDepth data bits) = length data ∧
  ∃ v', reduceColorDepth data bits !! i = Some v' ∧
        (i `mod` 4 = 3 → v' = v) ∧
        (i `mod` 4 ≠ 3 →
         ∃ k, v' = k * 2 ^ (8 - bits) ∧ v' ≤ v < v' + 2 ^ (8 - bits) ∧
              (v < 256 → k < 2 ^ bits)).
Proof.
  intros Hb Hv. unfold reduceColorDepth.
  split; [by apply (reduce_loop_length bits (length data))|].
  rewrite (reduce_loop_lookup bits (length data)), Hv by done.
  cbn [fmap option_fmap option_map]. eexists. split; [done|].
  split; intros Hi.
  - by rewrite decide_True.
  - rewrite decide_False by done. rewrite quantize_low by done.
    pose proof (pow2_pos (8 - bits)) as Hp.
    exists (v / 2 ^ (8 - bits)). split; [done|].
    pose proof (Nat.div_mod_eq v (2 ^ (8 - bits))) as Hdm.
    pose proof (Nat.mod_upper_bound v (2 ^ (8 - bits))) as Hub.
    split; [lia|]. intros Hv256.
    apply Nat.Div0.div_lt_upper_bound.
    rewrite <- Nat.pow_add_r. replace (8 - bits + bits) with 8 by lia.
    exact Hv256.
Qed.

(** X17. Reducing the depth twice is reducing it once to the smaller of the
    two depths; in particular reducing to the same depth again changes
    nothing. *)
Theorem reduceColorDepth_twice data b1 b2 :
  b1 < 1024 → b2 < 1024 →
  reduceColorDepth (reduceColorDepth data b1) b2
  = reduceColorDepth data (b1 `min` b2).
Proof.
  intros H1 H2. unfold reduceColorDepth. apply list_eq. intros i.
  rewrite (reduce_loop_lookup b2 (length (reduce_loop b1 data))) by done.
  rewrite (reduce_loop_lookup b1 (length data)) by done.
  rewrite (reduce_loop_lookup (b1 `min` b2) (length data)) by done.
  destruct (data !! i) as [v|]; [|done].
  cbn [fmap option_fmap option_map]. f_equal.
  case_decide; [done|]. by apply quantize_twice.
Qed.
End ColorFacts.


Section SearchFacts.
Import HuffmanUI.

End SearchFacts.

Section UIFacts.

Lemma trim_end_empty s :
  trim_end s = "" ↔ Forall (λ c, is_white_space c = true) (chars s).
Proof.
  induction s as [|c s IH]; [done|].
  change (chars (String c s)) with (c :: chars s).
  rewrite Forall_cons, <- IH. cbn [trim_end].
  destruct (trim_end s) as [|? ?].
  - destruct (is_white_space c); naive_solver.
  - naive_solver.
Qed.

Lemma trim_start_white s :
  Forall (λ c, is_white_space c = true) (chars s) → trim_start s = "".
Proof.
  induction s as [|c s IH]; [done|].
  change (chars (String c s)) with (c :: chars s).
  intros [Hc Hs]%Forall_cons. cbn [trim_start]. rewrite Hc. by apply IH.
Qed.

Lemma trim_start_first s :
  match trim_start s with
  | String c _ => is_white_space c = false
  | EmptyString => Forall (λ c, is_white_space c = true) (chars s)
  end.
Proof.
  induction s as [|c s IH]; [apply Forall_nil_2|]. cbn [trim_start].
  destruct (is_white_space c) eqn:Hc; [|done].
  destruct (trim_start s); [|done].
  change (chars (String c s)) with (c :: chars s). by apply Forall_cons.
Qed.

(** The trimmed text is empty exactly for a text of white space. *)
Lemma trim_empty s :
  trim s = "" ↔ Forall (λ c, is_white_space c = true) (chars s).
Proof.
  unfold trim. split.
  - intros Hs. pose proof (trim_start_first s) as Hf.
    destruct (trim_start s) as [|c t]; [done|].
    apply trim_end_empty in Hs.
    change (chars (String c t)) with (c :: chars t) in Hs.
    apply Forall_inv in Hs. congruence.
  - intros Hs. by rewrite trim_start_white.
Qed.

Lemma length_substring_0 n : ∀ s, String.length (String.substring 0 n s) ≤ n.
Proof.
  induction n as [|n IH]; intros [|c s]; simpl; try lia.
  specialize (IH s). lia.
Qed.

Lemma substring_0_nonempty n s :
  s ≠ "" → String.substring 0 (S n) s ≠ "".
Proof. by destruct s. Qed.

(** X19. Up to the rendering of a result, which is an event here,
    [HuffmanUI.compress] never throws and never shows the alert
    'Error: ...'. In text mode it alerts for a text of white space and
    otherwise compresses the trimmed text; in any other mode it alerts when
    there is no image text and otherwise compresses its first 1000
    characters. An alert changes nothing; after a result the object holds
    it and the download button is enabled. *)
Theorem ui_compress_outcome ui σ :
  ∃ ev ui' σ',
    HuffmanUI.compress ui σ = Normal (ev, ui', σ') ∧
    match ev with
    | HuffmanUI.AlertEnterText =>
        HuffmanUI.currentMode ui = "text" ∧
        Forall (λ c, is_white_space c = true) (chars (HuffmanUI.textInput ui)) ∧
        ui' = ui ∧ σ' = σ
    | HuffmanUI.AlertUploadImage =>
        HuffmanUI.currentMode ui ≠ "text" ∧
        (HuffmanUI.imageDataString ui = None ∨ HuffmanUI.imageDataString ui = Some "") ∧
        ui' = ui ∧ σ' = σ
    | HuffmanUI.AlertError _ => False
    | HuffmanUI.Shown r =>
        HuffmanUI.currentResult ui' = Some r ∧
        HuffmanUI.downloadDisabled ui' = false ∧
        Result.original r ≠ "" ∧
        Result.originalBits r = String.length (Result.original r) * 8 ∧
        HuffmanCoding.compress (Result.original r) (HuffmanUI.huffman ui) σ
        = Normal (Success r, HuffmanUI.huffman ui', σ') ∧
        if decide (HuffmanUI.currentMode ui = "text")
        then Result.original r = trim (HuffmanUI.textInput ui)
        else ∃ s, HuffmanUI.imageDataString ui = Some s ∧
                  Result.original r = String.substring 0 1000 s ∧
                  Result.originalBits r ≤ 1000 * 8
    end.
Proof.
  assert (Hrun : ∀ data, data ≠ "" →
    ∃ r h σ',
      HuffmanCoding.compress data (HuffmanUI.huffman ui) σ
      = Normal (Success r, h, σ') ∧
      Result.original r = data ∧
      Result.originalBits r = String.length data * 8).
  { intros data Hne.
    destruct (compress_run data (HuffmanUI.huffman ui) σ Hne)
      as (t & _ & _ & _ & Hrun).
    destruct (store_after data t (HuffmanUI.huffman ui) σ) as [[lf lc] σ'].
    eexists _, _, _. split; [exact Hrun|]. done. }
  unfold HuffmanUI.compress.
  destruct (decide (HuffmanUI.currentMode ui = "text")) as [Hmode|Hmode].
  - destruct (decide (trim (HuffmanUI.textInput ui) = "")) as [Hempty|Hne].
    + eexists _, _, _. split; [reflexivity|].
      split_and!; [done| |done..]. by apply trim_empty.
    + destruct (Hrun _ Hne) as (r & h & σ' & Hc & Ho & Hb).
      rewrite Hc. step_bind. cbn beta iota.
      eexists _, _, _. split; [reflexivity|].
      cbn [HuffmanUI.currentResult HuffmanUI.downloadDisabled HuffmanUI.huffman].
      rewrite Ho. split; [done|]. split; [done|]. split; [exact Hne|].
      split; [exact Hb|]. split; [exact Hc|]. done.
  - destruct (HuffmanUI.imageDataString ui) as [s|] eqn:Hs.
    2:{ eexists _, _, _. split; [reflexivity|]. split_and!; auto. }
    destruct (decide (s = "")) as [->|Hne].
    { eexists _, _, _. split; [reflexivity|]. split_and!; auto. }
    assert (String.substring 0 1000 s ≠ "") as Hne'.
    { by apply substring_0_nonempty. }
    destruct (Hrun _ Hne') as (r & h & σ' & Hc & Ho & Hb).
    rewrite Hc. step_bind. cbn beta iota.
    eexists _, _, _. split; [reflexivity|].
    cbn [HuffmanUI.currentResult HuffmanUI.downloadDisabled HuffmanUI.huffman].
    rewrite Ho. split_and!; [done..|].
    exists s. split_and!; [done..|].
    rewrite Hb. pose proof (length_substring_0 1000 s). lia.
Qed.
End UIFacts.

Section ImageText.
Import HuffmanNode.

Lemma uint_digits (u : Decimal.uint) :
  Forall (λ c, c ∈ image_alphabet)
         (chars (DecimalString.NilEmpty.string_of_uint u)).
Proof.
  induction u; cbn [DecimalString.NilEmpty.string_of_uint];
    [apply Forall_nil_2|..];
    (apply Forall_cons; split; [|done]);
    unfold image_alphabet; cbn; rewrite !elem_of_cons; tauto.
Qed.

Lemma number_to_string_shape n :
  number_to_string n ≠ "" ∧
  Forall (λ c, c ∈ image_alphabet) (chars (number_to_string n)).
Proof.
  unfold number_to_string, DecimalString.NilZero.string_of_uint.
  destruct (Nat.to_uint n) eqn:Hu.
  1:{ split; [done|]. apply Forall_singleton.
      unfold image_alphabet. cbn. left. }
  all: split; [done|rewrite <- Hu at 1; try apply uint_digits].
  all: apply uint_digits.
Qed.

Lemma concat_cons (sep x y : string) (l : list string) :
  String.concat sep (x :: y :: l)
  = x +:+ sep +:+ String.concat sep (y :: l).
Proof. reflexivity. Qed.

Lemma join_data_shape data :
  data ≠ [] →
  HuffmanUI.join_data data ≠ "" ∧
  Forall (λ c, c ∈ image_alphabet) (chars (HuffmanUI.join_data data)).
Proof.
  unfold HuffmanUI.join_data. induction data as [|n data IH]; [done|]. intros _.
  destruct (number_to_string_shape n) as [Hne Hn].
  rewrite fmap_cons. destruct data as [|m data].
  { by cbn [fmap list_fmap String.concat]. }
  destruct IH as [_ IH]; [done|].
  rewrite fmap_cons in *. rewrite concat_cons.
  split.
  - destruct (number_to_string n); [done|]. by rewrite append_cons.
  - rewrite !chars_append, !Forall_app. split_and!; [done| |done].
    apply Forall_singleton. unfold image_alphabet. cbn.
    rewrite !elem_of_cons. tauto.
Qed.

Lemma substring_0_chars n : ∀ s,
  chars (String.substring 0 n s) = take n (chars s).
Proof.
  induction n as [|n IH]; intros [|c s]; try done.
  change (String.substring 0 (S n) (String c s))
    with (String c (String.substring 0 n s)).
  change (chars (String c ?x)) with (c :: chars x).
  cbn [take]. by rewrite IH.
Qed.

Lemma distinct_alphabet data (alphabet : list ascii) :
  Forall (λ c, c ∈ alphabet) (chars data) →
  distinct data ≤ length alphabet.
Proof.
  intros Hall. unfold distinct. apply submseteq_length.
  apply NoDup_submseteq; [apply NoDup_remove_dups|].
  intros c Hc. rewrite elem_of_remove_dups in Hc.
  exact (proj1 (Forall_forall _ _) Hall c Hc).
Qed.

(** X22. In image mode the text that is compressed consists of decimal
    digits and commas only. The code table has at most 11 entries, no code
    is longer than 10 bits, and the encoded text has at most 10000
    bits. *)
Theorem image_mode_alphabet ui σ pixels :
  HuffmanUI.currentMode ui ≠ "text" →
  HuffmanUI.imageDataString ui = Some (HuffmanUI.join_data pixels) →
  pixels ≠ [] →
  ∃ r ui' σ',
    HuffmanUI.compress ui σ = Normal (HuffmanUI.Shown r, ui', σ') ∧
    Forall (λ c, c ∈ image_alphabet) (chars (Result.original r)) ∧
    length (code_read (Result.codes r) σ') ≤ 11 ∧
    Forall (λ e, String.length e.2 ≤ 10) (code_read (Result.codes r) σ') ∧
    Result.compressedBits r ≤ 1000 * 10.
Proof.
  intros Hmode Himg Hpix.
  destruct (join_data_shape pixels Hpix) as [Hne Hal].
  set (s := HuffmanUI.join_data pixels) in *.
  set (data := String.substring 0 1000 s).
  assert (data ≠ "") as Hdne by by apply substring_0_nonempty.
  assert (Forall (λ c, c ∈ image_alphabet) (chars data)) as Hdal.
  { unfold data. rewrite substring_0_chars. by apply Forall_take. }
  pose proof (distinct_alphabet data image_alphabet Hdal) as Hdist.
  change (length image_alphabet) with 11 in Hdist.
  pose proof (length_substring_0 1000 s) as Hlen. fold data in Hlen.
  destruct (compress_run data (HuffmanUI.huffman ui) σ Hdne)
    as (t & _ & Hfull & Hlv & Hrun).
  pose proof (store_after_read data t (HuffmanUI.huffman ui) σ) as Hst.
  destruct (store_after data t (HuffmanUI.huffman ui) σ) as [[lf lc] σ'].
  destruct Hst as [_ Hlc].
  unfold HuffmanUI.compress. rewrite decide_False by done.
  rewrite Himg, decide_False by done. fold s data. rewrite Hrun.
  step_bind. cbn beta iota.
  eexists _, _, _. split; [reflexivity|].
  cbn [Result.original Result.codes Result.compressedBits]. rewrite Hlc.
  assert (internal_count t = distinct data - 1) as Hint.
  { pose proof (full_leaf_count t Hfull) as Hl.
    rewrite Hlv, length_fmap, length_freq_of in Hl. lia. }
  split_and!.
  - done.
  - assert (length (code_table t) = distinct data) as ->; [|done].
    rewrite <- length_freq_of, <- (length_fmap fst (code_table t)),
      <- (length_fmap fst (freq_of data)),
      <- (length_fmap Some (freq_of data).*1).
    apply Permutation_length, NoDup_Permutation.
    + apply NoDup_set_all, NoDup_nil_2.
    + apply (NoDup_fmap_2 _), freq_of_NoDup.
    + intros k. rewrite code_table_keys, Hlv.
      assert (((λ e : ascii * nat, (Some e.1, e.2)) <$> freq_of data).*1
              = Some <$> (freq_of data).*1) as ->; [|done].
      by rewrite <- !list_fmap_compose.
  - eapply Forall_impl; [apply code_table_shape|].
    intros e (_ & _ & He). cbn beta in He. lia.
  - rewrite encode_with_length.
    pose proof (sum_list_with_bounds (code_length (code_table t))
                  (chars data) 1 10) as [_ Hhi].
    + apply Forall_forall. intros c Hc. unfold code_length.
      destruct (code_of_symbol data t c Hlv Hc) as (p & -> & Hp & _ & Hl).
      cbn [code_to_string]. destruct p; [done|]. simpl in *. lia.
    + rewrite length_chars in Hhi. nia.
Qed.
End ImageText.

(** ** Instances *)

Section Instances.
Import HuffmanNode.

(** X1 at the input "AB" on a new object. *)
Lemma frequencies_count_occurrences_witness :
  "AB" ≠ "" ∧
  ∃ r this' σ',
    HuffmanCoding.compress "AB" new_instance.1 new_instance.2
    = Normal (Success r, this', σ') ∧
    NoDup (freq_read (Result.frequencies r) σ').*1 ∧
    ∀ c, JsMap.get c (freq_read (Result.frequencies r) σ')
         = count_entry (occurrences c (chars "AB")).
Proof.
  split; [discriminate|].
  apply (frequencies_count_occurrences "AB" new_instance.1 new_instance.2).
  discriminate.
Defined.

(** X2 at the input "AB" on a new object. *)
Lemma code_table_covers_input_witness :
  "AB" ≠ "" ∧
  ∃ r this' σ',
    HuffmanCoding.compress "AB" new_instance.1 new_instance.2
    = Normal (Success r, this', σ') ∧
    (∀ k, is_Some (JsMap.get k (code_read (Result.codes r) σ')) ↔
          ∃ c, k = Some c ∧ c ∈ chars "AB") ∧
    NoDup (code_read (Result.codes r) σ').*1 ∧
    length (code_read (Result.codes r) σ') = distinct "AB" ∧
    Forall (λ e, e.2 ≠ "" ∧ binary e.2) (code_read (Result.codes r) σ').
Proof.
  split; [discriminate|].
  apply (code_table_covers_input "AB" new_instance.1 new_instance.2).
  discriminate.
Defined.

(** X3 at the input "AB" on a new object. *)
Lemma encoded_is_binary_witness :
  "AB" ≠ "" ∧
  ∃ r this' σ',
    HuffmanCoding.compress "AB" new_instance.1 new_instance.2
    = Normal (Success r, this', σ') ∧
    binary (Result.encoded r) ∧
    Result.compressedBits r = String.length (Result.encoded r) ∧
    Result.compressedBits r
    = sum_list_with (code_length (code_read (Result.codes r) σ'))
                    (chars "AB") ∧
    (∀ c, c ∈ chars "AB" →
          ∃ p, JsMap.get (Some c) (code_read (Result.codes r) σ') = Some p ∧
               binary p ∧
               code_length (code_read (Result.codes r) σ') c
               = String.length p ∧
               1 ≤ String.length p ≤ (distinct "AB" - 1) `max` 1) ∧
    String.length "AB" ≤ Result.compressedBits r ∧
    Result.compressedBits r
    ≤ String.length "AB" * ((distinct "AB" - 1) `max` 1).
Proof.
  split; [discriminate|].
  apply (encoded_is_binary "AB" new_instance.1 new_instance.2).
  discriminate.
Defined.

(** X4 at the input "AB" on a new object. *)
Lemma compressed_bits_weighted_witness :
  "AB" ≠ "" ∧
  ∃ r this' σ',
    HuffmanCoding.compress "AB" new_instance.1 new_instance.2
    = Normal (Success r, this', σ') ∧
    Result.compressedBits r =
    sum_list_with
      (λ e, e.2 * code_length (code_read (Result.codes r) σ') e.1)
      (freq_read (Result.frequencies r) σ').
Proof.
  split; [discriminate|].
  apply (compressed_bits_weighted "AB" new_instance.1 new_instance.2).
  discriminate.
Defined.

(** X5 at the input "AAB", against the code that gives A the text "10" and
    every other symbol the text "0". *)
Lemma compress_optimal_witness :
  "AAB" ≠ "" ∧
  ∃ r this' σ',
    HuffmanCoding.compress "AAB" new_instance.1 new_instance.2
    = Normal (Success r, this', σ') ∧
    Result.compressedBits r
    ≤ sum_list_with
        (λ c, String.length (if decide (c = "A"%char) then "10" else "0"))
        (chars "AAB").
Proof.
  split; [discriminate|].
  apply (compress_optimal "AAB" new_instance.1 new_instance.2
           (λ c, if decide (c = "A"%char) then "10" else "0")).
  - discriminate.
  - intros c _. case_decide; (split; [discriminate|]).
    + apply Forall_cons. split; [by right|].
      apply Forall_cons. split; [by left|]. apply Forall_nil_2.
    + apply Forall_cons. split; [by left|]. apply Forall_nil_2.
  - intros c1 c2 H1 H2 Hne. cbn in H1, H2.
    rewrite !elem_of_cons, elem_of_nil in H1, H2.
    destruct H1 as [->|[->|[->|[]]]], H2 as [->|[->|[->|[]]]];
      try done; reflexivity.
Defined.

(** X6 at the input "AB", on a new object in an empty store and on an
    object that holds a tree, in a store that holds a code map. *)
Lemma compress_ignores_history_witness :
  "AB" ≠ "" ∧
  ∃ r1 this1' σ1' r2 this2' σ2',
    HuffmanCoding.compress "AB" new_instance.1 new_instance.2
    = Normal (Success r1, this1', σ1') ∧
    HuffmanCoding.compress "AB" two_leaf_instance a_only_store
    = Normal (Success r2, this2', σ2') ∧
    Result.encoded r1 = Result.encoded r2 ∧
    Result.tree r1 = Result.tree r2 ∧
    Result.originalBits r1 = Result.originalBits r2 ∧
    Result.compressedBits r1 = Result.compressedBits r2 ∧
    freq_read (Result.frequencies r1) σ1'
    = freq_read (Result.frequencies r2) σ2' ∧
    code_read (Result.codes r1) σ1' = code_read (Result.codes r2) σ2'.
Proof.
  split; [discriminate|].
  apply (compress_ignores_history "AB" new_instance.1 new_instance.2
           two_leaf_instance a_only_store).
  discriminate.
Defined.

(** X8 at the input "AB" on a new object. *)
Lemma codec_reuse_witness :
  2 ≤ distinct "AB" ∧
  ∃ r this' σ',
    HuffmanCoding.compress "AB" new_instance.1 new_instance.2
    = Normal (Success r, this', σ') ∧
    Result.encoded r = HuffmanCoding.encode "AB" this' σ' ∧
    ∀ text,
      (∀ c, c ∈ chars text → c ∈ chars "AB") →
      HuffmanCoding.decode (HuffmanCoding.encode text this' σ') this'
      = Normal text.
Proof.
  split; [vm_compute; lia|].
  apply (codec_reuse "AB" new_instance.1 new_instance.2).
  vm_compute. lia.
Defined.

(** X9 on the tree with the two leaves A and B: "01" decodes to "AB" and
    ends at the root. *)
Lemma decode_resumes_witness :
  decode_run "01" two_leaf_instance
  = Normal ("AB", HuffmanCoding.root two_leaf_instance) ∧
  HuffmanCoding.decode ("01" +:+ "10") two_leaf_instance =
  s ← HuffmanCoding.decode "10" two_leaf_instance; Normal ("AB" +:+ s).
Proof.
  split; [reflexivity|].
  apply (decode_resumes "01" "10" two_leaf_instance "AB"). reflexivity.
Defined.

(** X10 at the input "AB" on a new object. *)
Lemma decode_never_throws_witness :
  2 ≤ distinct "AB" ∧
  ∃ r this' σ',
    HuffmanCoding.compress "AB" new_instance.1 new_instance.2
    = Normal (Success r, this', σ') ∧
    ∀ encoded, ∃ out,
      HuffmanCoding.decode encoded this' = Normal out ∧
      Forall (λ c, c ∈ chars "AB") (chars out).
Proof.
  split; [vm_compute; lia|].
  apply (decode_never_throws "AB" new_instance.1 new_instance.2).
  vm_compute. lia.
Defined.

(** X11 at the input "AAAA" on a new object. *)
Lemma decode_single_symbol_throws_witness :
  distinct "AAAA" = 1 ∧
  ∃ r this' σ',
    HuffmanCoding.compress "AAAA" new_instance.1 new_instance.2
    = Normal (Success r, this', σ') ∧
    Result.encoded r ≠ "" ∧
    HuffmanCoding.decode (Result.encoded r) this' = TypeError ∧
    ∀ encoded, encoded ≠ "" →
               HuffmanCoding.decode encoded this' = TypeError.
Proof.
  split; [reflexivity|].
  apply (decode_single_symbol_throws "AAAA" new_instance.1 new_instance.2).
  reflexivity.
Defined.

(** X16 at the green byte 13 of one pixel, reduced to 6 bits. *)
Lemma reduceColorDepth_spec_witness :
  6 ≤ 8 ∧ [200; 13; 255; 77] !! 1 = Some 13 ∧
  length (HuffmanUI.reduceColorDepth [200; 13; 255; 77] 6)
  = length [200; 13; 255; 77] ∧
  ∃ v', HuffmanUI.reduceColorDepth [200; 13; 255; 77] 6 !! 1 = Some v' ∧
        (1 `mod` 4 = 3 → v' = 13) ∧
        (1 `mod` 4 ≠ 3 →
         ∃ k, v' = k * 2 ^ (8 - 6) ∧ v' ≤ 13 < v' + 2 ^ (8 - 6) ∧
              (13 < 256 → k < 2 ^ 6)).
Proof.
  split; [lia|]. split; [reflexivity|].
  apply (reduceColorDepth_spec [200; 13; 255; 77] 6 1 13); [lia|reflexivity].
Defined.

(** X17 at one pixel, reduced to 6 bits and then to 3. *)
Lemma reduceColorDepth_twice_witness :
  6 < 1024 ∧ 3 < 1024 ∧
  HuffmanUI.reduceColorDepth (HuffmanUI.reduceColorDepth [200; 13; 255; 77] 6) 3
  = HuffmanUI.reduceColorDepth [200; 13; 255; 77] (6 `min` 3).
Proof.
  split; [lia|]. split; [lia|].
  apply (reduceColorDepth_twice [200; 13; 255; 77] 6 3); lia.
Defined.


(** X20 at the input "AB" on a new object. *)
Lemma compress_never_expands_witness :
  "AB" ≠ "" ∧
  ∃ r this' σ',
    HuffmanCoding.compress "AB" new_instance.1 new_instance.2
    = Normal (Success r, this', σ') ∧
    Result.compressedBits r ≤ Result.originalBits r.
Proof.
  split; [discriminate|].
  apply (compress_never_expands "AB" new_instance.1 new_instance.2).
  discriminate.
Defined.

(** X21 at the input "AAB": A occurs twice and B once. *)
Lemma frequent_symbols_short_codes_witness :
  0 < occurrences "B" (chars "AAB") ∧
  occurrences "B" (chars "AAB") < occurrences "A" (chars "AAB") ∧
  ∃ r this' σ',
    HuffmanCoding.compress "AAB" new_instance.1 new_instance.2
    = Normal (Success r, this', σ') ∧
    code_length (code_read (Result.codes r) σ') "A"
    ≤ code_length (code_read (Result.codes r) σ') "B".
Proof.
  split; [vm_compute; lia|]. split; [vm_compute; lia|].
  apply (frequent_symbols_short_codes "AAB" new_instance.1 new_instance.2
           "A" "B"); vm_compute; lia.
Defined.

(** X22 at the text "200,12,255,77" of one pixel. *)
Lemma image_mode_alphabet_witness :
  HuffmanUI.currentMode image_ui ≠ "text" ∧
  HuffmanUI.imageDataString image_ui
  = Some (HuffmanUI.join_data [200; 12; 255; 77]) ∧
  [200; 12; 255; 77] ≠ [] ∧
  ∃ r ui' σ',
    HuffmanUI.compress image_ui new_instance.2
    = Normal (HuffmanUI.Shown r, ui', σ') ∧
    Forall (λ c, c ∈ image_alphabet) (chars (Result.original r)) ∧
    length (code_read (Result.codes r) σ') ≤ 11 ∧
    Forall (λ e, String.length e.2 ≤ 10) (code_read (Result.codes r) σ') ∧
    Result.compressedBits r ≤ 1000 * 10.
Proof.
  split; [discriminate|]. split; [reflexivity|]. split; [discriminate|].
  apply (image_mode_alphabet image_ui new_instance.2 [200; 12; 255; 77]);
    [discriminate|reflexivity|discriminate].
Defined.
End Instances.
